(** * WhatsApp message queue of versaceotimizacao: model and properties

    A shallow embedding of the message-scheduling core of the backend:
    - [backend/utils/messageQueue.js]   (the queue writer),
    - [backend/utils/whatsapp.js]       (templates and the WAHA client),
    - [backend/pages/api/cron/check-expired-pix.js] (the two cron
      handlers it holds: the expiry sweeper, and the queue processor
      with [shouldCancelMessage] and [generateMessageText]),
    - [backend/pages/api/checkout/webhook.js] (OpenPix and Stripe) and
      the OpenPix webhook with [verifyChargeCompleted].

    Prisma calls are commands of a state-and-exception monad over the
    database tables; every handler is run to completion on the state it
    starts from (one request at a time). *)

From Stdlib Require Import ZArith String Ascii DecimalString.
From stdpp Require Import base decidable option numbers list sorting strings.

Local Open Scope string_scope.

(** ** Data model (the Prisma schema as the code uses it) *)

Inductive MessageType := LEAD_WELCOME | PAYMENT_ABANDONED | PAYMENT_CONFIRMED.
Inductive MessageStatus := PENDING | SENT | CANCELLED | FAILED.
Inductive TransactionStatus :=
  | requires_payment_method | requires_confirmation | processing
  | requires_action | requires_capture | succeeded | canceled.
Inductive PaymentMethod := pix | card.

#[global] Instance MessageType_eq_dec : EqDecision MessageType.
Proof. solve_decision. Defined.
#[global] Instance MessageStatus_eq_dec : EqDecision MessageStatus.
Proof. solve_decision. Defined.
#[global] Instance TransactionStatus_eq_dec : EqDecision TransactionStatus.
Proof. solve_decision. Defined.
#[global] Instance PaymentMethod_eq_dec : EqDecision PaymentMethod.
Proof. solve_decision. Defined.

(** Timestamps are milliseconds since the epoch, as [Date.getTime()] gives
    them.  A row's [id] is its position in its table: rows are created by
    appending and are never deleted. *)

Record LeadRow := {
  lr_nome : string;
  lr_whatsapp : string;
  lr_stage : string;
}.

Record Transaction := {
  tx_lead_id : nat;
  tx_affiliate_id : option nat;
  payment_method : PaymentMethod;
  tx_status : TransactionStatus;
  stripe_payment_intent : option string;
  scheduled_date : option Z;
  scheduled_time : option Z;
  tx_created_at : Z;
}.

Record Meeting := {
  transaction_id : nat;
  mt_lead_id : nat;
  mt_affiliate_id : option nat;
  meeting_date : option Z;
  meeting_time : option Z;
  mt_status : string;
  mt_created_at : Z;
}.

Record WhatsAppMessage := {
  lead_id : nat;
  phone : string;
  message_type : MessageType;
  status : MessageStatus;
  send_after : Z;
  message_text : option string;
  sent_at : option Z;
  error : option string;
  updated_at : option Z;
}.

(** The world a handler runs in: the four tables, plus the log of the
    requests made to the two outbound services (WAHA [sendText] calls as
    (chatId, text); Discord payment notifications by transaction id). *)
Record World := {
  leads : list LeadRow;
  transactions : list Transaction;
  meetings : list Meeting;
  whatsAppMessages : list WhatsAppMessage;
  waha_requests : list (string * string);
  discord_notifications : list nat;
}.

Definition set_leads (f : list LeadRow → list LeadRow) (w : World) : World :=
  {| leads := f (leads w); transactions := transactions w;
     meetings := meetings w; whatsAppMessages := whatsAppMessages w;
     waha_requests := waha_requests w;
     discord_notifications := discord_notifications w |}.

Definition set_transactions (f : list Transaction → list Transaction)
    (w : World) : World :=
  {| leads := leads w; transactions := f (transactions w);
     meetings := meetings w; whatsAppMessages := whatsAppMessages w;
     waha_requests := waha_requests w;
     discord_notifications := discord_notifications w |}.

Definition set_meetings (f : list Meeting → list Meeting) (w : World) : World :=
  {| leads := leads w; transactions := transactions w;
     meetings := f (meetings w); whatsAppMessages := whatsAppMessages w;
     waha_requests := waha_requests w;
     discord_notifications := discord_notifications w |}.

Definition set_whatsAppMessages
    (f : list WhatsAppMessage → list WhatsAppMessage) (w : World) : World :=
  {| leads := leads w; transactions := transactions w;
     meetings := meetings w; whatsAppMessages := f (whatsAppMessages w);
     waha_requests := waha_requests w;
     discord_notifications := discord_notifications w |}.

Definition set_waha_requests
    (f : list (string * string) → list (string * string)) (w : World) : World :=
  {| leads := leads w; transactions := transactions w;
     meetings := meetings w; whatsAppMessages := whatsAppMessages w;
     waha_requests := f (waha_requests w);
     discord_notifications := discord_notifications w |}.

Definition set_discord_notifications (f : list nat → list nat)
    (w : World) : World :=
  {| leads := leads w; transactions := transactions w;
     meetings := meetings w; whatsAppMessages := whatsAppMessages w;
     waha_requests := waha_requests w;
     discord_notifications := f (discord_notifications w) |}.

Definition empty_world : World :=
  {| leads := []; transactions := []; meetings := [];
     whatsAppMessages := []; waha_requests := [];
     discord_notifications := [] |}.

(** ** The monad of [async] handler code: state plus JS exceptions *)

Inductive Result (A : Type) :=
  | Ok (a : A)
  | Thrown (message : string).
Arguments Ok {A} a.
Arguments Thrown {A} message.

Definition Prisma (A : Type) : Type := World → Result A * World.

Definition ret {A} (a : A) : Prisma A := λ w, (Ok a, w).

Definition throw {A} (message : string) : Prisma A := λ w, (Thrown message, w).

Definition bind {A B} (c : Prisma A) (k : A → Prisma B) : Prisma B :=
  λ w, match c w with
       | (Ok a, w') => k a w'
       | (Thrown e, w') => (Thrown e, w')
       end.

(** [try { body } catch (error) { handler(error.message) }] *)
Definition try_catch {A} (body : Prisma A) (handler : string → Prisma A)
    : Prisma A :=
  λ w, match body w with
       | (Ok a, w') => (Ok a, w')
       | (Thrown e, w') => handler e w'
       end.

Notation "'await' x ← c ; k" := (bind c (λ x, k))
  (at level 10, x name, c at level 100, k at level 200,
   format "'[v' 'await'  x  ←  c ; '/' k ']'").

(** ** Prisma client operations *)

(** The rows of a table with their ids. *)
Definition rows {A} (tbl : list A) : list (nat * A) := imap pair tbl.

Module Table.
Section Queries.
Context {A : Type}.

(** [findFirst({ where })]: some matching row, or [null]. *)
Definition findFirst (where_ : nat * A → Prop)
    `{!∀ r, Decision (where_ r)} (tbl : list A) : option (nat * A) :=
  head (filter where_ (rows tbl)).

(** [findMany({ where })], in table order. *)
Definition findMany (where_ : nat * A → Prop)
    `{!∀ r, Decision (where_ r)} (tbl : list A) : list (nat * A) :=
  filter where_ (rows tbl).

(** [updateMany({ where, data })] with a [where] that does not mention
    the id: the new table and the [count] of rows updated. *)
Definition updateMany (where_ : A → Prop) `{!∀ r, Decision (where_ r)}
    (data : A → A) (tbl : list A) : list A * nat :=
  ((λ r, if decide (where_ r) then data r else r) <$> tbl,
   length (filter where_ tbl)).

(** [update({ where: { id }, data })]: Prisma raises when no row has
    this id. *)
Definition update (id : nat) (data : A → A) (tbl : list A)
    : option (list A) :=
  match tbl !! id with
  | Some _ => Some (alter data id tbl)
  | None => None
  end.

(** [create({ data })]: the row is appended; its id is the next one. *)
Definition create (row : A) (tbl : list A) : list A * (nat * A) :=
  ((tbl ++ [row])%list, (length tbl, row)).
End Queries.
End Table.

Definition record_not_found : string :=
  "An operation failed because it depends on one or more records that were required but not found.".

Module prisma.
Module whatsAppMessage.
Definition findFirst (where_ : nat * WhatsAppMessage → Prop)
    `{!∀ r, Decision (where_ r)} : Prisma (option (nat * WhatsAppMessage)) :=
  λ w, (Ok (Table.findFirst where_ (whatsAppMessages w)), w).

Definition create (row : WhatsAppMessage)
    : Prisma (nat * WhatsAppMessage) :=
  λ w, let '(tbl, r) := Table.create row (whatsAppMessages w) in
       (Ok r, set_whatsAppMessages (λ _, tbl) w).

Definition updateMany (where_ : WhatsAppMessage → Prop)
    `{!∀ r, Decision (where_ r)} (data : WhatsAppMessage → WhatsAppMessage)
    : Prisma nat :=
  λ w, let '(tbl, count) := Table.updateMany where_ data (whatsAppMessages w) in
       (Ok count, set_whatsAppMessages (λ _, tbl) w).

Definition update (id : nat) (data : WhatsAppMessage → WhatsAppMessage)
    : Prisma unit :=
  λ w, match Table.update id data (whatsAppMessages w) with
       | Some tbl => (Ok tt, set_whatsAppMessages (λ _, tbl) w)
       | None => (Thrown record_not_found, w)
       end.
End whatsAppMessage.

Module transaction.
Definition findFirst (where_ : nat * Transaction → Prop)
    `{!∀ r, Decision (where_ r)} : Prisma (option (nat * Transaction)) :=
  λ w, (Ok (Table.findFirst where_ (transactions w)), w).

Definition update (id : nat) (data : Transaction → Transaction)
    : Prisma unit :=
  λ w, match Table.update id data (transactions w) with
       | Some tbl => (Ok tt, set_transactions (λ _, tbl) w)
       | None => (Thrown record_not_found, w)
       end.

Definition updateMany (where_ : Transaction → Prop)
    `{!∀ r, Decision (where_ r)} (data : Transaction → Transaction)
    : Prisma nat :=
  λ w, let '(tbl, count) := Table.updateMany where_ data (transactions w) in
       (Ok count, set_transactions (λ _, tbl) w).
End transaction.

Module meeting.
Definition findUnique (where_ : nat * Meeting → Prop)
    `{!∀ r, Decision (where_ r)} : Prisma (option (nat * Meeting)) :=
  λ w, (Ok (Table.findFirst where_ (meetings w)), w).

Definition create (row : Meeting) : Prisma (nat * Meeting) :=
  λ w, let '(tbl, r) := Table.create row (meetings w) in
       (Ok r, set_meetings (λ _, tbl) w).
End meeting.

Module lead.
Definition update (id : nat) (data : LeadRow → LeadRow) : Prisma unit :=
  λ w, match Table.update id data (leads w) with
       | Some tbl => (Ok tt, set_leads (λ _, tbl) w)
       | None => (Thrown record_not_found, w)
       end.
End lead.
End prisma.

(** A lead object as the queue functions destructure it:
    [const { id: leadId, nome, whatsapp } = lead]. *)
Record Lead := {
  id : nat;
  nome : string;
  whatsapp : string;
}.

(** [data: { status }] of an update. *)
Definition with_status (st : MessageStatus) (m : WhatsAppMessage)
    : WhatsAppMessage :=
  {| lead_id := lead_id m; phone := phone m; message_type := message_type m;
     status := st; send_after := send_after m;
     message_text := message_text m; sent_at := sent_at m;
     error := error m; updated_at := updated_at m |}.

(** ** backend/utils/messageQueue.js *)

Module messageQueue.

Definition WELCOME_MESSAGE_DELAY_MS : Z := 2 * 60 * 1000.

Definition cancelPendingWelcomeMessage (leadId : nat) : Prisma nat :=
  await count ← prisma.whatsAppMessage.updateMany
    (λ m, lead_id m = leadId ∧ message_type m = LEAD_WELCOME
          ∧ status m = PENDING)
    (with_status CANCELLED);
  ret count.

Definition cancelPendingAbandonedMessage (leadId : nat) : Prisma nat :=
  await count ← prisma.whatsAppMessage.updateMany
    (λ m, lead_id m = leadId ∧ message_type m = PAYMENT_ABANDONED
          ∧ status m = PENDING)
    (with_status CANCELLED);
  ret count.

(** [now] is what [Date.now()] returns during the call. *)
Definition queueLeadWelcomeMessage (now : Z) (lead : Lead)
    : Prisma (option (nat * WhatsAppMessage)) :=
  let leadId := id lead in
  await existing ← prisma.whatsAppMessage.findFirst
    (λ r, lead_id r.2 = leadId ∧ message_type r.2 = LEAD_WELCOME
          ∧ status r.2 ∈ [PENDING; SENT]);
  match existing with
  | Some _ => ret None
  | None =>
      let sendAfter := (now + WELCOME_MESSAGE_DELAY_MS)%Z in
      await message ← prisma.whatsAppMessage.create
        {| lead_id := leadId; phone := whatsapp lead;
           message_type := LEAD_WELCOME; status := PENDING;
           send_after := sendAfter;
           message_text := None; sent_at := None; error := None;
           updated_at := None |};
      ret (Some message)
  end.

Definition queuePaymentAbandonedMessage (now : Z) (lead : Lead)
    : Prisma (option (nat * WhatsAppMessage)) :=
  let leadId := id lead in
  await successfulPayment ← prisma.transaction.findFirst
    (λ r, tx_lead_id r.2 = leadId ∧ tx_status r.2 = succeeded);
  match successfulPayment with
  | Some _ => ret None
  | None =>
      await existing ← prisma.whatsAppMessage.findFirst
        (λ r, lead_id r.2 = leadId ∧ message_type r.2 = PAYMENT_ABANDONED
              ∧ status r.2 ∈ [PENDING; SENT]);
      match existing with
      | Some _ => ret None
      | None =>
          await _ ← cancelPendingWelcomeMessage leadId;
          await message ← prisma.whatsAppMessage.create
            {| lead_id := leadId; phone := whatsapp lead;
               message_type := PAYMENT_ABANDONED; status := PENDING;
               send_after := now;
               message_text := None; sent_at := None; error := None;
               updated_at := None |};
          ret (Some message)
      end
  end.

Definition queuePaymentConfirmedMessage (now : Z) (lead : Lead)
    : Prisma (option (nat * WhatsAppMessage)) :=
  let leadId := id lead in
  await existing ← prisma.whatsAppMessage.findFirst
    (λ r, lead_id r.2 = leadId ∧ message_type r.2 = PAYMENT_CONFIRMED
          ∧ status r.2 ∈ [PENDING; SENT]);
  match existing with
  | Some _ => ret None
  | None =>
      await _ ← cancelPendingWelcomeMessage leadId;
      await _ ← cancelPendingAbandonedMessage leadId;
      await message ← prisma.whatsAppMessage.create
        {| lead_id := leadId; phone := whatsapp lead;
           message_type := PAYMENT_CONFIRMED; status := PENDING;
           send_after := now;
           message_text := None; sent_at := None; error := None;
           updated_at := None |};
      ret (Some message)
  end.

End messageQueue.

(** ** JavaScript strings and dates, as far as the templates use them *)

Module JS.

(** [s.toLowerCase()] on the ASCII letters (the greetings are ASCII). *)
Definition lower (c : ascii) : ascii :=
  let n := nat_of_ascii c in
  if (65 <=? n)%nat && (n <=? 90)%nat then ascii_of_nat (n + 32) else c.

Fixpoint toLowerCase (s : string) : string :=
  match s with
  | EmptyString => EmptyString
  | String c s' => String (lower c) (toLowerCase s')
  end.

(** [s.split(' ')[0]]: the characters before the first space. *)
Fixpoint split_space_0 (s : string) : string :=
  match s with
  | EmptyString => EmptyString
  | String c s' =>
      if Ascii.eqb c " " then EmptyString else String c (split_space_0 s')
  end.

Definition isDigit (c : ascii) : bool :=
  let n := nat_of_ascii c in (48 <=? n)%nat && (n <=? 57)%nat.

(** [s.replace(/\D/g, '')] *)
Fixpoint replace_nondigits (s : string) : string :=
  match s with
  | EmptyString => EmptyString
  | String c s' =>
      if isDigit c then String c (replace_nondigits s')
      else replace_nondigits s'
  end.

Definition startsWith (p s : string) : bool := String.prefix p s.

(** [hay.includes(needle)] *)
Fixpoint includes (needle hay : string) : bool :=
  String.prefix needle hay ||
  match hay with
  | EmptyString => false
  | String _ hay' => includes needle hay'
  end.

(** The values a date parameter can hold here: a [Date] object (its
    time value is a number of milliseconds, or NaN for an invalid
    date), [null] or [undefined]. *)
Inductive Value :=
  | DateObject (timeValue : option Z)
  | Null
  | Undefined.

(** [new Date(value)]: a [Date] is copied, [null] converts to [+0],
    [undefined] to NaN. *)
Definition new_Date (v : Value) : option Z :=
  match v with
  | DateObject tv => tv
  | Null => Some 0%Z
  | Undefined => None
  end.

(** A column read through Prisma is a [Date] object or [null]. *)
Definition of_column (c : option Z) : Value :=
  match c with
  | Some t => DateObject (Some t)
  | None => Null
  end.

Definition decimal (n : Z) : string :=
  DecimalString.NilZero.string_of_uint (Nat.to_uint (Z.to_nat n)).

Definition two_digit (n : Z) : string :=
  if (n <? 10)%Z then "0" ++ decimal n else decimal n.

(** Calendar fields of a time value in a zone [tz] minutes east of UTC. *)
Definition local_ms (tz t : Z) : Z := (t + tz * 60000)%Z.
Definition day_number (tz t : Z) : Z := (local_ms tz t / 86400000)%Z.
Definition ms_of_day (tz t : Z) : Z := (local_ms tz t mod 86400000)%Z.
Definition getHours (tz t : Z) : Z := (ms_of_day tz t / 3600000)%Z.
Definition getMinutes (tz t : Z) : Z := ((ms_of_day tz t / 60000) mod 60)%Z.
(** 0 is Sunday; 1 January 1970 was a Thursday. *)
Definition getDay (tz t : Z) : Z := ((day_number tz t + 4) mod 7)%Z.

(** Month (1..12) and day of the month of a day number, proleptic
    Gregorian calendar. *)
Definition month_and_day (days : Z) : Z * Z :=
  let z := (days + 719468)%Z in
  let era := (z / 146097)%Z in
  let doe := (z - era * 146097)%Z in
  let yoe := ((doe - doe / 1460 + doe / 36524 - doe / 146096) / 365)%Z in
  let doy := (doe - (365 * yoe + yoe / 4 - yoe / 100))%Z in
  let mp := ((5 * doy + 2) / 153)%Z in
  let d := (doy - (153 * mp + 2) / 5 + 1)%Z in
  let m := if (mp <? 10)%Z then (mp + 3)%Z else (mp - 9)%Z in
  (m, d).

Definition weekday_long (d : Z) : string :=
  match d with
  | 0%Z => "domingo" | 1%Z => "segunda-feira" | 2%Z => "terça-feira"
  | 3%Z => "quarta-feira" | 4%Z => "quinta-feira" | 5%Z => "sexta-feira"
  | _ => "sábado"
  end.

Definition month_long (m : Z) : string :=
  match m with
  | 1%Z => "janeiro" | 2%Z => "fevereiro" | 3%Z => "março"
  | 4%Z => "abril" | 5%Z => "maio" | 6%Z => "junho" | 7%Z => "julho"
  | 8%Z => "agosto" | 9%Z => "setembro" | 10%Z => "outubro"
  | 11%Z => "novembro" | _ => "dezembro"
  end.

(** [date.toLocaleDateString('pt-BR', { weekday: 'long', day: 'numeric',
    month: 'long' })] in the host's zone.  A NaN time value gives the
    string "Invalid Date"; nothing is raised. *)
Definition toLocaleDateString (tz : Z) (date : option Z) : string :=
  match date with
  | None => "Invalid Date"
  | Some t =>
      let '(m, d) := month_and_day (day_number tz t) in
      weekday_long (getDay tz t) ++ ", " ++ decimal d ++ " de "
        ++ month_long m
  end.

(** [date.toLocaleTimeString('pt-BR', { hour: '2-digit',
    minute: '2-digit' })] in the host's zone. *)
Definition toLocaleTimeString (tz : Z) (date : option Z) : string :=
  match date with
  | None => "Invalid Date"
  | Some t => two_digit (getHours tz t) ++ ":" ++ two_digit (getMinutes tz t)
  end.

End JS.

(** ** backend/utils/whatsapp.js *)

Module whatsapp.

(** The process environment and the network as one call sees them:
    the API key, and what the [n]-th request to [/api/sendText]
    answers. *)
Inductive FetchOutcome :=
  | ResponseOk
  | ResponseNotOk (errorMsg : string)
  | FetchThrows (message : string).

Record Waha := {
  WAHA_API_KEY : string;
  fetch_sendText : nat → string → string → FetchOutcome;
}.

(** The host: its clock and its time zone (minutes east of UTC). *)
Record Host := {
  clock : Z;
  tz_minutes : Z;
}.

(** America/Sao_Paulo is UTC-3. *)
Definition getGreeting (h : Host) : string :=
  let hour := JS.getHours (-180) (clock h) in
  if (5 <=? hour)%Z && (hour <? 12)%Z then "Bom dia"
  else if (12 <=? hour)%Z && (hour <? 18)%Z then "Boa tarde"
  else "Boa noite".

Definition formatChatId (phone : string) : string :=
  let digits := JS.replace_nondigits phone in
  let digits :=
    if negb (JS.startsWith "55" digits) && (String.length digits <=? 11)%nat
    then "55" ++ digits else digits in
  digits ++ "@c.us".

Definition getFirstName (fullName : string) : string :=
  JS.split_space_0 fullName.

Record SendResult := {
  success : bool;
  send_error : option string;
}.

Definition sendWhatsAppMessage (waha : Waha) (phone message : string)
    : Prisma SendResult :=
  if String.eqb (WAHA_API_KEY waha) "" then
    ret {| success := false; send_error := Some "API key not configured" |}
  else
    let chatId := formatChatId phone in
    λ w,
      let w' := set_waha_requests (λ l, (l ++ [(chatId, message)])%list) w in
      match fetch_sendText waha (length (waha_requests w)) chatId message with
      | ResponseOk => (Ok {| success := true; send_error := None |}, w')
      | ResponseNotOk errorMsg =>
          (Ok {| success := false; send_error := Some errorMsg |}, w')
      | FetchThrows message =>
          (Ok {| success := false; send_error := Some message |}, w')
      end.

Module MessageTemplates.

Definition leadWelcome (h : Host) (nome : string) : string :=
  let greeting := getGreeting h in
  let firstName := getFirstName nome in
  "Ola " ++ firstName ++ ", " ++ JS.toLowerCase greeting
    ++ ", tudo bom? Vi que voce se cadastrou pra otimizacao, se tiver algum problema ou duvida pode me avisar".

Definition paymentAbandoned (h : Host) (nome : string) : string :=
  let greeting := getGreeting h in
  let firstName := getFirstName nome in
  "Ola " ++ firstName ++ ", " ++ JS.toLowerCase greeting
    ++ ", tudo bom? Vi que voce gerou um pagamento mas nao confirmou, se tiver tido algum problema ou tiver alguma duvida, so falar".

Definition paymentConfirmed (h : Host) (nome : string)
    (meetingDate meetingTime : JS.Value) : string :=
  let greeting := getGreeting h in
  let firstName := getFirstName nome in
  let dateObj := JS.new_Date meetingDate in
  let formattedDate := JS.toLocaleDateString (tz_minutes h) dateObj in
  let timeObj := JS.new_Date meetingTime in
  let formattedTime := JS.toLocaleTimeString (tz_minutes h) timeObj in
  "Ola " ++ firstName ++ ", " ++ JS.toLowerCase greeting
    ++ ", tudo bom? Vi que voce efetivou a compra da otimizacao, seu horario e as "
    ++ formattedTime
    ++ " e demoramos 4 horas pra fazer a otimizacao, caso queira remarcar, so me avisar, te espero no dia "
    ++ formattedDate ++ " as " ++ formattedTime
    ++ " pelo discord, forte abraco".

End MessageTemplates.

End whatsapp.

(** ** The queue processor (the second handler of
       backend/pages/api/cron/check-expired-pix.js) *)

(** [orderBy: { key: 'asc' }] and [orderBy: { key: 'desc' }] on rows. *)
Definition asc {A} (key : A → Z) : relation (nat * A) :=
  λ a b, (key a.2 ≤ key b.2)%Z.
Definition desc {A} (key : A → Z) : relation (nat * A) :=
  λ a b, (key b.2 ≤ key a.2)%Z.

#[global] Instance asc_dec {A} (key : A → Z) : RelDecision (asc key).
Proof. intros a b. unfold asc. apply _. Defined.
#[global] Instance desc_dec {A} (key : A → Z) : RelDecision (desc key).
Proof. intros a b. unfold desc. apply _. Defined.

Definition orderBy_asc {A} (key : A → Z) (l : list (nat * A))
    : list (nat * A) := merge_sort (asc key) l.
Definition orderBy_desc {A} (key : A → Z) (l : list (nat * A))
    : list (nat * A) := merge_sort (desc key) l.

Module processWhatsappQueue.
Import whatsapp.

Record Results := {
  processed : nat;
  sent : nat;
  failed : nat;
  cancelled : nat;
}.

Definition incr_processed (r : Results) : Results :=
  {| processed := S (processed r); sent := sent r; failed := failed r;
     cancelled := cancelled r |}.
Definition incr_sent (r : Results) : Results :=
  {| processed := processed r; sent := S (sent r); failed := failed r;
     cancelled := cancelled r |}.
Definition incr_failed (r : Results) : Results :=
  {| processed := processed r; sent := sent r; failed := S (failed r);
     cancelled := cancelled r |}.
Definition incr_cancelled (r : Results) : Results :=
  {| processed := processed r; sent := sent r; failed := failed r;
     cancelled := S (cancelled r) |}.

(** What [include: { lead: { include: { transactions, meetings } } }]
    attaches to a message: the lead with its latest transaction and its
    latest meeting ([orderBy created_at desc, take 1]). *)
Record IncludedLead := {
  il_nome : string;
  il_transactions : list (nat * Transaction);
  il_meetings : list (nat * Meeting);
}.

Record PendingMessage := {
  msg_id : nat;
  msg_row : WhatsAppMessage;
  msg_lead : option IncludedLead;
}.

Definition include_lead (w : World) (leadId : nat) : option IncludedLead :=
  match leads w !! leadId with
  | None => None
  | Some l =>
      Some {| il_nome := lr_nome l;
              il_transactions :=
                take 1 (orderBy_desc tx_created_at
                  (Table.findMany (λ r, tx_lead_id r.2 = leadId)
                     (transactions w)));
              il_meetings :=
                take 1 (orderBy_desc mt_created_at
                  (Table.findMany (λ r, mt_lead_id r.2 = leadId)
                     (meetings w))) |}
  end.

(** The [findMany] at the head of the handler: what it returns on [w]. *)
Definition pendingMessages (now : Z) (w : World) : list PendingMessage :=
  (λ r, {| msg_id := r.1; msg_row := r.2;
           msg_lead := include_lead w (lead_id r.2) |})
  <$> take 20 (orderBy_asc send_after
        (Table.findMany
           (λ r, status r.2 = PENDING ∧ (send_after r.2 ≤ now)%Z)
           (whatsAppMessages w))).

Definition findPendingMessages (now : Z) : Prisma (list PendingMessage) :=
  λ w, (Ok (pendingMessages now w), w).

Definition null_lead : string :=
  "Cannot read properties of null (reading 'transactions')".

Definition shouldCancelMessage (msg : PendingMessage)
    : Prisma (option string) :=
  match msg_lead msg with
  | None => throw null_lead
  | Some lead =>
      let type := message_type (msg_row msg) in
      let latestTransaction := head (il_transactions lead) in
      let hasPaymentAttempt := bool_decide (is_Some latestTransaction) in
      let paymentSucceeded :=
        bool_decide ((tx_status ∘ snd) <$> latestTransaction = Some succeeded) in
      let switch :=
        match type with
        | LEAD_WELCOME =>
            if hasPaymentAttempt then Some "payment_attempted"
            else if paymentSucceeded then Some "payment_succeeded"
            else None
        | PAYMENT_ABANDONED =>
            if paymentSucceeded then Some "payment_succeeded" else None
        | PAYMENT_CONFIRMED => None
        end in
      match switch with
      | Some reason => ret (Some reason)
      | None =>
          await existingSent ← prisma.whatsAppMessage.findFirst
            (λ r, lead_id r.2 = lead_id (msg_row msg)
                  ∧ message_type r.2 = type
                  ∧ status r.2 = SENT ∧ r.1 ≠ msg_id msg);
          match existingSent with
          | Some _ => ret (Some "already_sent")
          | None => ret None
          end
      end
  end.

Definition generateMessageText (h : Host) (msg : PendingMessage)
    : Prisma (option string) :=
  match msg_lead msg with
  | None => throw null_lead
  | Some lead =>
      let meeting := head (il_meetings lead) in
      match message_type (msg_row msg) with
      | LEAD_WELCOME => ret (Some (MessageTemplates.leadWelcome h (il_nome lead)))
      | PAYMENT_ABANDONED =>
          ret (Some (MessageTemplates.paymentAbandoned h (il_nome lead)))
      | PAYMENT_CONFIRMED =>
          match meeting with
          | None => ret None
          | Some m =>
              ret (Some (MessageTemplates.paymentConfirmed h (il_nome lead)
                           (JS.of_column (meeting_date m.2))
                           (JS.of_column (meeting_time m.2))))
          end
      end
  end.

(** The [data] of the handler's updates. *)
Definition data_cancelled (now : Z) (m : WhatsAppMessage) : WhatsAppMessage :=
  {| lead_id := lead_id m; phone := phone m; message_type := message_type m;
     status := CANCELLED; send_after := send_after m;
     message_text := message_text m; sent_at := sent_at m;
     error := error m; updated_at := Some now |}.

Definition data_failed (e : option string) (now : Z) (m : WhatsAppMessage)
    : WhatsAppMessage :=
  {| lead_id := lead_id m; phone := phone m; message_type := message_type m;
     status := FAILED; send_after := send_after m;
     message_text := message_text m; sent_at := sent_at m;
     error := match e with Some _ => e | None => error m end;
     updated_at := Some now |}.

Definition data_sent (messageText : string) (now : Z) (m : WhatsAppMessage)
    : WhatsAppMessage :=
  {| lead_id := lead_id m; phone := phone m; message_type := message_type m;
     status := SENT; send_after := send_after m;
     message_text := Some messageText; sent_at := Some now;
     error := error m; updated_at := Some now |}.

(** A run of the handler: the clock reading [now] it starts with (the
    clock is not advanced during the run), the host and the WAHA side. *)
Record Env := {
  now : Z;
  host_tz_minutes : Z;
  waha : Waha;
}.

Definition host (env : Env) : Host :=
  {| clock := now env; tz_minutes := host_tz_minutes env |}.

(** The body of [for (const msg of pendingMessages)], after
    [results.processed++]: the [try] block and its [catch]. *)
Definition processMessage (env : Env) (msg : PendingMessage)
    (results : Results) : Prisma Results :=
  try_catch
    (await shouldCancel ← shouldCancelMessage msg;
     match shouldCancel with
     | Some _ =>
         await _ ← prisma.whatsAppMessage.update (msg_id msg)
           (data_cancelled (now env));
         ret (incr_cancelled results)
     | None =>
         await messageText ← generateMessageText (host env) msg;
         match messageText with
         | None | Some EmptyString =>
             await _ ← prisma.whatsAppMessage.update (msg_id msg)
               (data_failed (Some "Could not generate message text") (now env));
             ret (incr_failed results)
         | Some messageText =>
             await result ← sendWhatsAppMessage (waha env)
               (phone (msg_row msg)) messageText;
             if success result then
               await _ ← prisma.whatsAppMessage.update (msg_id msg)
                 (data_sent messageText (now env));
               ret (incr_sent results)
             else
               await _ ← prisma.whatsAppMessage.update (msg_id msg)
                 (data_failed (send_error result) (now env));
               ret (incr_failed results)
         end
     end)
    (λ error_message,
       await _ ← prisma.whatsAppMessage.update (msg_id msg)
         (data_failed (Some error_message) (now env));
       ret (incr_failed results)).

Fixpoint for_of (env : Env) (pendingMessages : list PendingMessage)
    (results : Results) : Prisma Results :=
  match pendingMessages with
  | [] => ret results
  | msg :: rest =>
      let results := incr_processed results in
      await results ← processMessage env msg results;
      for_of env rest results
  end.

Inductive Response :=
  | Status200 (results : Results)
  | Status500 (error : string).

(** The handler for an authorised GET or POST request. *)
Definition handler (env : Env) (w : World) : Response * World :=
  let run :=
    await pendingMessages ← findPendingMessages (now env);
    for_of env pendingMessages
      {| processed := 0; sent := 0; failed := 0; cancelled := 0 |} in
  match run w with
  | (Ok results, w') => (Status200 results, w')
  | (Thrown e, w') => (Status500 e, w')
  end.

End processWhatsappQueue.

(** ** The expiry sweeper (the first handler of
       backend/pages/api/cron/check-expired-pix.js) *)

Definition with_tx_status (st : TransactionStatus) (t : Transaction)
    : Transaction :=
  {| tx_lead_id := tx_lead_id t; tx_affiliate_id := tx_affiliate_id t;
     payment_method := payment_method t; tx_status := st;
     stripe_payment_intent := stripe_payment_intent t;
     scheduled_date := scheduled_date t; scheduled_time := scheduled_time t;
     tx_created_at := tx_created_at t |}.

Module checkExpiredPix.

Record Results := {
  checked : nat;
  expired : nat;
  queued : nat;
  errors : nat;
}.

Definition incr_checked (r : Results) : Results :=
  {| checked := S (checked r); expired := expired r; queued := queued r;
     errors := errors r |}.
Definition incr_expired (r : Results) : Results :=
  {| checked := checked r; expired := S (expired r); queued := queued r;
     errors := errors r |}.
Definition incr_queued (r : Results) : Results :=
  {| checked := checked r; expired := expired r; queued := S (queued r);
     errors := errors r |}.
Definition incr_errors (r : Results) : Results :=
  {| checked := checked r; expired := expired r; queued := queued r;
     errors := S (errors r) |}.

(** A transaction with [include: { lead: true }]. *)
Record PixTransaction := {
  pix_id : nat;
  pix_row : Transaction;
  pix_lead : option Lead;
}.

Definition include_lead (w : World) (leadId : nat) : option Lead :=
  match leads w !! leadId with
  | None => None
  | Some l => Some {| id := leadId; nome := lr_nome l;
                      whatsapp := lr_whatsapp l |}
  end.

(** The [where] of the handler's [findMany]: a PIX charge generated at
    least 16 minutes before [now] and still not paid. *)
Definition is_pending_pix (now : Z) (r : nat * Transaction) : Prop :=
  payment_method r.2 = pix
  ∧ tx_status r.2 ∈ [processing; requires_payment_method]
  ∧ (tx_created_at r.2 ≤ now - 16 * 60 * 1000)%Z.

#[global] Instance is_pending_pix_dec now r : Decision (is_pending_pix now r).
Proof. unfold is_pending_pix. apply _. Defined.
#[global] Typeclasses Opaque is_pending_pix.

(** The [findMany] at the head of the handler: what it returns on [w]. *)
Definition pendingPixTransactions (now : Z) (w : World)
    : list PixTransaction :=
  (λ r, {| pix_id := r.1; pix_row := r.2;
           pix_lead := include_lead w (tx_lead_id r.2) |})
  <$> take 50 (Table.findMany (is_pending_pix now) (transactions w)).

Definition findPendingPixTransactions (now : Z)
    : Prisma (list PixTransaction) :=
  λ w, (Ok (pendingPixTransactions now w), w).

Definition null_lead : string :=
  "Cannot destructure property 'id' of 'lead' as it is null.".

(** The body of [for (const transaction of pendingPixTransactions)],
    after [results.checked++].  [Math.floor(ms / 1000 / 60)] is the
    integer quotient.  [now] is the clock reading the handler took when
    it started; [queuePaymentAbandonedMessage] reads the clock again
    ([send_after: new Date()]), and [clock i] is what it reads when it
    is called for transaction [i]. *)
Definition checkTransaction (now : Z) (clock : nat → Z)
    (transaction : PixTransaction) (results : Results) : Prisma Results :=
  try_catch
    (let minutesSinceCreation :=
       ((now - tx_created_at (pix_row transaction)) / 1000 / 60)%Z in
     if (16 <=? minutesSinceCreation)%Z then
       await _ ← prisma.transaction.update (pix_id transaction)
         (with_tx_status canceled);
       let results := incr_expired results in
       try_catch
         (await _ ←
            match pix_lead transaction with
            | Some lead =>
                messageQueue.queuePaymentAbandonedMessage
                  (clock (pix_id transaction)) lead
            | None => throw null_lead
            end;
          ret (incr_queued results))
         (λ _, ret (incr_errors results))
     else ret results)
    (λ _, ret (incr_errors results)).

Fixpoint for_of (now : Z) (clock : nat → Z)
    (pendingPixTransactions : list PixTransaction)
    (results : Results) : Prisma Results :=
  match pendingPixTransactions with
  | [] => ret results
  | transaction :: rest =>
      let results := incr_checked results in
      await results ← checkTransaction now clock transaction results;
      for_of now clock rest results
  end.

Inductive Response :=
  | Status200 (results : Results)
  | Status500 (error : string).

(** The handler for an authorised GET or POST request; [now] is the
    clock reading it starts with, [clock] the later readings of the
    queue function. *)
Definition handler (now : Z) (clock : nat → Z) (w : World)
    : Response * World :=
  let run :=
    await pendingPixTransactions ← findPendingPixTransactions now;
    for_of now clock pendingPixTransactions
      {| checked := 0; expired := 0; queued := 0; errors := 0 |} in
  match run w with
  | (Ok results, w') => (Status200 results, w')
  | (Thrown e, w') => (Status500 e, w')
  end.

End checkExpiredPix.

(** ** The payment webhooks *)

Definition with_stage (stage : string) (l : LeadRow) : LeadRow :=
  {| lr_nome := lr_nome l; lr_whatsapp := lr_whatsapp l; lr_stage := stage |}.

Inductive OpenPixEvent :=
  | CHARGE_COMPLETED
  | CHARGE_EXPIRED
  | CHARGE_CREATED
  | OtherEvent.

(** [if (!existingMeeting) await prisma.meeting.create(...)], shared by
    both handlers; [created_at] takes the clock reading [now]. *)
Definition createMeetingIfMissing (now : Z) (transaction : nat * Transaction)
    : Prisma unit :=
  await existingMeeting ← prisma.meeting.findUnique
    (λ r, transaction_id r.2 = transaction.1);
  match existingMeeting with
  | Some _ => ret tt
  | None =>
      await _ ← prisma.meeting.create
        {| transaction_id := transaction.1;
           mt_lead_id := tx_lead_id transaction.2;
           mt_affiliate_id := tx_affiliate_id transaction.2;
           meeting_date := scheduled_date transaction.2;
           meeting_time := scheduled_time transaction.2;
           mt_status := "scheduled";
           mt_created_at := now |};
      ret tt
  end.

(** backend/pages/api/checkout/webhook.js *)
Module checkoutWebhook.

Definition handleChargeCompleted (now : Z) (transaction : nat * Transaction)
    : Prisma unit :=
  await _ ← prisma.transaction.update transaction.1
    (with_tx_status succeeded);
  await _ ← createMeetingIfMissing now transaction;
  await _ ← prisma.lead.update (tx_lead_id transaction.2)
    (with_stage "COMPRADO");
  ret tt.

Definition handleChargeExpired (transaction : nat * Transaction)
    : Prisma unit :=
  await _ ← prisma.transaction.update transaction.1
    (with_tx_status canceled);
  ret tt.

(** [handleOpenPixWebhook] for a payload with a valid signature whose
    [charge.correlationID] is [transactionId]: the HTTP status. *)
Definition handleOpenPixWebhook (now : Z) (event : OpenPixEvent)
    (transactionId : nat) (w : World) : nat * World :=
  match transactions w !! transactionId with
  | None => (200, w)
  | Some t =>
      let transaction := (transactionId, t) in
      let run :=
        match event with
        | CHARGE_COMPLETED => handleChargeCompleted now transaction
        | CHARGE_EXPIRED => handleChargeExpired transaction
        | CHARGE_CREATED | OtherEvent => ret tt
        end in
      match run w with
      | (Ok _, w') => (200, w')
      | (Thrown _, w') => (500, w')
      end
  end.

(** The Stripe side of the same file. *)
Inductive StripeEvent :=
  | payment_intent_created
  | payment_intent_processing
  | payment_intent_succeeded
  | payment_intent_payment_failed
  | payment_intent_canceled
  | payment_intent_requires_action
  | other_event.

(** [event.data.object], as far as the handlers read it. *)
Record PaymentIntent := {
  pi_id : string;
  payment_method_types : list string;
}.

Definition updateTransactionStatus (paymentIntentId : string)
    (st : TransactionStatus) : Prisma unit :=
  try_catch
    (await _ ← prisma.transaction.updateMany
       (λ t, stripe_payment_intent t = Some paymentIntentId)
       (with_tx_status st);
     ret tt)
    (λ _, ret tt).

Definition handlePaymentIntentSucceeded (now : Z)
    (paymentIntent : PaymentIntent) : Prisma unit :=
  await transaction ← prisma.transaction.findFirst
    (λ r, stripe_payment_intent r.2 = Some (pi_id paymentIntent));
  match transaction with
  | None => ret tt
  | Some transaction =>
      await _ ← prisma.transaction.update transaction.1
        (λ t, {| tx_lead_id := tx_lead_id t;
                 tx_affiliate_id := tx_affiliate_id t;
                 payment_method :=
                   match head (payment_method_types paymentIntent) with
                   | Some "pix" => pix
                   | _ => card
                   end;
                 tx_status := succeeded;
                 stripe_payment_intent := stripe_payment_intent t;
                 scheduled_date := scheduled_date t;
                 scheduled_time := scheduled_time t;
                 tx_created_at := tx_created_at t |});
      await _ ← createMeetingIfMissing now transaction;
      await _ ← prisma.lead.update (tx_lead_id transaction.2)
        (with_stage "COMPRADO");
      ret tt
  end.

(** [handleStripeWebhook] for an event whose signature verifies: the HTTP
    status. *)
Definition handleStripeWebhook (now : Z) (event : StripeEvent)
    (paymentIntent : PaymentIntent) (w : World) : nat * World :=
  let run :=
    match event with
    | payment_intent_created =>
        updateTransactionStatus (pi_id paymentIntent) requires_payment_method
    | payment_intent_processing =>
        updateTransactionStatus (pi_id paymentIntent) processing
    | payment_intent_succeeded =>
        handlePaymentIntentSucceeded now paymentIntent
    | payment_intent_payment_failed =>
        updateTransactionStatus (pi_id paymentIntent) requires_payment_method
    | payment_intent_canceled =>
        updateTransactionStatus (pi_id paymentIntent) canceled
    | payment_intent_requires_action =>
        updateTransactionStatus (pi_id paymentIntent) requires_action
    | other_event => ret tt
    end in
  match run w with
  | (Ok _, w') => (200, w')
  | (Thrown _, w') => (500, w')
  end.

End checkoutWebhook.

(** The OpenPix webhook that checks the charge with the OpenPix API
    ([verifyChargeCompleted]) before it handles CHARGE_COMPLETED. *)
Module openpixWebhook.

(** [sendPaymentNotification]: a Discord notification about the
    transaction. *)
Definition sendPaymentNotification (transactionId : nat) : Prisma unit :=
  λ w, (Ok tt,
        set_discord_notifications (λ l, (l ++ [transactionId])%list) w).

Definition handleChargeCompleted (now : Z) (transaction : nat * Transaction)
    : Prisma unit :=
  let alreadySucceeded := bool_decide (tx_status transaction.2 = succeeded) in
  await _ ← prisma.transaction.update transaction.1
    (λ t, {| tx_lead_id := tx_lead_id t;
             tx_affiliate_id := tx_affiliate_id t;
             payment_method := pix; tx_status := succeeded;
             stripe_payment_intent := stripe_payment_intent t;
             scheduled_date := scheduled_date t;
             scheduled_time := scheduled_time t;
             tx_created_at := tx_created_at t |});
  await _ ← createMeetingIfMissing now transaction;
  await _ ← prisma.lead.update (tx_lead_id transaction.2)
    (with_stage "COMPRADO");
  if alreadySucceeded then ret tt
  else try_catch (sendPaymentNotification transaction.1) (λ _, ret tt).

Definition handleChargeExpired (transaction : nat * Transaction)
    : Prisma unit :=
  await _ ← prisma.transaction.update transaction.1
    (with_tx_status canceled);
  ret tt.

(** [handler] for a POST of a real (not test) payload with a valid
    signature whose [charge.correlationID] is [transactionId];
    [verified] is the answer of [verifyChargeCompleted], which asks the
    OpenPix API.  Every path answers 200. *)
Definition handler (now : Z) (verified : bool) (event : OpenPixEvent)
    (transactionId : nat) (w : World) : nat * World :=
  match transactions w !! transactionId with
  | None => (200, w)
  | Some t =>
      let transaction := (transactionId, t) in
      let run :=
        match event with
        | CHARGE_COMPLETED =>
            if verified then handleChargeCompleted now transaction
            else ret tt
        | CHARGE_EXPIRED => handleChargeExpired transaction
        | CHARGE_CREATED | OtherEvent => ret tt
        end in
      (200, (run w).2)
  end.

End openpixWebhook.

(** ** Properties of the queue, as predicates on the world *)

Local Open Scope list_scope.
Local Open Scope nat_scope.

(** A message counts against duplicates while it is PENDING or SENT. *)
Definition active (m : WhatsAppMessage) : Prop := status m ∈ [PENDING; SENT].

Definition active_for (leadId : nat) (type : MessageType)
    (m : WhatsAppMessage) : Prop :=
  lead_id m = leadId ∧ message_type m = type ∧ active m.

#[global] Instance active_for_dec leadId type m :
  Decision (active_for leadId type m).
Proof. unfold active_for, active. apply _. Defined.
#[global] Typeclasses Opaque active_for.

(** I1 / P1: at most one PENDING-or-SENT row for each lead and type. *)
Definition I1 (w : World) : Prop :=
  ∀ leadId type,
    length (filter (active_for leadId type) (whatsAppMessages w)) ≤ 1.

Definition has_active (leadId : nat) (type : MessageType) (w : World) : Prop :=
  ∃ i m, whatsAppMessages w !! i = Some m ∧ active_for leadId type m.

Definition has_succeeded_transaction (leadId : nat) (w : World) : Prop :=
  ∃ i t, transactions w !! i = Some t
         ∧ tx_lead_id t = leadId ∧ tx_status t = succeeded.

(** The row a queue function creates. *)
Definition new_message (lead : Lead) (type : MessageType) (sendAfter : Z)
    : WhatsAppMessage :=
  {| lead_id := id lead; phone := whatsapp lead; message_type := type;
     status := PENDING; send_after := sendAfter;
     message_text := None; sent_at := None; error := None;
     updated_at := None |}.

(** The table after [cancelPending...Message(leadId)]. *)
Definition cancel_pending (leadId : nat) (type : MessageType)
    (tbl : list WhatsAppMessage) : list WhatsAppMessage :=
  (λ m, if decide (lead_id m = leadId ∧ message_type m = type
                   ∧ status m = PENDING)
        then with_status CANCELLED m else m) <$> tbl.

(** ** The operations on the world *)

(** Modelled from the spec: the route handlers that register a lead and
    create a checkout are not among the sources.  The specification
    (section 3, lifecycle of QueuedMessage) has message rows created and
    mutated by the queue writer and the queue processor only, so this
    code is any rewrite of the leads, the transactions and the meetings
    that leaves the messages alone.  Its calls to the queue writer are
    operations of their own. *)
Definition collaborator (ls : list LeadRow) (ts : list Transaction)
    (ms : list Meeting) (w : World) : World :=
  set_leads (λ _, ls) (set_transactions (λ _, ts) (set_meetings (λ _, ms) w)).

(** Every entry point that writes to the database. *)
Inductive Operation :=
  | CancelPendingWelcomeMessage (leadId : nat)
  | CancelPendingAbandonedMessage (leadId : nat)
  | QueueLeadWelcomeMessage (now : Z) (lead : Lead)
  | QueuePaymentAbandonedMessage (now : Z) (lead : Lead)
  | QueuePaymentConfirmedMessage (now : Z) (lead : Lead)
  | ProcessWhatsappQueue (env : processWhatsappQueue.Env)
  | CheckExpiredPix (now : Z) (clock : nat → Z)
  | OpenpixWebhook (now : Z) (verified : bool) (event : OpenPixEvent)
      (transactionId : nat)
  | CheckoutWebhook (now : Z) (event : OpenPixEvent) (transactionId : nat)
  | StripeWebhook (now : Z) (event : checkoutWebhook.StripeEvent)
      (paymentIntent : checkoutWebhook.PaymentIntent)
  | Collaborator (ls : list LeadRow) (ts : list Transaction)
      (ms : list Meeting).

Definition run (op : Operation) (w : World) : World :=
  match op with
  | CancelPendingWelcomeMessage leadId =>
      (messageQueue.cancelPendingWelcomeMessage leadId w).2
  | CancelPendingAbandonedMessage leadId =>
      (messageQueue.cancelPendingAbandonedMessage leadId w).2
  | QueueLeadWelcomeMessage now lead =>
      (messageQueue.queueLeadWelcomeMessage now lead w).2
  | QueuePaymentAbandonedMessage now lead =>
      (messageQueue.queuePaymentAbandonedMessage now lead w).2
  | QueuePaymentConfirmedMessage now lead =>
      (messageQueue.queuePaymentConfirmedMessage now lead w).2
  | ProcessWhatsappQueue env => (processWhatsappQueue.handler env w).2
  | CheckExpiredPix now clock => (checkExpiredPix.handler now clock w).2
  | OpenpixWebhook now verified event transactionId =>
      (openpixWebhook.handler now verified event transactionId w).2
  | CheckoutWebhook now event transactionId =>
      (checkoutWebhook.handleOpenPixWebhook now event transactionId w).2
  | StripeWebhook now event paymentIntent =>
      (checkoutWebhook.handleStripeWebhook now event paymentIntent w).2
  | Collaborator ls ts ms => collaborator ls ts ms w
  end.

(** The worlds the system can be in: any sequence of operations, each run
    to completion, from the empty database. *)
Inductive reachable : World → Prop :=
  | reachable_empty : reachable empty_world
  | reachable_run op w : reachable w → reachable (run op w).

(** No message that has left PENDING is altered between [w] and [w']. *)
Definition keeps_terminal (w w' : World) : Prop :=
  ∀ i m, whatsAppMessages w !! i = Some m → status m ≠ PENDING →
         whatsAppMessages w' !! i = Some m.

(** The three [data] objects the processor writes. *)
Definition is_outcome (now : Z) (data : WhatsAppMessage → WhatsAppMessage)
    : Prop :=
  data = processWhatsappQueue.data_cancelled now
  ∨ (∃ e, data = processWhatsappQueue.data_failed e now)
  ∨ (∃ text, data = processWhatsappQueue.data_sent text now).

(** [w'] is [w] with the message of id [i] rewritten by one of the
    processor's updates and with requests added to the WAHA log. *)
Definition message_step (now : Z) (i : nat) (w w' : World) : Prop :=
  ∃ data reqs,
    is_outcome now data
    ∧ w' = set_whatsAppMessages (alter data i)
             (set_waha_requests (λ l, l ++ reqs) w).

(** The tables other than the messages. *)
Definition same_tables (w w' : World) : Prop :=
  leads w' = leads w ∧ transactions w' = transactions w
  ∧ meetings w' = meetings w.

(** The transactions table after the sweeper's loop has cancelled a batch. *)
Definition cancel_all (batch : list checkExpiredPix.PixTransaction)
    (tbl : list Transaction) : list Transaction :=
  foldl (λ tbl p, alter (with_tx_status canceled) (checkExpiredPix.pix_id p) tbl)
    tbl batch.

(** ** Example worlds *)

Module Examples.
Import whatsapp processWhatsappQueue.

(** 2026-01-10T19:00:00Z, 16:00 in São Paulo. *)
Definition T0 : Z := 1768071600000.

Definition ana : Lead :=
  {| id := 0; nome := "Ana Silva"; whatsapp := "11961060909" |}.

Definition ana_row : LeadRow :=
  {| lr_nome := "Ana Silva"; lr_whatsapp := "11961060909";
     lr_stage := "NOVO" |}.

(** A PIX charge of lead [leadId], for a meeting on 10 January at 19:00. *)
Definition pix_charge (leadId : nat) (st : TransactionStatus) (created : Z)
    : Transaction :=
  {| tx_lead_id := leadId; tx_affiliate_id := None; payment_method := pix;
     tx_status := st; stripe_payment_intent := None;
     scheduled_date := Some 1768003200000%Z;
     scheduled_time := Some 68400000%Z; tx_created_at := created |}.

(** WAHA configured and answering 200 to every request. *)
Definition online : Waha :=
  {| WAHA_API_KEY := "key"; fetch_sendText := λ _ _ _, ResponseOk |}.

Definition cron (t : Z) : Env :=
  {| now := t; host_tz_minutes := 0; waha := online |}.

(** The clock as the queue function reads it during a run of the
    sweeper that started at [t]: one second later. *)
Definition soon_after (t : Z) : nat → Z := λ _, (t + 1000)%Z.

Definition run_all (ops : list Operation) : World :=
  foldl (λ w op, run op w) empty_world ops.

(** Ana registers at [T0]; 30 s later a PIX charge exists for her. *)
Definition charge_created : World :=
  run_all [Collaborator [ana_row] [] [];
           QueueLeadWelcomeMessage T0 ana;
           Collaborator [ana_row] [pix_charge 0 processing (T0 + 30000)] []].

(** ... and the abandoned-payment message has been queued for it. *)
Definition checkout_started : World :=
  run (QueuePaymentAbandonedMessage (T0 + 30000) ana) charge_created.

(** ... and OpenPix has then confirmed the payment. *)
Definition paid : World :=
  run (OpenpixWebhook (T0 + 40000) true CHARGE_COMPLETED 0) checkout_started.

(** Ana registers at [T0]; 30 s later a card payment is started for her
    through Stripe. *)
Definition card_payment_started : World :=
  run_all [Collaborator [ana_row] [] [];
           QueueLeadWelcomeMessage T0 ana;
           Collaborator [ana_row]
             [{| tx_lead_id := 0; tx_affiliate_id := None;
                 payment_method := card;
                 tx_status := requires_payment_method;
                 stripe_payment_intent := Some "pi_1";
                 scheduled_date := Some 1768003200000%Z;
                 scheduled_time := Some 68400000%Z;
                 tx_created_at := T0 + 30000 |}] []].

(** Two charges, 10 s apart; the abandoned message is queued, then the
    older charge is paid. *)
Definition older_charge_paid : World :=
  run_all [Collaborator [ana_row]
             [pix_charge 0 processing T0;
              pix_charge 0 processing (T0 + 10000)] [];
           QueuePaymentAbandonedMessage (T0 + 10000) ana;
           OpenpixWebhook (T0 + 20000) true CHARGE_COMPLETED 0].

(** Ana has registered and nothing else has happened. *)
Definition registered : World :=
  run_all [Collaborator [ana_row] [] []; QueueLeadWelcomeMessage T0 ana].

(** A lead with a paid charge and no message yet. *)
Definition paid_before_welcome : World :=
  run_all [Collaborator [ana_row] [pix_charge 0 succeeded T0] []].

(** One unpaid PIX charge. *)
Definition one_unpaid : World :=
  run_all [Collaborator [ana_row] [pix_charge 0 processing T0] []].

(** 51 leads, each with an unpaid PIX charge created at [T0]. *)
Definition fifty_one_unpaid : World :=
  run_all [Collaborator (replicate 51 ana_row)
             ((λ i, pix_charge i processing T0) <$> seq 0 51) []].

Definition no_results : checkExpiredPix.Results :=
  {| checkExpiredPix.checked := 0; checkExpiredPix.expired := 0;
     checkExpiredPix.queued := 0; checkExpiredPix.errors := 0 |}.

Definition zero : Results :=
  {| processed := 0; sent := 0; failed := 0; cancelled := 0 |}.
End Examples.

(** ** How the processor treats one message *)

(** The four ways [processMessage] ends for a message whose row exists:
    the counters after it and the world after it. *)
Inductive processed_as (env : processWhatsappQueue.Env)
    (msg : processWhatsappQueue.PendingMessage)
    (results : processWhatsappQueue.Results) (w : World)
    : processWhatsappQueue.Results → World → Prop :=
  | as_cancelled :
      processed_as env msg results w
        (processWhatsappQueue.incr_cancelled results)
        (set_whatsAppMessages
           (alter (processWhatsappQueue.data_cancelled
                     (processWhatsappQueue.now env))
              (processWhatsappQueue.msg_id msg)) w)
  | as_failed e :
      processed_as env msg results w
        (processWhatsappQueue.incr_failed results)
        (set_whatsAppMessages
           (alter (processWhatsappQueue.data_failed e
                     (processWhatsappQueue.now env))
              (processWhatsappQueue.msg_id msg)) w)
  | as_refused e text :
      whatsapp.WAHA_API_KEY (processWhatsappQueue.waha env) ≠ ""%string →
      processed_as env msg results w
        (processWhatsappQueue.incr_failed results)
        (set_whatsAppMessages
           (alter (processWhatsappQueue.data_failed e
                     (processWhatsappQueue.now env))
              (processWhatsappQueue.msg_id msg))
           (set_waha_requests
              (λ l, l ++ [(whatsapp.formatChatId
                             (phone (processWhatsappQueue.msg_row msg)),
                           text)]) w))
  | as_sent text :
      whatsapp.WAHA_API_KEY (processWhatsappQueue.waha env) ≠ ""%string →
      processed_as env msg results w
        (processWhatsappQueue.incr_sent results)
        (set_whatsAppMessages
           (alter (processWhatsappQueue.data_sent text
                     (processWhatsappQueue.now env))
              (processWhatsappQueue.msg_id msg))
           (set_waha_requests
              (λ l, l ++ [(whatsapp.formatChatId
                             (phone (processWhatsappQueue.msg_row msg)),
                           text)]) w)).

(** A message the processor may pick up at [now]. *)
Definition due (now : Z) (m : WhatsAppMessage) : Prop :=
  status m = PENDING ∧ (send_after m ≤ now)%Z.

#[global] Instance due_dec now m : Decision (due now m).
Proof. unfold due. apply _. Defined.
#[global] Typeclasses Opaque due.


(** ** Further example worlds *)

Module Scenarios.
Import whatsapp processWhatsappQueue Examples.

(** WAHA without an API key in the environment. *)
Definition unconfigured : Waha :=
  {| WAHA_API_KEY := ""; fetch_sendText := λ _ _ _, ResponseOk |}.

Definition cron_without_key (t : Z) : Env :=
  {| now := t; host_tz_minutes := 0; waha := unconfigured |}.








End Scenarios.

(** What [cancelPendingWelcomeMessage] and [cancelPendingAbandonedMessage]
    have in common, for the message type each one is about. *)
Definition cancels_pending (type : MessageType) (cancel : nat → Prisma nat)
    : Prop :=
  ∀ leadId w, ∃ count w',
    cancel leadId w = (Ok count, w')
    ∧ same_tables w w'
    ∧ length (whatsAppMessages w') = length (whatsAppMessages w)
    ∧ (∀ i m, whatsAppMessages w !! i = Some m →
         whatsAppMessages w' !! i =
           Some (if decide (lead_id m = leadId ∧ message_type m = type
                            ∧ status m = PENDING)
                 then with_status CANCELLED m else m))
    ∧ count = length (filter (λ m, lead_id m = leadId ∧ message_type m = type
                                   ∧ status m = PENDING)
                        (whatsAppMessages w))
    ∧ cancel leadId w' = (Ok 0, w').

(** A row of [w] is still in [w'], with the lead, the type, the phone
    and the schedule it had. *)
Definition keeps_rows (w w' : World) : Prop :=
  ∀ i m, whatsAppMessages w !! i = Some m →
    ∃ m', whatsAppMessages w' !! i = Some m'
          ∧ lead_id m' = lead_id m ∧ message_type m' = message_type m
          ∧ phone m' = phone m ∧ send_after m' = send_after m.

(** The world after the sweeper has cancelled transaction [i]. *)
Definition cancel_transaction (i : nat) (w : World) : World :=
  set_transactions (λ _, alter (with_tx_status canceled) i (transactions w)) w.

(** The selected charges whose lead row exists. *)
Definition with_lead (batch : list checkExpiredPix.PixTransaction)
    : list checkExpiredPix.PixTransaction :=
  filter (λ p, is_Some (checkExpiredPix.pix_lead p)) batch.

(** ** The payment webhooks, delivered again *)

Definition has_meeting (transactionId : nat) (w : World) : Prop :=
  ∃ k m, meetings w !! k = Some m ∧ transaction_id m = transactionId.

(** The three statements that the success handlers of both webhook
    files share, with what follows them: [data] is the [data] of the
    transaction update. *)
Definition confirm (data : Transaction → Transaction) (now : Z)
    (transaction : nat * Transaction) (k : Prisma unit) : Prisma unit :=
  await _ ← prisma.transaction.update transaction.1 data;
  await _ ← createMeetingIfMissing now transaction;
  await _ ← prisma.lead.update (tx_lead_id transaction.2)
    (with_stage "COMPRADO");
  k.

(** The [data] of the transaction update in [handleChargeCompleted] of
    the OpenPix webhook, and in [handlePaymentIntentSucceeded]. *)
Definition paid_by_pix (t : Transaction) : Transaction :=
  {| tx_lead_id := tx_lead_id t; tx_affiliate_id := tx_affiliate_id t;
     payment_method := pix; tx_status := succeeded;
     stripe_payment_intent := stripe_payment_intent t;
     scheduled_date := scheduled_date t; scheduled_time := scheduled_time t;
     tx_created_at := tx_created_at t |}.

Definition paid_through_stripe (paymentIntent : checkoutWebhook.PaymentIntent)
    (t : Transaction) : Transaction :=
  {| tx_lead_id := tx_lead_id t; tx_affiliate_id := tx_affiliate_id t;
     payment_method :=
       match head (checkoutWebhook.payment_method_types paymentIntent) with
       | Some "pix"%string => pix
       | _ => card
       end;
     tx_status := succeeded;
     stripe_payment_intent := stripe_payment_intent t;
     scheduled_date := scheduled_date t; scheduled_time := scheduled_time t;
     tx_created_at := tx_created_at t |}.

(** What follows the three shared statements in the OpenPix webhook:
    the Discord notification, unless the transaction had succeeded
    before. *)
Definition notify_once (transaction : nat * Transaction) : Prisma unit :=
  if bool_decide (tx_status transaction.2 = succeeded) then ret tt
  else try_catch (openpixWebhook.sendPaymentNotification transaction.1)
         (λ _, ret tt).

(** ** The Discord notification utilities (unnamed/part_001):
       display of a WhatsApp number *)

Module discord.

(** [s.slice(from, to)] for [0 <= from <= to]. *)
Definition slice (s : string) (from to : nat) : string :=
  substring from (to - from) s.

Definition formatWhatsApp (num : string) : string :=
  let cleaned := JS.replace_nondigits num in
  if (String.length cleaned =? 11)%nat then
    ("(" ++ slice cleaned 0 2 ++ ") " ++ slice cleaned 2 7 ++ "-"
       ++ slice cleaned 7 (String.length cleaned))%string
  else num.

End discord.

(** ** What the sweeper does to the queue *)

(** Between [w] and [w'] an existing message row is kept, or it is a
    PENDING welcome message that is now CANCELLED; and every added row
    is a new abandoned-payment message, due at one of the readings of
    [clock]. *)
Definition swept (clock : nat → Z) (w w' : World) : Prop :=
  (∀ i m, whatsAppMessages w !! i = Some m →
     whatsAppMessages w' !! i = Some m
     ∨ (message_type m = LEAD_WELCOME ∧ status m = PENDING
        ∧ whatsAppMessages w' !! i = Some (with_status CANCELLED m)))
  ∧ (∀ i m, length (whatsAppMessages w) ≤ i →
       whatsAppMessages w' !! i = Some m →
       ∃ lead j, m = new_message lead PAYMENT_ABANDONED (clock j)).

(** ** What the rows of the queue record *)

(** A SENT row carries the text that was sent and the time it was sent
    at; a PENDING row carries no text, no time and no error. *)
Definition well_recorded (m : WhatsAppMessage) : Prop :=
  (status m = SENT → is_Some (message_text m) ∧ is_Some (sent_at m))
  ∧ (status m = PENDING →
     message_text m = None ∧ sent_at m = None ∧ error m = None).

(** ** Requests that overlap *)

(** Every [await] gives the event loop back, so another request can be
    served between two store calls of one function.  The definitions
    below cut two functions at such a point. *)
Module overlap.
Import processWhatsappQueue.

(** [queueLeadWelcomeMessage] up to its first [await]: the query for a
    PENDING or SENT welcome row. *)
Definition welcome_check (lead : Lead)
    : Prisma (option (nat * WhatsAppMessage)) :=
  let leadId := id lead in
  prisma.whatsAppMessage.findFirst
    (λ r, lead_id r.2 = leadId ∧ message_type r.2 = LEAD_WELCOME
          ∧ status r.2 ∈ [PENDING; SENT]).

(** ... and what it does with the answer. *)
Definition welcome_after_check (now : Z) (lead : Lead)
    (existing : option (nat * WhatsAppMessage))
    : Prisma (option (nat * WhatsAppMessage)) :=
  let leadId := id lead in
  match existing with
  | Some _ => ret None
  | None =>
      let sendAfter := (now + messageQueue.WELCOME_MESSAGE_DELAY_MS)%Z in
      await message ← prisma.whatsAppMessage.create
        {| lead_id := leadId; phone := whatsapp lead;
           message_type := LEAD_WELCOME; status := PENDING;
           send_after := sendAfter;
           message_text := None; sent_at := None; error := None;
           updated_at := None |};
      ret (Some message)
  end.

(** Two calls of [queueLeadWelcomeMessage], the second arriving while
    the first awaits its query: both queries are answered before either
    call goes on. *)
Definition two_welcomes (now1 : Z) (lead1 : Lead) (now2 : Z) (lead2 : Lead)
    : Prisma (option (nat * WhatsAppMessage)
              * option (nat * WhatsAppMessage)) :=
  await existing1 ← welcome_check lead1;
  await existing2 ← welcome_check lead2;
  await message1 ← welcome_after_check now1 lead1 existing1;
  await message2 ← welcome_after_check now2 lead2 existing2;
  ret (message1, message2).

(** A run of the queue processor during which another request is served
    after the batch query has been answered and before the loop starts:
    the batch is the one selected on [w], the loop runs on
    [between w]. *)
Definition processor_interrupted (env : Env) (between : World → World)
    (w : World) : Result Results * World :=
  for_of env (pendingMessages (now env) w)
    {| processed := 0; sent := 0; failed := 0; cancelled := 0 |}
    (between w).

End overlap.

(** [w] with the status of message [i] replaced by [st]. *)
Definition with_row_status (i : nat) (st : MessageStatus) (w : World)
    : World :=
  set_whatsAppMessages (alter (with_status st) i) w.

(** Membership in a literal list of constructors, by cases. *)
Ltac elem_of_cases H :=
  repeat (apply elem_of_cons in H as [H|H]; [try discriminate H|]);
  try (by apply elem_of_nil in H).

(** ** Generic facts about tables *)

Section TableFacts.
Context {A : Type}.
Implicit Types (tbl : list A) (i : nat) (x : A).

Lemma elem_of_rows tbl i x : (i, x) ∈ rows tbl ↔ tbl !! i = Some x.
Proof.
  unfold rows. rewrite elem_of_lookup_imap. split.
  - intros (j & y & [= -> ->] & Hj). exact Hj.
  - intros Hi. eauto.
Qed.

Lemma rows_lookup tbl i : rows tbl !! i = pair i <$> tbl !! i.
Proof. unfold rows. apply list_lookup_imap. Qed.

Lemma rows_NoDup_fst tbl : NoDup ((rows tbl).*1).
Proof.
  apply NoDup_alt. intros i j n Hi Hj.
  rewrite list_lookup_fmap, rows_lookup in Hi, Hj.
  destruct (tbl !! i); destruct (tbl !! j); simplify_eq/=. done.
Qed.

Lemma findFirst_None (P : nat * A → Prop) `{!∀ r, Decision (P r)} tbl :
  Table.findFirst P tbl = None ↔ ∀ i x, tbl !! i = Some x → ¬ P (i, x).
Proof.
  unfold Table.findFirst. rewrite head_None. split.
  - intros Hnil i x Hi HP.
    assert ((i, x) ∈ filter P (rows tbl)) as Hin.
    { apply list_elem_of_filter. split; [done | by apply elem_of_rows]. }
    rewrite Hnil in Hin. by apply elem_of_nil in Hin.
  - intros Hall. destruct (filter P (rows tbl)) as [|[i x] l] eqn:E; [done|].
    assert ((i, x) ∈ filter P (rows tbl)) as Hin by (rewrite E; left).
    apply list_elem_of_filter in Hin as [HP Hin].
    apply elem_of_rows in Hin. by destruct (Hall i x).
Qed.

Lemma findFirst_Some (P : nat * A → Prop) `{!∀ r, Decision (P r)} tbl r :
  Table.findFirst P tbl = Some r → P r ∧ tbl !! r.1 = Some r.2.
Proof.
  unfold Table.findFirst. intros Hhd.
  assert (r ∈ filter P (rows tbl)) as Hin.
  { destruct (filter P (rows tbl)); simplify_eq/=. left. }
  apply list_elem_of_filter in Hin as [HP Hin]. split; [done|].
  destruct r. by apply elem_of_rows.
Qed.

Lemma findFirst_is_Some (P : nat * A → Prop) `{!∀ r, Decision (P r)}
    tbl i x :
  tbl !! i = Some x → P (i, x) → is_Some (Table.findFirst P tbl).
Proof.
  intros Hi HP. destruct (Table.findFirst P tbl) eqn:E; [eauto|].
  rewrite findFirst_None in E. by destruct (E i x).
Qed.

Lemma elem_of_findMany (P : nat * A → Prop) `{!∀ r, Decision (P r)}
    tbl i x :
  (i, x) ∈ Table.findMany P tbl ↔ P (i, x) ∧ tbl !! i = Some x.
Proof.
  unfold Table.findMany. by rewrite list_elem_of_filter, elem_of_rows.
Qed.

Lemma findMany_NoDup_fst (P : nat * A → Prop) `{!∀ r, Decision (P r)} tbl :
  NoDup ((Table.findMany P tbl).*1).
Proof.
  unfold Table.findMany. eapply sublist_NoDup; [apply rows_NoDup_fst|].
  apply fmap_sublist, sublist_filter.
Qed.

(** A row-wise change that never turns a non-matching row into a
    matching one cannot raise the number of matching rows. *)
Lemma length_filter_fmap (Q : A → Prop) `{!∀ x, Decision (Q x)}
    (f : A → A) tbl :
  (∀ x, Q (f x) → Q x) →
  length (filter Q (f <$> tbl)) ≤ length (filter Q tbl).
Proof.
  intros Hf. induction tbl as [|x tbl IH]; [done|].
  rewrite fmap_cons, !filter_cons.
  destruct (decide (Q (f x))) as [HQ|HQ].
  - rewrite decide_True by auto. simpl. lia.
  - destruct (decide (Q x)); simpl; lia.
Qed.

Lemma length_filter_alter (Q : A → Prop) `{!∀ x, Decision (Q x)}
    (f : A → A) tbl i :
  (∀ x, tbl !! i = Some x → Q (f x) → Q x) →
  length (filter Q (alter f i tbl)) ≤ length (filter Q tbl).
Proof.
  revert i. induction tbl as [|x tbl IH]; intros i Hf; [done|].
  destruct i as [|i].
  - change (alter f 0 (x :: tbl)) with (f x :: tbl). rewrite !filter_cons.
    destruct (decide (Q (f x))) as [HQ|HQ].
    + rewrite decide_True by (by apply Hf). done.
    + destruct (decide (Q x)); simpl; lia.
  - change (alter f (S i) (x :: tbl)) with (x :: alter f i tbl).
    rewrite !filter_cons. specialize (IH i Hf).
    destruct (decide (Q x)); simpl; lia.
Qed.
End TableFacts.

(** ** The queue writer *)

Section Writer.
Import messageQueue.
Implicit Types (w : World) (lead : Lead) (now : Z).

Lemma filter_active_nil leadId type w :
  ¬ has_active leadId type w →
  filter (active_for leadId type) (whatsAppMessages w) = [].
Proof.
  intros Hno.
  destruct (filter _ (whatsAppMessages w)) as [|m l] eqn:E; [done|].
  assert (m ∈ filter (active_for leadId type) (whatsAppMessages w)) as Hin
    by (rewrite E; left).
  apply list_elem_of_filter in Hin as [Hm Hin].
  apply list_elem_of_lookup in Hin as [i Hi].
  destruct Hno. by exists i, m.
Qed.

(** Deciding a [findFirst] by what the table holds. *)
Ltac found i x :=
  match goal with
  | |- context [Table.findFirst ?P ?tbl] =>
      let E := fresh "E" in
      destruct (Table.findFirst P tbl) eqn:E; [|
        rewrite findFirst_None in E; by destruct (E i x)]
  end.
Ltac not_found Hno :=
  match goal with
  | |- context [Table.findFirst ?P ?tbl] =>
      let E := fresh "E" in let r := fresh "r" in
      destruct (Table.findFirst P tbl) as [r|] eqn:E; [
        apply findFirst_Some in E as [? ?]; destruct Hno;
        by exists r.1, r.2 |]
  end.

Lemma cancelPendingWelcomeMessage_eq leadId w :
  cancelPendingWelcomeMessage leadId w =
    (Ok (length (filter (λ m, lead_id m = leadId
                             ∧ message_type m = LEAD_WELCOME
                             ∧ status m = PENDING) (whatsAppMessages w))),
     set_whatsAppMessages (cancel_pending leadId LEAD_WELCOME) w).
Proof. reflexivity. Qed.

Lemma cancelPendingAbandonedMessage_eq leadId w :
  cancelPendingAbandonedMessage leadId w =
    (Ok (length (filter (λ m, lead_id m = leadId
                             ∧ message_type m = PAYMENT_ABANDONED
                             ∧ status m = PENDING) (whatsAppMessages w))),
     set_whatsAppMessages (cancel_pending leadId PAYMENT_ABANDONED) w).
Proof. reflexivity. Qed.

Lemma queueLeadWelcomeMessage_skip now lead w :
  has_active (id lead) LEAD_WELCOME w →
  queueLeadWelcomeMessage now lead w = (Ok None, w).
Proof.
  intros (i & m & Hi & Hm).
  unfold queueLeadWelcomeMessage, bind, prisma.whatsAppMessage.findFirst.
  by found i m.
Qed.

Lemma queueLeadWelcomeMessage_insert now lead w :
  ¬ has_active (id lead) LEAD_WELCOME w →
  let row := new_message lead LEAD_WELCOME (now + 120000)%Z in
  queueLeadWelcomeMessage now lead w =
    (Ok (Some (length (whatsAppMessages w), row)),
     set_whatsAppMessages (λ tbl, tbl ++ [row]) w).
Proof.
  intros Hno.
  unfold queueLeadWelcomeMessage, bind, prisma.whatsAppMessage.findFirst.
  by not_found Hno.
Qed.

Lemma queuePaymentAbandonedMessage_paid now lead w :
  has_succeeded_transaction (id lead) w →
  queuePaymentAbandonedMessage now lead w = (Ok None, w).
Proof.
  intros (i & t & Hi & Ht).
  unfold queuePaymentAbandonedMessage, bind, prisma.transaction.findFirst.
  by found i t.
Qed.

Lemma queuePaymentAbandonedMessage_skip now lead w :
  has_active (id lead) PAYMENT_ABANDONED w →
  queuePaymentAbandonedMessage now lead w = (Ok None, w).
Proof.
  intros (i & m & Hi & Hm).
  unfold queuePaymentAbandonedMessage, bind, prisma.transaction.findFirst,
    prisma.whatsAppMessage.findFirst.
  destruct (Table.findFirst _ (transactions w)); [done|].
  by found i m.
Qed.

Lemma queuePaymentAbandonedMessage_insert now lead w :
  ¬ has_succeeded_transaction (id lead) w →
  ¬ has_active (id lead) PAYMENT_ABANDONED w →
  let row := new_message lead PAYMENT_ABANDONED now in
  let tbl := cancel_pending (id lead) LEAD_WELCOME (whatsAppMessages w) in
  queuePaymentAbandonedMessage now lead w =
    (Ok (Some (length tbl, row)),
     set_whatsAppMessages (λ _, tbl ++ [row]) w).
Proof.
  intros Hpaid Hno.
  unfold queuePaymentAbandonedMessage, bind, prisma.transaction.findFirst,
    prisma.whatsAppMessage.findFirst.
  not_found Hpaid. by not_found Hno.
Qed.

Lemma queuePaymentConfirmedMessage_skip now lead w :
  has_active (id lead) PAYMENT_CONFIRMED w →
  queuePaymentConfirmedMessage now lead w = (Ok None, w).
Proof.
  intros (i & m & Hi & Hm).
  unfold queuePaymentConfirmedMessage, bind, prisma.whatsAppMessage.findFirst.
  by found i m.
Qed.

Lemma queuePaymentConfirmedMessage_insert now lead w :
  ¬ has_active (id lead) PAYMENT_CONFIRMED w →
  let row := new_message lead PAYMENT_CONFIRMED now in
  let tbl := cancel_pending (id lead) PAYMENT_ABANDONED
               (cancel_pending (id lead) LEAD_WELCOME (whatsAppMessages w)) in
  queuePaymentConfirmedMessage now lead w =
    (Ok (Some (length tbl, row)),
     set_whatsAppMessages (λ _, tbl ++ [row]) w).
Proof.
  intros Hno.
  unfold queuePaymentConfirmedMessage, bind, prisma.whatsAppMessage.findFirst.
  by not_found Hno.
Qed.

(** The shape of a queue function's result, whichever branch it takes. *)
Lemma has_active_dec leadId type w :
  has_active leadId type w ∨ ¬ has_active leadId type w.
Proof.
  destruct (Table.findFirst
    (λ r, lead_id r.2 = leadId ∧ message_type r.2 = type
          ∧ status r.2 ∈ [PENDING; SENT]) (whatsAppMessages w)) as [r|] eqn:E.
  - left. apply findFirst_Some in E as [Hr Hi]. by exists r.1, r.2.
  - right. intros (i & m & Hi & Hm).
    rewrite findFirst_None in E. by destruct (E i m).
Qed.

Lemma has_succeeded_transaction_dec leadId w :
  has_succeeded_transaction leadId w ∨ ¬ has_succeeded_transaction leadId w.
Proof.
  destruct (Table.findFirst
    (λ r, tx_lead_id r.2 = leadId ∧ tx_status r.2 = succeeded)
    (transactions w)) as [r|] eqn:E.
  - left. apply findFirst_Some in E as [Hr Hi]. by exists r.1, r.2.
  - right. intros (i & t & Hi & Ht).
    rewrite findFirst_None in E. by destruct (E i t).
Qed.

(** *** I1 is preserved *)

Lemma cancel_pending_lookup leadId type tbl i :
  cancel_pending leadId type tbl !! i =
    (λ m, if decide (lead_id m = leadId ∧ message_type m = type
                     ∧ status m = PENDING)
          then with_status CANCELLED m else m) <$> tbl !! i.
Proof. unfold cancel_pending. apply list_lookup_fmap. Qed.

Lemma cancel_pending_length leadId type tbl :
  length (cancel_pending leadId type tbl) = length tbl.
Proof. unfold cancel_pending. apply length_fmap. Qed.

Lemma I1_cancel_pending leadId type w :
  I1 w → I1 (set_whatsAppMessages (cancel_pending leadId type) w).
Proof.
  intros HI L T. specialize (HI L T). simpl.
  etrans; [|exact HI]. unfold cancel_pending.
  apply length_filter_fmap. intros m. case_decide; [|done].
  unfold active_for, active. simpl.
  intros (_ & _ & Hin). elem_of_cases Hin.
Qed.

Lemma has_active_cancel_pending leadId type L T w :
  has_active L T (set_whatsAppMessages (cancel_pending leadId type) w) →
  has_active L T w.
Proof.
  intros (i & m & Hi & Hm). simpl in Hi.
  rewrite cancel_pending_lookup in Hi.
  destruct (whatsAppMessages w !! i) as [m0|] eqn:E; simplify_eq/=.
  exists i, m0. split; [done|]. case_decide; [|done].
  destruct Hm as (_ & _ & Hin). unfold active in Hin. simpl in Hin.
  elem_of_cases Hin.
Qed.

Lemma I1_append row w :
  I1 w → ¬ has_active (lead_id row) (message_type row) w →
  I1 (set_whatsAppMessages (λ tbl, tbl ++ [row]) w).
Proof.
  intros HI Hno L T. simpl. rewrite filter_app, length_app.
  destruct (decide (active_for L T row)) as [Hrow|Hrow].
  - destruct Hrow as (<- & <- & _).
    rewrite (filter_active_nil _ _ _ Hno). simpl.
    pose proof (length_filter (active_for (lead_id row) (message_type row)) [row]).
    simpl in *. lia.
  - rewrite (filter_singleton_False _ _ [] Hrow). specialize (HI L T).
    simpl. lia.
Qed.

Lemma I1_queueLeadWelcomeMessage now lead w :
  I1 w → I1 (queueLeadWelcomeMessage now lead w).2.
Proof.
  intros HI. destruct (has_active_dec (id lead) LEAD_WELCOME w) as [Ha|Ha].
  - by rewrite queueLeadWelcomeMessage_skip.
  - rewrite queueLeadWelcomeMessage_insert by done. by apply I1_append.
Qed.

Lemma I1_queuePaymentAbandonedMessage now lead w :
  I1 w → I1 (queuePaymentAbandonedMessage now lead w).2.
Proof.
  intros HI.
  destruct (has_succeeded_transaction_dec (id lead) w) as [Hp|Hp];
    [by rewrite queuePaymentAbandonedMessage_paid|].
  destruct (has_active_dec (id lead) PAYMENT_ABANDONED w) as [Ha|Ha];
    [by rewrite queuePaymentAbandonedMessage_skip|].
  rewrite queuePaymentAbandonedMessage_insert by done. simpl.
  apply (I1_append (new_message lead PAYMENT_ABANDONED now)
           (set_whatsAppMessages (cancel_pending (id lead) LEAD_WELCOME) w)).
  - by apply I1_cancel_pending.
  - intros H%has_active_cancel_pending. by apply Ha.
Qed.

Lemma I1_queuePaymentConfirmedMessage now lead w :
  I1 w → I1 (queuePaymentConfirmedMessage now lead w).2.
Proof.
  intros HI.
  destruct (has_active_dec (id lead) PAYMENT_CONFIRMED w) as [Ha|Ha];
    [by rewrite queuePaymentConfirmedMessage_skip|].
  rewrite queuePaymentConfirmedMessage_insert by done. simpl.
  apply (I1_append (new_message lead PAYMENT_CONFIRMED now)
           (set_whatsAppMessages (cancel_pending (id lead) PAYMENT_ABANDONED)
              (set_whatsAppMessages (cancel_pending (id lead) LEAD_WELCOME) w))).
  - by do 2 apply I1_cancel_pending.
  - intros H%has_active_cancel_pending%has_active_cancel_pending.
    by apply Ha.
Qed.
End Writer.

(** ** The queue processor *)

Section Processor.
Import whatsapp processWhatsappQueue.
Implicit Types (w : World) (env : Env) (msg : PendingMessage)
  (results : Results).

Lemma is_outcome_fields now data m :
  is_outcome now data →
  lead_id (data m) = lead_id m ∧ message_type (data m) = message_type m
  ∧ phone (data m) = phone m ∧ send_after (data m) = send_after m
  ∧ status (data m) ∈ [SENT; CANCELLED; FAILED].
Proof.
  intros [->|[[e ->]|[text ->]]]; simpl; repeat split;
    repeat constructor.
Qed.

Lemma update_message_ok i data w m :
  whatsAppMessages w !! i = Some m →
  prisma.whatsAppMessage.update i data w =
    (Ok tt, set_whatsAppMessages (alter data i) w).
Proof.
  intros Hi. unfold prisma.whatsAppMessage.update, Table.update.
  by rewrite Hi.
Qed.

Lemma update_message_missing i data w :
  whatsAppMessages w !! i = None →
  prisma.whatsAppMessage.update i data w = (Thrown record_not_found, w).
Proof.
  intros Hi. unfold prisma.whatsAppMessage.update, Table.update.
  by rewrite Hi.
Qed.

Lemma shouldCancelMessage_reads msg w :
  ∃ x, shouldCancelMessage msg w = (x, w).
Proof.
  unfold shouldCancelMessage, bind, ret, throw,
    prisma.whatsAppMessage.findFirst.
  repeat case_match; eauto.
Qed.

Lemma generateMessageText_reads h msg w :
  ∃ x, generateMessageText h msg w = (x, w).
Proof.
  unfold generateMessageText, ret, throw. repeat case_match; eauto.
Qed.

Lemma set_waha_requests_nil w : set_waha_requests (λ l, l ++ []) w = w.
Proof. destruct w. unfold set_waha_requests. simpl. by rewrite app_nil_r. Qed.

Lemma sendWhatsAppMessage_spec waha phone message w :
  ∃ result reqs,
    sendWhatsAppMessage waha phone message w =
      (Ok result, set_waha_requests (λ l, l ++ reqs) w).
Proof.
  unfold sendWhatsAppMessage, ret.
  destruct (String.eqb _ _).
  - eexists _, []. by rewrite set_waha_requests_nil.
  - destruct (fetch_sendText _ _ _ _); by eexists _, _.
Qed.

(** Processing one message whose row exists never raises, and rewrites
    that row alone. *)
Lemma processMessage_spec env msg results w m :
  whatsAppMessages w !! msg_id msg = Some m →
  ∃ results' w',
    processMessage env msg results w = (Ok results', w')
    ∧ message_step (now env) (msg_id msg) w w'.
Proof.
  intros Hi. unfold processMessage, try_catch, bind, message_step.
  assert (∀ data, is_outcome (now env) data →
    ∃ data0 reqs, is_outcome (now env) data0 ∧
      set_whatsAppMessages (alter data (msg_id msg)) w =
      set_whatsAppMessages (alter data0 (msg_id msg))
        (set_waha_requests (λ l, l ++ reqs) w)) as Hquiet.
  { intros data Hd. exists data, []. by rewrite set_waha_requests_nil. }
  destruct (shouldCancelMessage_reads msg w) as [x ->].
  destruct x as [[reason|]|e].
  - rewrite (update_message_ok _ _ _ _ Hi). unfold ret.
    eexists _, _. split; [done|]. apply Hquiet. by left.
  - destruct (generateMessageText_reads (host env) msg w) as [y ->].
    destruct y as [[text|]|e].
    + destruct text as [|c text].
      * rewrite (update_message_ok _ _ _ _ Hi). unfold ret.
        eexists _, _. split; [done|]. apply Hquiet. right; left; by eexists.
      * destruct (sendWhatsAppMessage_spec (waha env) (phone (msg_row msg))
                    (String c text) w) as (result & reqs & ->).
        destruct (success result);
          (erewrite update_message_ok by (simpl; exact Hi)); unfold ret;
          eexists _, _; (split; [done|]); eexists _, reqs; (split; [|done]).
        -- right; right; by eexists.
        -- right; left; by eexists.
    + rewrite (update_message_ok _ _ _ _ Hi). unfold ret.
      eexists _, _. split; [done|]. apply Hquiet. right; left; by eexists.
    + rewrite (update_message_ok _ _ _ _ Hi). unfold ret.
      eexists _, _. split; [done|]. apply Hquiet. right; left; by eexists.
  - rewrite (update_message_ok _ _ _ _ Hi). unfold ret.
    eexists _, _. split; [done|]. apply Hquiet. right; left; by eexists.
Qed.

Lemma processMessage_cancel env msg results w m reason :
  shouldCancelMessage msg w = (Ok (Some reason), w) →
  whatsAppMessages w !! msg_id msg = Some m →
  processMessage env msg results w =
    (Ok (incr_cancelled results),
     set_whatsAppMessages (alter (data_cancelled (now env)) (msg_id msg)) w).
Proof.
  intros Hc Hi. unfold processMessage, try_catch, bind. rewrite Hc.
  by rewrite (update_message_ok _ _ _ _ Hi).
Qed.

(** The processor's reading of "the lead paid" and "the lead tried to
    pay": the status of the one transaction it joined. *)
Lemma shouldCancelMessage_abandoned msg lead t w :
  msg_lead msg = Some lead →
  message_type (msg_row msg) = PAYMENT_ABANDONED →
  head (il_transactions lead) = Some t → tx_status t.2 = succeeded →
  shouldCancelMessage msg w = (Ok (Some "payment_succeeded"), w).
Proof.
  intros Hl Ht Hhd Hst. unfold shouldCancelMessage.
  rewrite Hl, Ht, Hhd. simpl. rewrite Hst.
  by rewrite bool_decide_eq_true_2.
Qed.

Lemma shouldCancelMessage_welcome msg lead t w :
  msg_lead msg = Some lead →
  message_type (msg_row msg) = LEAD_WELCOME →
  head (il_transactions lead) = Some t →
  shouldCancelMessage msg w = (Ok (Some "payment_attempted"), w).
Proof.
  intros Hl Ht Hhd. unfold shouldCancelMessage.
  rewrite Hl, Ht, Hhd. by rewrite bool_decide_eq_true_2.
Qed.

Lemma message_step_messages now i w w' :
  message_step now i w w' →
  ∃ data, is_outcome now data
          ∧ whatsAppMessages w' = alter data i (whatsAppMessages w).
Proof. intros (data & reqs & Hd & ->). by exists data. Qed.

Lemma message_step_tables now i w w' :
  message_step now i w w' →
  leads w' = leads w ∧ transactions w' = transactions w
  ∧ meetings w' = meetings w.
Proof. by intros (data & reqs & Hd & ->). Qed.

(** *** The batch *)

Lemma pendingMessages_spec now w msg :
  msg ∈ pendingMessages now w →
  whatsAppMessages w !! msg_id msg = Some (msg_row msg)
  ∧ status (msg_row msg) = PENDING
  ∧ (send_after (msg_row msg) ≤ now)%Z
  ∧ msg_lead msg = include_lead w (lead_id (msg_row msg)).
Proof.
  unfold pendingMessages. intros ([i m] & -> & Hin)%list_elem_of_fmap.
  apply subseteq_take in Hin. unfold orderBy_asc in Hin.
  rewrite merge_sort_Permutation in Hin.
  apply elem_of_findMany in Hin as [[Hst Hdue] Hi]. simpl in *. done.
Qed.

Lemma pendingMessages_NoDup now w :
  NoDup (msg_id <$> pendingMessages now w).
Proof.
  unfold pendingMessages. rewrite <- list_fmap_compose.
  change (msg_id ∘ _) with (@fst nat WhatsAppMessage).
  rewrite fmap_take. eapply sublist_NoDup; [|apply sublist_take].
  unfold orderBy_asc. rewrite merge_sort_Permutation.
  apply findMany_NoDup_fst.
Qed.

(** *** The loop over the batch *)

Lemma for_of_spec env batch : ∀ results w,
  NoDup (msg_id <$> batch) →
  (∀ msg, msg ∈ batch →
     whatsAppMessages w !! msg_id msg = Some (msg_row msg)) →
  ∃ results' w',
    for_of env batch results w = (Ok results', w')
    ∧ leads w' = leads w ∧ transactions w' = transactions w
    ∧ meetings w' = meetings w
    ∧ (∀ j, j ∉ msg_id <$> batch →
         whatsAppMessages w' !! j = whatsAppMessages w !! j)
    ∧ (∀ msg, msg ∈ batch →
         ∃ data, is_outcome (now env) data
           ∧ whatsAppMessages w' !! msg_id msg = Some (data (msg_row msg))
           ∧ ((∃ reason, ∀ w0, shouldCancelMessage msg w0
                                = (Ok (Some reason), w0)) →
              data = data_cancelled (now env)))
    ∧ ((∀ msg, msg ∈ batch → status (msg_row msg) = PENDING) →
       I1 w → I1 w').
Proof.
  induction batch as [|msg rest IH]; intros results w Hnd Hrows.
  - exists results, w. simpl. unfold ret. repeat split; try done.
    intros msg Hin. by apply elem_of_nil in Hin.
  - rewrite fmap_cons in Hnd. apply NoDup_cons in Hnd as [Hfresh Hnd].
    pose proof (Hrows msg ltac:(left)) as Hmsg.
    destruct (processMessage_spec env msg (incr_processed results) w _ Hmsg)
      as (r1 & w1 & Hrun & Hstep).
    destruct (message_step_tables _ _ _ _ Hstep) as (Hl1 & Ht1 & Hm1).
    destruct (message_step_messages _ _ _ _ Hstep) as (data & Hdata & Hw1).
    assert (∀ j, j ≠ msg_id msg →
              whatsAppMessages w1 !! j = whatsAppMessages w !! j) as Hother.
    { intros j Hj. rewrite Hw1. by apply list_lookup_alter_ne. }
    assert (whatsAppMessages w1 !! msg_id msg = Some (data (msg_row msg)))
      as Hself.
    { rewrite Hw1, list_lookup_alter, Hmsg. by rewrite decide_True. }
    destruct (IH r1 w1 Hnd) as (r' & w' & Hloop & Hl & Ht & Hm & Hframe
                                  & Hdone & HI1).
    { intros msg' Hin. rewrite Hother; [apply Hrows; by right|].
      intros Heq. apply Hfresh. rewrite <- Heq.
      apply list_elem_of_fmap. by exists msg'. }
    exists r', w'. split.
    { simpl. unfold bind. by rewrite Hrun. }
    split; [congruence|]. split; [congruence|]. split; [congruence|].
    split; [|split].
    + intros j Hj. rewrite fmap_cons, not_elem_of_cons in Hj.
      destruct Hj as [Hj1 Hj2]. by rewrite Hframe, Hother.
    + intros msg' [->|Hin]%elem_of_cons; [|by apply Hdone].
      exists data. split; [done|]. split; [by rewrite Hframe|].
      intros [reason Hreason].
      rewrite (processMessage_cancel _ _ _ _ _ reason (Hreason w) Hmsg)
        in Hrun.
      injection Hrun as _ <-. simpl in Hw1.
      assert (alter data (msg_id msg) (whatsAppMessages w) !! msg_id msg
              = alter (data_cancelled (now env)) (msg_id msg)
                  (whatsAppMessages w) !! msg_id msg) as Heq
        by (by rewrite Hw1).
      rewrite !list_lookup_alter, Hmsg, !decide_True in Heq by done.
      simpl in Heq.
      destruct Hdata as [->|[[e ->]|[text ->]]]; [done|..];
        by simplify_eq/=.
    + intros Hpending HI. apply HI1; [intros; apply Hpending; by right|].
      intros L T. specialize (HI L T). etrans; [|exact HI].
      rewrite Hw1. apply length_filter_alter.
      intros m Hm' Hact. rewrite Hmsg in Hm'. injection Hm' as <-.
      destruct (is_outcome_fields _ _ (msg_row msg) Hdata)
        as (Hlead & Htype & _).
      destruct Hact as (HL & HT & _). split; [congruence|].
      split; [congruence|]. unfold active.
      rewrite (Hpending msg ltac:(left)). left.
Qed.
End Processor.

(** ** What each operation leaves alone *)

Section Frames.
Import messageQueue.
Implicit Types (w : World) (lead : Lead) (now : Z).

Lemma keeps_terminal_refl w : keeps_terminal w w.
Proof. by intros i m Hi Hst. Qed.

Lemma keeps_terminal_trans w1 w2 w3 :
  keeps_terminal w1 w2 → keeps_terminal w2 w3 → keeps_terminal w1 w3.
Proof. intros H12 H23 i m Hi Hst. apply H23; [|done]. by apply H12. Qed.

Lemma keeps_terminal_same w w' :
  whatsAppMessages w' = whatsAppMessages w → keeps_terminal w w'.
Proof. intros Heq i m Hi Hst. by rewrite Heq. Qed.

Lemma keeps_terminal_cancel_pending leadId type w :
  keeps_terminal w (set_whatsAppMessages (cancel_pending leadId type) w).
Proof.
  intros i m Hi Hst. simpl. rewrite cancel_pending_lookup, Hi. simpl.
  rewrite decide_False; [done|]. by intros (_ & _ & ?).
Qed.

Lemma keeps_terminal_append row w :
  keeps_terminal w (set_whatsAppMessages (λ tbl, tbl ++ [row]) w).
Proof. intros i m Hi Hst. simpl. by apply lookup_app_l_Some. Qed.

Lemma alter_missing {A} (f : A → A) (tbl : list A) i :
  tbl !! i = None → alter f i tbl = tbl.
Proof.
  revert i. induction tbl as [|x tbl IH]; intros [|i] Hi; try done.
  simpl in *. f_equal. by apply IH.
Qed.

Lemma queueLeadWelcomeMessage_frame now lead w :
  ∃ x w', queueLeadWelcomeMessage now lead w = (Ok x, w')
          ∧ same_tables w w' ∧ keeps_terminal w w'.
Proof.
  destruct (has_active_dec (id lead) LEAD_WELCOME w) as [Ha|Ha].
  - rewrite queueLeadWelcomeMessage_skip by done.
    eexists _, _. split; [done|]. split; [done|apply keeps_terminal_refl].
  - rewrite queueLeadWelcomeMessage_insert by done.
    eexists _, _. split; [done|]. split; [done|].
    apply keeps_terminal_append.
Qed.

Lemma queuePaymentAbandonedMessage_frame now lead w :
  ∃ x w', queuePaymentAbandonedMessage now lead w = (Ok x, w')
          ∧ same_tables w w' ∧ keeps_terminal w w'.
Proof.
  destruct (has_succeeded_transaction_dec (id lead) w) as [Hp|Hp].
  { rewrite queuePaymentAbandonedMessage_paid by done.
    eexists _, _. split; [done|]. split; [done|apply keeps_terminal_refl]. }
  destruct (has_active_dec (id lead) PAYMENT_ABANDONED w) as [Ha|Ha].
  { rewrite queuePaymentAbandonedMessage_skip by done.
    eexists _, _. split; [done|]. split; [done|apply keeps_terminal_refl]. }
  rewrite queuePaymentAbandonedMessage_insert by done.
  eexists _, _. split; [done|]. split; [done|].
  eapply keeps_terminal_trans;
    [apply (keeps_terminal_cancel_pending (id lead) LEAD_WELCOME)|].
  apply (keeps_terminal_append _
           (set_whatsAppMessages (cancel_pending (id lead) LEAD_WELCOME) w)).
Qed.

Lemma queuePaymentConfirmedMessage_frame now lead w :
  ∃ x w', queuePaymentConfirmedMessage now lead w = (Ok x, w')
          ∧ same_tables w w' ∧ keeps_terminal w w'.
Proof.
  destruct (has_active_dec (id lead) PAYMENT_CONFIRMED w) as [Ha|Ha].
  { rewrite queuePaymentConfirmedMessage_skip by done.
    eexists _, _. split; [done|]. split; [done|apply keeps_terminal_refl]. }
  rewrite queuePaymentConfirmedMessage_insert by done.
  eexists _, _. split; [done|]. split; [done|].
  eapply keeps_terminal_trans;
    [apply (keeps_terminal_cancel_pending (id lead) LEAD_WELCOME)|].
  eapply keeps_terminal_trans;
    [apply (keeps_terminal_cancel_pending (id lead) PAYMENT_ABANDONED)|].
  apply (keeps_terminal_append _
           (set_whatsAppMessages (cancel_pending (id lead) PAYMENT_ABANDONED)
              (set_whatsAppMessages (cancel_pending (id lead) LEAD_WELCOME) w))).
Qed.

(** The webhooks never write a message. *)
Lemma createMeetingIfMissing_messages now transaction w :
  ∃ x, (createMeetingIfMissing now transaction w).1 = Ok x
       ∧ whatsAppMessages (createMeetingIfMissing now transaction w).2
         = whatsAppMessages w.
Proof.
  unfold createMeetingIfMissing, bind, prisma.meeting.findUnique.
  destruct (Table.findFirst _ _); by eexists.
Qed.

Lemma openpixWebhook_handleChargeCompleted_messages now transaction w :
  whatsAppMessages (openpixWebhook.handleChargeCompleted now transaction w).2
  = whatsAppMessages w.
Proof.
  unfold openpixWebhook.handleChargeCompleted, bind,
    prisma.transaction.update, prisma.lead.update, try_catch,
    openpixWebhook.sendPaymentNotification, ret.
  destruct (Table.update _ _ (transactions w)); [|done].
  match goal with
  | |- context [createMeetingIfMissing ?n ?t ?w0] =>
      destruct (createMeetingIfMissing_messages n t w0) as (x & Hx & Hm);
      destruct (createMeetingIfMissing n t w0) as [res w1]
  end.
  simpl in *. subst res.
  destruct (Table.update _ _ (leads w1)); [|done].
  by destruct (bool_decide _).
Qed.

Lemma checkoutWebhook_handleChargeCompleted_messages now transaction w :
  whatsAppMessages (checkoutWebhook.handleChargeCompleted now transaction w).2
  = whatsAppMessages w.
Proof.
  unfold checkoutWebhook.handleChargeCompleted, bind,
    prisma.transaction.update, prisma.lead.update, ret.
  destruct (Table.update _ _ (transactions w)); [|done].
  match goal with
  | |- context [createMeetingIfMissing ?n ?t ?w0] =>
      destruct (createMeetingIfMissing_messages n t w0) as (x & Hx & Hm);
      destruct (createMeetingIfMissing n t w0) as [res w1]
  end.
  simpl in *. subst res.
  by destruct (Table.update _ _ (leads w1)).
Qed.

Lemma openpixWebhook_handler_messages now verified event transactionId w :
  whatsAppMessages
    (openpixWebhook.handler now verified event transactionId w).2
  = whatsAppMessages w.
Proof.
  unfold openpixWebhook.handler.
  destruct (transactions w !! transactionId) as [t|]; [|done].
  destruct event; simpl; try done.
  - destruct verified; [|done].
    apply openpixWebhook_handleChargeCompleted_messages.
  - unfold openpixWebhook.handleChargeExpired, bind,
      prisma.transaction.update.
    by destruct (Table.update _ _ _).
Qed.

Lemma checkoutWebhook_handler_messages now event transactionId w :
  whatsAppMessages
    (checkoutWebhook.handleOpenPixWebhook now event transactionId w).2
  = whatsAppMessages w.
Proof.
  unfold checkoutWebhook.handleOpenPixWebhook.
  destruct (transactions w !! transactionId) as [t|]; [|done].
  destruct event; simpl; try done.
  - pose proof (checkoutWebhook_handleChargeCompleted_messages
                  now (transactionId, t) w) as Hm.
    by destruct (checkoutWebhook.handleChargeCompleted _ _ _) as [[]].
  - unfold checkoutWebhook.handleChargeExpired, bind,
      prisma.transaction.update.
    by destruct (Table.update _ _ _).
Qed.

Lemma updateTransactionStatus_messages paymentIntentId st w :
  ∃ x, checkoutWebhook.updateTransactionStatus paymentIntentId st w
       = (Ok x, set_transactions
                  (λ tbl, (Table.updateMany
                             (λ t, stripe_payment_intent t = Some paymentIntentId)
                             (with_tx_status st) tbl).1) w).
Proof. by eexists. Qed.

Lemma handlePaymentIntentSucceeded_messages now paymentIntent w :
  whatsAppMessages
    (checkoutWebhook.handlePaymentIntentSucceeded now paymentIntent w).2
  = whatsAppMessages w.
Proof.
  unfold checkoutWebhook.handlePaymentIntentSucceeded, bind,
    prisma.transaction.findFirst, prisma.transaction.update,
    prisma.lead.update, ret.
  destruct (Table.findFirst _ _) as [transaction|]; [|done].
  destruct (Table.update _ _ (transactions w)); [|done].
  match goal with
  | |- context [createMeetingIfMissing ?n ?t ?w0] =>
      destruct (createMeetingIfMissing_messages n t w0) as (x & Hx & Hm);
      destruct (createMeetingIfMissing n t w0) as [res w1]
  end.
  simpl in *. subst res.
  by destruct (Table.update _ _ (leads w1)).
Qed.

Lemma handleStripeWebhook_messages now event paymentIntent w :
  whatsAppMessages
    (checkoutWebhook.handleStripeWebhook now event paymentIntent w).2
  = whatsAppMessages w.
Proof.
  unfold checkoutWebhook.handleStripeWebhook.
  destruct event;
    try (by match goal with
            | |- context [checkoutWebhook.updateTransactionStatus ?i ?st ?w0] =>
                destruct (updateTransactionStatus_messages i st w0) as [x ->]
            end);
    [|done].
  pose proof (handlePaymentIntentSucceeded_messages now paymentIntent w) as Hm.
  by destruct (checkoutWebhook.handlePaymentIntentSucceeded _ _ _) as [[]].
Qed.
End Frames.

(** ** The expiry sweeper *)

Section Sweeper.
Import checkExpiredPix.
Implicit Types (w : World) (now : Z) (results : Results).

Lemma minutes_of_pending now r :
  is_pending_pix now r → (16 ≤ (now - tx_created_at r.2) / 1000 / 60)%Z.
Proof.
  intros (_ & _ & Hage).
  apply Z.div_le_lower_bound; [lia|]. apply Z.div_le_lower_bound; lia.
Qed.

Lemma pendingPixTransactions_spec now w p :
  p ∈ pendingPixTransactions now w →
  transactions w !! pix_id p = Some (pix_row p)
  ∧ is_pending_pix now (pix_id p, pix_row p).
Proof.
  unfold pendingPixTransactions. intros ([i t] & -> & Hin)%list_elem_of_fmap.
  apply subseteq_take in Hin. by apply elem_of_findMany in Hin as [? ?].
Qed.

Lemma cancel_all_lookup batch : ∀ tbl j,
  cancel_all batch tbl !! j =
    if decide (j ∈ pix_id <$> batch)
    then with_tx_status canceled <$> tbl !! j else tbl !! j.
Proof.
  induction batch as [|p batch IH]; intros tbl j.
  - rewrite decide_False; [done|]. apply not_elem_of_nil.
  - unfold cancel_all in *. rewrite fmap_cons. simpl foldl.
    rewrite IH, list_lookup_alter.
    destruct (decide (j ∈ pix_id <$> batch)) as [Hin|Hin],
      (decide (pix_id p = j)) as [Heq|Hne],
      (decide (j ∈ pix_id p :: (pix_id <$> batch))) as [Hin'|Hin'];
      try subst j; try done.
    + by destruct (tbl !! pix_id p).
    + destruct Hin'. apply elem_of_cons. by right.
    + destruct Hin'. apply elem_of_cons. by right.
    + destruct Hin'. apply elem_of_cons. by left.
    + apply elem_of_cons in Hin' as [?|?]; by simplify_eq.
Qed.

Lemma checkTransaction_spec now clock p results w :
  (16 ≤ (now - tx_created_at (pix_row p)) / 1000 / 60)%Z →
  ∃ results' w',
    checkTransaction now clock p results w = (Ok results', w')
    ∧ transactions w' =
        alter (with_tx_status canceled) (pix_id p) (transactions w)
    ∧ leads w' = leads w ∧ meetings w' = meetings w
    ∧ (I1 w → I1 w') ∧ keeps_terminal w w'.
Proof.
  intros Hmin%Z.leb_le.
  unfold checkTransaction, try_catch, bind. rewrite Hmin.
  unfold prisma.transaction.update, Table.update.
  destruct (transactions w !! pix_id p) as [t|] eqn:Et.
  - set (w1 := set_transactions _ w).
    destruct (pix_lead p) as [lead|].
    + destruct (queuePaymentAbandonedMessage_frame (clock (pix_id p)) lead w1)
        as (x & w' & Hq & (Hl & Ht & Hm) & Hk).
      pose proof (I1_queuePaymentAbandonedMessage (clock (pix_id p)) lead w1)
        as HI.
      rewrite Hq in HI |- *. unfold ret.
      eexists _, _. split; [done|].
      split; [by rewrite Ht|]. split; [by rewrite Hl|].
      split; [by rewrite Hm|]. split; [exact HI|].
      eapply keeps_terminal_trans; [|exact Hk].
      by apply keeps_terminal_same.
    + unfold throw, ret. eexists _, _. split; [done|].
      repeat split; try done. by apply keeps_terminal_same.
  - unfold ret. eexists _, _. split; [done|].
    rewrite alter_missing by done.
    repeat split; try done. apply keeps_terminal_refl.
Qed.

Lemma sweep_for_of_spec now clock batch : ∀ results w,
  (∀ p, p ∈ batch → (16 ≤ (now - tx_created_at (pix_row p)) / 1000 / 60)%Z) →
  ∃ results' w',
    for_of now clock batch results w = (Ok results', w')
    ∧ transactions w' = cancel_all batch (transactions w)
    ∧ leads w' = leads w ∧ meetings w' = meetings w
    ∧ (I1 w → I1 w') ∧ keeps_terminal w w'.
Proof.
  induction batch as [|p batch IH]; intros results w Hmin.
  - exists results, w. repeat split; try done. apply keeps_terminal_refl.
  - destruct (checkTransaction_spec now clock p (incr_checked results) w)
      as (r1 & w1 & Hrun & Ht1 & Hl1 & Hm1 & HI1 & Hk1);
      [apply Hmin; by left|].
    destruct (IH r1 w1) as (r' & w' & Hloop & Ht & Hl & Hm & HI & Hk);
      [intros; apply Hmin; by right|].
    exists r', w'. split; [simpl; unfold bind; by rewrite Hrun|].
    split; [by rewrite Ht, Ht1|]. split; [congruence|].
    split; [congruence|]. split; [auto|].
    by eapply keeps_terminal_trans.
Qed.

Lemma handler_spec now clock w :
  ∃ results' w',
    handler now clock w = (Status200 results', w')
    ∧ transactions w' =
        cancel_all (pendingPixTransactions now w) (transactions w)
    ∧ leads w' = leads w ∧ meetings w' = meetings w
    ∧ (I1 w → I1 w') ∧ keeps_terminal w w'.
Proof.
  destruct (sweep_for_of_spec now clock (pendingPixTransactions now w)
              {| checked := 0; expired := 0; queued := 0; errors := 0 |} w)
    as (r' & w' & Hloop & Hrest).
  { intros p [_ Hp]%pendingPixTransactions_spec.
    by apply minutes_of_pending in Hp. }
  exists r', w'. split; [|done].
  unfold handler, bind, findPendingPixTransactions. by rewrite Hloop.
Qed.

(** When the batch limit did not cut the selection, nothing that
    matched at [now] still matches afterwards. *)
Lemma handler_nothing_left now clock now' w :
  length (Table.findMany (is_pending_pix now) (transactions w)) ≤ 50 →
  (∀ r, r ∈ rows (transactions w) →
        is_pending_pix now' r → is_pending_pix now r) →
  pendingPixTransactions now' (handler now clock w).2 = [].
Proof.
  intros Hlen Hsame.
  destruct (handler_spec now clock w) as (r' & w' & -> & Ht & _). simpl.
  unfold pendingPixTransactions.
  assert (Table.findMany (is_pending_pix now') (transactions w') = [])
    as ->; [|done].
  destruct (Table.findMany _ (transactions w')) as [|[j t'] l] eqn:E;
    [done|]. exfalso.
  assert ((j, t') ∈ Table.findMany (is_pending_pix now') (transactions w'))
    as [Hp Hj]%elem_of_findMany by (rewrite E; left).
  rewrite Ht, cancel_all_lookup in Hj.
  destruct (decide (j ∈ pix_id <$> pendingPixTransactions now w))
    as [Hin|Hout].
  - destruct (transactions w !! j) as [t|]; simplify_eq/=.
    destruct Hp as (_ & Hst & _). simpl in Hst. elem_of_cases Hst.
  - apply Hout. unfold pendingPixTransactions.
    rewrite take_ge by done. rewrite <- list_fmap_compose.
    apply list_elem_of_fmap. exists (j, t'). split; [done|].
    apply elem_of_findMany. split; [|done].
    apply Hsame; [by apply elem_of_rows|done].
Qed.
End Sweeper.

(** ** Whole runs *)

Section Runs.
Implicit Types (w : World) (op : Operation).

Lemma processWhatsappQueue_handler_spec env w :
  let batch := processWhatsappQueue.pendingMessages
                 (processWhatsappQueue.now env) w in
  ∃ results' w',
    processWhatsappQueue.handler env w
      = (processWhatsappQueue.Status200 results', w')
    ∧ same_tables w w'
    ∧ (∀ j, j ∉ processWhatsappQueue.msg_id <$> batch →
         whatsAppMessages w' !! j = whatsAppMessages w !! j)
    ∧ (∀ msg, msg ∈ batch →
         ∃ data, is_outcome (processWhatsappQueue.now env) data
           ∧ whatsAppMessages w' !! processWhatsappQueue.msg_id msg
             = Some (data (processWhatsappQueue.msg_row msg))
           ∧ ((∃ reason, ∀ w0,
                 processWhatsappQueue.shouldCancelMessage msg w0
                 = (Ok (Some reason), w0)) →
              data = processWhatsappQueue.data_cancelled
                       (processWhatsappQueue.now env)))
    ∧ (I1 w → I1 w').
Proof.
  intros batch.
  destruct (for_of_spec env batch
              {| processWhatsappQueue.processed := 0;
                 processWhatsappQueue.sent := 0;
                 processWhatsappQueue.failed := 0;
                 processWhatsappQueue.cancelled := 0 |} w)
    as (r' & w' & Hloop & Hl & Ht & Hm & Hframe & Hdone & HI).
  { apply pendingMessages_NoDup. }
  { by intros msg (? & _)%pendingMessages_spec. }
  exists r', w'. split.
  { unfold processWhatsappQueue.handler, bind,
      processWhatsappQueue.findPendingMessages.
    fold batch. by rewrite Hloop. }
  split; [done|]. split; [done|]. split; [done|].
  intros HI1. apply HI; [|done].
  by intros msg (_ & ? & _)%pendingMessages_spec.
Qed.

Lemma run_keeps_terminal op w : keeps_terminal w (run op w).
Proof.
  destruct op; simpl.
  - apply keeps_terminal_cancel_pending.
  - apply keeps_terminal_cancel_pending.
  - destruct (queueLeadWelcomeMessage_frame now lead w)
      as (x & w' & -> & _ & Hk). exact Hk.
  - destruct (queuePaymentAbandonedMessage_frame now lead w)
      as (x & w' & -> & _ & Hk). exact Hk.
  - destruct (queuePaymentConfirmedMessage_frame now lead w)
      as (x & w' & -> & _ & Hk). exact Hk.
  - destruct (processWhatsappQueue_handler_spec env w)
      as (r' & w' & -> & _ & Hframe & _). simpl.
    intros i m Hi Hst. rewrite Hframe; [done|].
    intros (msg & -> & Hin)%list_elem_of_fmap.
    apply pendingMessages_spec in Hin as (Hrow & Hpending & _).
    rewrite Hrow in Hi. injection Hi as <-. done.
  - destruct (handler_spec now clock w) as (r' & w' & -> & _ & _ & _ & _ & Hk).
    exact Hk.
  - apply keeps_terminal_same, openpixWebhook_handler_messages.
  - apply keeps_terminal_same, checkoutWebhook_handler_messages.
  - apply keeps_terminal_same, handleStripeWebhook_messages.
  - by apply keeps_terminal_same.
Qed.

Lemma run_I1 op w : I1 w → I1 (run op w).
Proof.
  intros HI. destruct op; simpl.
  - by apply I1_cancel_pending.
  - by apply I1_cancel_pending.
  - by apply I1_queueLeadWelcomeMessage.
  - by apply I1_queuePaymentAbandonedMessage.
  - by apply I1_queuePaymentConfirmedMessage.
  - destruct (processWhatsappQueue_handler_spec env w)
      as (r' & w' & -> & _ & _ & _ & HI'). by apply HI'.
  - destruct (handler_spec now clock w) as (r' & w' & -> & _ & _ & _ & HI' & _).
    by apply HI'.
  - intros L T. rewrite openpixWebhook_handler_messages. apply HI.
  - intros L T. rewrite checkoutWebhook_handler_messages. apply HI.
  - intros L T. rewrite handleStripeWebhook_messages. apply HI.
  - exact HI.
Qed.

Lemma reachable_I1 w : reachable w → I1 w.
Proof.
  induction 1 as [|op w Hw IH]; [|by apply run_I1].
  intros L T. simpl. lia.
Qed.
End Runs.

(** ** The properties of the specification *)

Section Claims.
Import messageQueue whatsapp Examples.
Implicit Types (w : World) (lead : Lead) (now : Z).

(** C5. If a transaction of the lead has status succeeded,
    [queuePaymentAbandonedMessage] returns null and leaves the whole
    store as it was: no PAYMENT_ABANDONED row is created and no message
    (a PENDING welcome included) is cancelled or changed. *)
Theorem C5_abandoned_suppressed_by_success now lead w :
  has_succeeded_transaction (id lead) w →
  queuePaymentAbandonedMessage now lead w = (Ok None, w).
Proof. apply queuePaymentAbandonedMessage_paid. Qed.

Lemma C5_witness :
  has_succeeded_transaction (id ana) paid
  ∧ queuePaymentAbandonedMessage (T0 + 50000) ana paid = (Ok None, paid).
Proof.
  assert (has_succeeded_transaction (id ana) paid) as Hpaid.
  { exists 0, (pix_charge 0 succeeded (T0 + 30000)).
    vm_compute. repeat split. }
  split; [exact Hpaid|].
  exact (C5_abandoned_suppressed_by_success (T0 + 50000) ana paid Hpaid).
Defined.

(** What [data: { status: 'CANCELLED' }] leaves of a row. *)
Lemma with_status_fields st m :
  status (with_status st m) = st
  ∧ lead_id (with_status st m) = lead_id m
  ∧ phone (with_status st m) = phone m
  ∧ message_type (with_status st m) = message_type m
  ∧ send_after (with_status st m) = send_after m
  ∧ message_text (with_status st m) = message_text m
  ∧ sent_at (with_status st m) = sent_at m
  ∧ error (with_status st m) = error m.
Proof. done. Qed.

(** C6. Cascade cancellation.  When [queuePaymentAbandonedMessage]
    returns a message, every PENDING LEAD_WELCOME row of the lead has
    status CANCELLED afterwards (lead, phone, type, schedule, text,
    sending time and error as before), every other row is as it was,
    and the returned message is the new last row: PENDING,
    PAYMENT_ABANDONED, for this lead and phone, due at [now].  When
    [queuePaymentConfirmedMessage] returns a message, the same holds
    with every PENDING LEAD_WELCOME row and every PENDING
    PAYMENT_ABANDONED row of the lead CANCELLED and a new PENDING
    PAYMENT_CONFIRMED row.  The new row comes after the cancelled ones:
    the table is the old one with these rows cancelled, followed by the
    new row. *)
Theorem C6_cascade_cancellation now lead w x w' :
  (queuePaymentAbandonedMessage now lead w = (Ok (Some x), w') →
     let tbl := cancel_pending (id lead) LEAD_WELCOME (whatsAppMessages w) in
     whatsAppMessages w' = tbl ++ [x.2]
     ∧ length tbl = length (whatsAppMessages w)
     ∧ x.1 = length (whatsAppMessages w)
     ∧ status x.2 = PENDING ∧ message_type x.2 = PAYMENT_ABANDONED
     ∧ lead_id x.2 = id lead ∧ phone x.2 = whatsapp lead
     ∧ send_after x.2 = now
     ∧ (∀ i m, whatsAppMessages w !! i = Some m →
          lead_id m = id lead → message_type m = LEAD_WELCOME →
          status m = PENDING →
          ∃ m', whatsAppMessages w' !! i = Some m'
                ∧ status m' = CANCELLED
                ∧ lead_id m' = lead_id m ∧ phone m' = phone m
                ∧ message_type m' = message_type m
                ∧ send_after m' = send_after m
                ∧ message_text m' = message_text m
                ∧ sent_at m' = sent_at m ∧ error m' = error m)
     ∧ (∀ i m, whatsAppMessages w !! i = Some m →
          ¬ (lead_id m = id lead ∧ message_type m = LEAD_WELCOME
             ∧ status m = PENDING) →
          whatsAppMessages w' !! i = Some m))
  ∧ (queuePaymentConfirmedMessage now lead w = (Ok (Some x), w') →
     let tbl := cancel_pending (id lead) PAYMENT_ABANDONED
                  (cancel_pending (id lead) LEAD_WELCOME
                     (whatsAppMessages w)) in
     whatsAppMessages w' = tbl ++ [x.2]
     ∧ length tbl = length (whatsAppMessages w)
     ∧ x.1 = length (whatsAppMessages w)
     ∧ status x.2 = PENDING ∧ message_type x.2 = PAYMENT_CONFIRMED
     ∧ lead_id x.2 = id lead ∧ phone x.2 = whatsapp lead
     ∧ send_after x.2 = now
     ∧ (∀ i m, whatsAppMessages w !! i = Some m →
          lead_id m = id lead →
          message_type m = LEAD_WELCOME ∨ message_type m = PAYMENT_ABANDONED →
          status m = PENDING →
          ∃ m', whatsAppMessages w' !! i = Some m'
                ∧ status m' = CANCELLED
                ∧ lead_id m' = lead_id m ∧ phone m' = phone m
                ∧ message_type m' = message_type m
                ∧ send_after m' = send_after m
                ∧ message_text m' = message_text m
                ∧ sent_at m' = sent_at m ∧ error m' = error m)
     ∧ (∀ i m, whatsAppMessages w !! i = Some m →
          ¬ (lead_id m = id lead
             ∧ (message_type m = LEAD_WELCOME
                ∨ message_type m = PAYMENT_ABANDONED)
             ∧ status m = PENDING) →
          whatsAppMessages w' !! i = Some m)).
Proof.
  split.
  - destruct (has_succeeded_transaction_dec (id lead) w) as [Hp|Hp];
      [by rewrite queuePaymentAbandonedMessage_paid|].
    destruct (has_active_dec (id lead) PAYMENT_ABANDONED w) as [Ha|Ha];
      [by rewrite queuePaymentAbandonedMessage_skip|].
    rewrite queuePaymentAbandonedMessage_insert by done.
    intros [= <- <-]. simpl. split; [done|].
    split; [apply cancel_pending_length|].
    split; [apply cancel_pending_length|].
    do 5 (split; [done|]). split.
    + intros i m Hi Hl Ht Hs. exists (with_status CANCELLED m).
      split; [|apply with_status_fields].
      apply lookup_app_l_Some.
      rewrite cancel_pending_lookup, Hi. simpl. by rewrite decide_True.
    + intros i m Hi Hnot. apply lookup_app_l_Some.
      rewrite cancel_pending_lookup, Hi. simpl. by rewrite decide_False.
  - destruct (has_active_dec (id lead) PAYMENT_CONFIRMED w) as [Ha|Ha];
      [by rewrite queuePaymentConfirmedMessage_skip|].
    rewrite queuePaymentConfirmedMessage_insert by done.
    intros [= <- <-]. simpl. split; [done|].
    split; [by rewrite !cancel_pending_length|].
    split; [by rewrite !cancel_pending_length|].
    do 5 (split; [done|]). split.
    + intros i m Hi Hl Ht Hs. exists (with_status CANCELLED m).
      split; [|apply with_status_fields].
      apply lookup_app_l_Some.
      rewrite !cancel_pending_lookup, Hi. simpl.
      destruct Ht as [Ht|Ht].
      * rewrite (decide_True (P := _ ∧ message_type m = LEAD_WELCOME ∧ _))
          by done.
        simpl. rewrite decide_False; [done|]. simpl. by intros (_ & _ & ?).
      * rewrite (decide_False (P := _ ∧ message_type m = LEAD_WELCOME ∧ _))
          by (intros (_ & ? & _); congruence).
        simpl. by rewrite decide_True.
    + intros i m Hi Hnot. apply lookup_app_l_Some.
      rewrite !cancel_pending_lookup, Hi. simpl.
      rewrite (decide_False (P := _ ∧ message_type m = LEAD_WELCOME ∧ _))
        by (intros (? & ? & ?); apply Hnot; auto).
      simpl. rewrite decide_False; [done|].
      intros (? & ? & ?). apply Hnot. auto.
Qed.

Lemma C6_witness :
  (status <$> whatsAppMessages charge_created !! 0 = Some PENDING
   ∧ ∃ m', whatsAppMessages checkout_started !! 0 = Some m'
           ∧ status m' = CANCELLED ∧ message_type m' = LEAD_WELCOME)
  ∧ (status <$> whatsAppMessages checkout_started !! 1 = Some PENDING
     ∧ ∃ m', whatsAppMessages
               (queuePaymentConfirmedMessage (T0 + 40000) ana
                  checkout_started).2 !! 1 = Some m'
             ∧ status m' = CANCELLED ∧ message_type m' = PAYMENT_ABANDONED).
Proof.
  split; (split; [vm_compute; reflexivity|]).
  - destruct (C6_cascade_cancellation (T0 + 30000) ana charge_created
                (1, new_message ana PAYMENT_ABANDONED (T0 + 30000))
                checkout_started) as [Hab _].
    destruct (Hab ltac:(vm_compute; reflexivity))
      as (_ & _ & _ & _ & _ & _ & _ & _ & Hrows & _).
    destruct (Hrows 0 (new_message ana LEAD_WELCOME (T0 + 120000)))
      as (m' & Hrow & Hst & _ & _ & Hty & _);
      [vm_compute; reflexivity|reflexivity|reflexivity|reflexivity|].
    exists m'. split; [exact Hrow|]. split; [exact Hst|exact Hty].
  - destruct (C6_cascade_cancellation (T0 + 40000) ana checkout_started
                (2, new_message ana PAYMENT_CONFIRMED (T0 + 40000))
                (queuePaymentConfirmedMessage (T0 + 40000) ana
                   checkout_started).2) as [_ Hco].
    destruct (Hco ltac:(vm_compute; reflexivity))
      as (_ & _ & _ & _ & _ & _ & _ & _ & Hrows & _).
    destruct (Hrows 1 (new_message ana PAYMENT_ABANDONED (T0 + 30000)))
      as (m' & Hrow & Hst & _ & _ & Hty & _);
      [vm_compute; reflexivity|reflexivity|right; reflexivity|reflexivity|].
    exists m'. split; [exact Hrow|]. split; [exact Hst|exact Hty].
Defined.

(** C10. [queueLeadWelcomeMessage] looks at no transaction: whatever
    transactions the lead has (a succeeded one included), if no
    LEAD_WELCOME row of the lead is PENDING or SENT it inserts a new
    PENDING LEAD_WELCOME row, due two minutes later.  The welcome of a
    lead who has a transaction is suppressed later, when the processor
    treats the message: it sets it to CANCELLED and makes no request to
    WAHA. *)
Theorem C10_welcome_ignores_transactions now lead w :
  ¬ has_active (id lead) LEAD_WELCOME w →
  (let row := new_message lead LEAD_WELCOME (now + 120000)%Z in
   queueLeadWelcomeMessage now lead w =
     (Ok (Some (length (whatsAppMessages w), row)),
      set_whatsAppMessages (λ tbl, tbl ++ [row]) w))
  ∧ (∀ env msg included t results w0 m,
       processWhatsappQueue.msg_lead msg = Some included →
       message_type (processWhatsappQueue.msg_row msg) = LEAD_WELCOME →
       head (processWhatsappQueue.il_transactions included) = Some t →
       whatsAppMessages w0 !! processWhatsappQueue.msg_id msg = Some m →
       processWhatsappQueue.processMessage env msg results w0 =
         (Ok (processWhatsappQueue.incr_cancelled results),
          set_whatsAppMessages
            (alter (processWhatsappQueue.data_cancelled
                      (processWhatsappQueue.now env))
               (processWhatsappQueue.msg_id msg)) w0)).
Proof.
  intros Hno. split; [by apply queueLeadWelcomeMessage_insert|].
  intros env msg included t results w0 m Hl Ht Hhd Hi.
  eapply processMessage_cancel; [|done].
  by eapply shouldCancelMessage_welcome.
Qed.

Lemma C10_witness :
  has_succeeded_transaction (id ana) paid_before_welcome
  ∧ status <$> whatsAppMessages
      (queueLeadWelcomeMessage T0 ana paid_before_welcome).2 !! 0
    = Some PENDING.
Proof.
  split.
  - exists 0, (pix_charge 0 succeeded T0). vm_compute. repeat split.
  - assert (¬ has_active (id ana) LEAD_WELCOME paid_before_welcome) as Hno.
    { intros (i & m & Hi & _). vm_compute in Hi. by destruct i. }
    destruct (C10_welcome_ignores_transactions T0 ana paid_before_welcome Hno)
      as [-> _].
    vm_compute. reflexivity.
Defined.

(** C2, as the code has it.  Invariant I1 / P1 holds between
    operations that run one after another, each to completion: in every
    world reached that way there is, for each lead and message type, at
    most one row that is PENDING or SENT; and from such a world each of
    the three queue functions returns null and changes nothing when a
    PENDING or SENT row of its type exists for the lead, and leaves a
    world that satisfies the invariant again.  Nothing makes the check
    and the insert of a queue function one step: two calls that overlap
    can both insert (section "Requests that overlap"). *)
Theorem C2_at_most_one_active w :
  reachable w →
  I1 w
  ∧ ∀ now lead,
      (has_active (id lead) LEAD_WELCOME w →
         queueLeadWelcomeMessage now lead w = (Ok None, w))
      ∧ (has_active (id lead) PAYMENT_ABANDONED w →
         queuePaymentAbandonedMessage now lead w = (Ok None, w))
      ∧ (has_active (id lead) PAYMENT_CONFIRMED w →
         queuePaymentConfirmedMessage now lead w = (Ok None, w))
      ∧ I1 (queueLeadWelcomeMessage now lead w).2
      ∧ I1 (queuePaymentAbandonedMessage now lead w).2
      ∧ I1 (queuePaymentConfirmedMessage now lead w).2.
Proof.
  intros HI%reachable_I1. split; [done|]. intros now lead.
  split; [apply queueLeadWelcomeMessage_skip|].
  split; [apply queuePaymentAbandonedMessage_skip|].
  split; [apply queuePaymentConfirmedMessage_skip|].
  split; [by apply I1_queueLeadWelcomeMessage|].
  split; [by apply I1_queuePaymentAbandonedMessage|].
  by apply I1_queuePaymentConfirmedMessage.
Qed.

Lemma C2_witness :
  reachable checkout_started
  ∧ I1 checkout_started
  ∧ queuePaymentAbandonedMessage (T0 + 31000) ana checkout_started
    = (Ok None, checkout_started).
Proof.
  assert (reachable checkout_started) as Hreach.
  { cbv [checkout_started charge_created run_all foldl].
    repeat apply reachable_run. apply reachable_empty. }
  destruct (C2_at_most_one_active checkout_started Hreach) as [HI Hq].
  split; [exact Hreach|]. split; [exact HI|].
  destruct (Hq (T0 + 31000)%Z ana) as (_ & Hab & _). apply Hab.
  exists 1, (new_message ana PAYMENT_ABANDONED (T0 + 30000)).
  vm_compute. repeat split. left.
Defined.

(** C4, as the code has it.  Status transitions are monotonic for
    operations that run one after another, each to completion.
    Whatever operation runs that way (a cancellation or an enqueue of
    the queue writer, a run of the queue processor, a run of the expiry
    sweeper, a webhook), a row that is already SENT, CANCELLED or FAILED
    is still there afterwards, unchanged: the only rows whose status
    such an operation changes are PENDING ones.  Inside a run of the
    processor that nothing interrupts, each message of the batch is
    still the PENDING row that was selected when its turn comes, so
    every delivery outcome is written to a PENDING row.  When a queue
    writer runs between the batch query and the update, the outcome is
    written over the CANCELLED row (section "Requests that overlap"). *)
Theorem C4_terminal_states_are_final :
  (∀ op w i m,
     whatsAppMessages w !! i = Some m →
     status m ≠ PENDING →
     whatsAppMessages (run op w) !! i = Some m)
  ∧ (∀ env w treated msg rest results,
       processWhatsappQueue.pendingMessages (processWhatsappQueue.now env) w
         = treated ++ msg :: rest →
       ∃ results1 w1,
         processWhatsappQueue.for_of env treated results w = (Ok results1, w1)
         ∧ whatsAppMessages w1 !! processWhatsappQueue.msg_id msg
           = Some (processWhatsappQueue.msg_row msg)
         ∧ status (processWhatsappQueue.msg_row msg) = PENDING).
Proof.
  split; [intros op w i m; apply run_keeps_terminal|].
  intros env w treated msg rest results Hbatch.
  pose proof (pendingMessages_NoDup (processWhatsappQueue.now env) w) as Hnd.
  rewrite Hbatch, fmap_app, fmap_cons in Hnd.
  apply NoDup_app in Hnd as (Hnd1 & Hdisj & _).
  destruct (for_of_spec env treated results w Hnd1)
    as (r1 & w1 & Hrun & _ & _ & _ & Hframe & _).
  { intros msg' Hin.
    apply (pendingMessages_spec (processWhatsappQueue.now env)).
    rewrite Hbatch. apply elem_of_app. by left. }
  exists r1, w1. split; [done|].
  assert (msg ∈ processWhatsappQueue.pendingMessages
                  (processWhatsappQueue.now env) w) as Hin.
  { rewrite Hbatch. apply elem_of_app. right. left. }
  apply pendingMessages_spec in Hin as (Hrow & Hst & _).
  split; [|done]. rewrite Hframe; [done|].
  intros Hin. apply (Hdisj _ Hin). left.
Qed.

Lemma C4_witness :
  status <$> whatsAppMessages paid !! 0 = Some CANCELLED
  ∧ whatsAppMessages
      (run (ProcessWhatsappQueue (cron (T0 + 120000))) paid) !! 0
    = whatsAppMessages paid !! 0.
Proof.
  split; [vm_compute; reflexivity|].
  assert (whatsAppMessages paid !! 0
          = Some (with_status CANCELLED
                    (new_message ana LEAD_WELCOME (T0 + 120000)))) as Hrow
    by (vm_compute; reflexivity).
  rewrite Hrow.
  destruct C4_terminal_states_are_final as [Hfinal _].
  apply (Hfinal (ProcessWhatsappQueue (cron (T0 + 120000))) paid 0 _ Hrow).
  simpl. discriminate.
Defined.

(** The transaction the processor joins to a message is the lead's most
    recent one. *)
Lemma included_transaction_is_latest w leadId included t :
  processWhatsappQueue.include_lead w leadId = Some included →
  head (processWhatsappQueue.il_transactions included) = Some t →
  transactions w !! t.1 = Some t.2 ∧ tx_lead_id t.2 = leadId
  ∧ ∀ j t', transactions w !! j = Some t' → tx_lead_id t' = leadId →
            (tx_created_at t' ≤ tx_created_at t.2)%Z.
Proof.
  unfold processWhatsappQueue.include_lead.
  destruct (leads w !! leadId) as [row|]; [|done]. intros [= <-]. simpl.
  unfold orderBy_desc.
  set (found := Table.findMany _ (transactions w)).
  pose proof (merge_sort_Permutation (desc tx_created_at) found) as Hperm.
  assert (StronglySorted (desc tx_created_at)
            (merge_sort (desc tx_created_at) found)) as Hsorted.
  { apply Sorted_StronglySorted; [|apply Sorted_merge_sort].
    - intros a b c. unfold desc. lia.
    - intros a b. unfold desc. lia. }
  destruct (merge_sort (desc tx_created_at) found) as [|t0 sorted];
    [done|].
  intros [= ->].
  assert (t ∈ found) as [Hlead Hrow]%list_elem_of_filter
    by (rewrite <- Hperm; left).
  destruct t as [i t]. apply elem_of_rows in Hrow. simpl in *.
  split; [done|]. split; [done|]. intros j t' Hj Hlead'.
  assert ((j, t') ∈ found) as Hin.
  { apply elem_of_findMany. by split. }
  rewrite <- Hperm in Hin. apply elem_of_cons in Hin as [[= -> ->]|Hin];
    [lia|].
  apply StronglySorted_inv in Hsorted as [_ Hall].
  rewrite Forall_forall in Hall. by apply (Hall (j, t')).
Qed.

(** What the processor does do for a paid lead.  For every due
    PAYMENT_ABANDONED message it treats, if the lead's most recent
    transaction (the one joined to the message) has status succeeded,
    the message is set to CANCELLED, without rendering a text and
    without a request to WAHA, and is CANCELLED when the run ends. *)
Lemma abandoned_cancelled_when_latest_succeeded env w msg included t :
  msg ∈ processWhatsappQueue.pendingMessages (processWhatsappQueue.now env) w →
  message_type (processWhatsappQueue.msg_row msg) = PAYMENT_ABANDONED →
  processWhatsappQueue.msg_lead msg = Some included →
  head (processWhatsappQueue.il_transactions included) = Some t →
  tx_status t.2 = succeeded →
  (transactions w !! t.1 = Some t.2
   ∧ ∀ j t', transactions w !! j = Some t' →
       tx_lead_id t' = lead_id (processWhatsappQueue.msg_row msg) →
       (tx_created_at t' ≤ tx_created_at t.2)%Z)
  ∧ (∀ results w0 m,
       whatsAppMessages w0 !! processWhatsappQueue.msg_id msg = Some m →
       processWhatsappQueue.processMessage env msg results w0 =
         (Ok (processWhatsappQueue.incr_cancelled results),
          set_whatsAppMessages
            (alter (processWhatsappQueue.data_cancelled
                      (processWhatsappQueue.now env))
               (processWhatsappQueue.msg_id msg)) w0))
  ∧ whatsAppMessages (processWhatsappQueue.handler env w).2
      !! processWhatsappQueue.msg_id msg
    = Some (processWhatsappQueue.data_cancelled
              (processWhatsappQueue.now env)
              (processWhatsappQueue.msg_row msg)).
Proof.
  intros Hin Htype Hlead Hhd Hst.
  assert (∀ w0, processWhatsappQueue.shouldCancelMessage msg w0
                = (Ok (Some "payment_succeeded"), w0)) as Hcancel.
  { intros w0. by eapply shouldCancelMessage_abandoned. }
  split; [|split].
  - pose proof (pendingMessages_spec _ _ _ Hin) as (_ & _ & _ & Hinc).
    rewrite Hlead in Hinc. symmetry in Hinc.
    destruct (included_transaction_is_latest _ _ _ _ Hinc Hhd)
      as (Hrow & _ & Hmax). by split.
  - intros results w0 m Hi. by eapply processMessage_cancel.
  - destruct (processWhatsappQueue_handler_spec env w)
      as (r' & w' & -> & _ & _ & Hdone & _). simpl.
    destruct (Hdone msg Hin) as (data & _ & Hrow & Hdata).
    rewrite Hrow, Hdata; [done|]. by eexists.
Qed.

(** C3 (the code does not do this).  The failing input: Ana has two PIX
    charges, ten seconds apart; the abandoned-payment message is queued
    while both are unpaid, then the older charge is paid.  The lead now
    has a succeeded transaction, and the queue writer, asked again in
    this very state, refuses to queue an abandoned-payment message for
    her.  The processor looks at the most recent transaction only,
    which is the unpaid one: it does not cancel the due message but
    renders it, sends it (one request to WAHA) and marks it SENT. *)
Theorem C3_paid_lead_gets_abandoned_message :
  let w := older_charge_paid in
  let w' := (processWhatsappQueue.handler (cron (T0 + 60000)) w).2 in
  (λ t, (tx_lead_id t, tx_status t, tx_created_at t)) <$> transactions w
    = [(0, succeeded, T0); (0, processing, (T0 + 10000)%Z)]
  ∧ has_succeeded_transaction 0 w
  ∧ queuePaymentAbandonedMessage (T0 + 60000) ana w = (Ok None, w)
  ∧ (λ msg, (processWhatsappQueue.msg_id msg,
             lead_id (processWhatsappQueue.msg_row msg),
             message_type (processWhatsappQueue.msg_row msg)))
      <$> processWhatsappQueue.pendingMessages (T0 + 60000) w
    = [(0, 0, PAYMENT_ABANDONED)]
  ∧ (λ m, (message_type m, status m,
           JS.includes "Vi que voce gerou um pagamento mas nao confirmou"
             <$> message_text m))
      <$> whatsAppMessages w'
    = [(PAYMENT_ABANDONED, SENT, Some true)]
  ∧ fst <$> waha_requests w' = ["5511961060909@c.us"%string].
Proof.
  split; [vm_compute; reflexivity|]. split.
  { exists 0, (pix_charge 0 succeeded T0). vm_compute. repeat split. }
  vm_compute. repeat split.
Qed.

(** C8 as the specification states it fails: the welcome message is
    selected while PENDING, the queue writer cancels it, and the
    processor's update, not conditioned on the status, turns the
    CANCELLED row into SENT. *)
Lemma C8_counterexample :
  processWhatsappQueue.msg_id
    <$> processWhatsappQueue.pendingMessages (T0 + 120000) registered = [0]
  ∧ status <$> whatsAppMessages
      (run (CancelPendingWelcomeMessage 0) registered) !! 0
    = Some CANCELLED
  ∧ (λ msg, status <$> whatsAppMessages
        (processWhatsappQueue.processMessage (cron (T0 + 120000)) msg zero
           (run (CancelPendingWelcomeMessage 0) registered)).2 !! 0)
      <$> processWhatsappQueue.pendingMessages (T0 + 120000) registered
    = [Some SENT].
Proof. vm_compute. repeat split. Qed.

(** C9, as the code has it.  If at most 50 transactions match the
    sweeper's selection at [now] (so that the limit of 50 cuts nothing),
    a run at [now] sets every one of them to canceled; a second run in
    immediate succession (at a time [now'] at which no further
    transaction has come to match) then selects nothing, and answers
    checked = expired = queued = errors = 0 without changing
    anything. *)
Theorem C9_second_sweep_finds_nothing now clock now' clock' w :
  length (Table.findMany (checkExpiredPix.is_pending_pix now)
            (transactions w)) ≤ 50 →
  (∀ r, r ∈ rows (transactions w) →
        checkExpiredPix.is_pending_pix now' r →
        checkExpiredPix.is_pending_pix now r) →
  let w1 := (checkExpiredPix.handler now clock w).2 in
  (∀ i t, transactions w !! i = Some t →
          checkExpiredPix.is_pending_pix now (i, t) →
          tx_status <$> transactions w1 !! i = Some canceled)
  ∧ checkExpiredPix.handler now' clock' w1
    = (checkExpiredPix.Status200 no_results, w1).
Proof.
  intros Hlen Hsame w1. split.
  - intros i t Hi Hp. subst w1.
    destruct (handler_spec now clock w) as (r' & w' & -> & Ht & _). simpl.
    rewrite Ht, cancel_all_lookup, Hi. rewrite decide_True; [done|].
    unfold checkExpiredPix.pendingPixTransactions.
    rewrite take_ge by done. rewrite <- list_fmap_compose.
    apply list_elem_of_fmap. exists (i, t). split; [done|].
    by apply elem_of_findMany.
  - pose proof (handler_nothing_left now clock now' w Hlen Hsame) as Hnil.
    fold w1 in Hnil.
    unfold checkExpiredPix.handler, bind,
      checkExpiredPix.findPendingPixTransactions.
    by rewrite Hnil.
Qed.

Lemma C9_witness :
  (checkExpiredPix.handler (T0 + 17 * 60000)
       (soon_after (T0 + 17 * 60000)) one_unpaid).1
    = checkExpiredPix.Status200
        {| checkExpiredPix.checked := 1; checkExpiredPix.expired := 1;
           checkExpiredPix.queued := 1; checkExpiredPix.errors := 0 |}
  ∧ (checkExpiredPix.handler (T0 + 17 * 60000)
       (soon_after (T0 + 17 * 60000))
       (checkExpiredPix.handler (T0 + 17 * 60000)
       (soon_after (T0 + 17 * 60000)) one_unpaid).2).1
    = checkExpiredPix.Status200 no_results.
Proof.
  split; [vm_compute; reflexivity|].
  destruct (C9_second_sweep_finds_nothing
              (T0 + 17 * 60000) (soon_after (T0 + 17 * 60000))
              (T0 + 17 * 60000) (soon_after (T0 + 17 * 60000))
              one_unpaid) as [_ ->].
  - vm_compute. lia.
  - intros r _ Hr. exact Hr.
  - reflexivity.
Defined.

(** C9 as the specification states it fails: with 51 expired PIX
    charges the first run cancels 50 of them, and the second run, at
    the same time, still expires one. *)
Lemma C9_counterexample :
  (checkExpiredPix.handler (T0 + 17 * 60000)
       (soon_after (T0 + 17 * 60000)) fifty_one_unpaid).1
    = checkExpiredPix.Status200
        {| checkExpiredPix.checked := 50; checkExpiredPix.expired := 50;
           checkExpiredPix.queued := 50; checkExpiredPix.errors := 0 |}
  ∧ (checkExpiredPix.handler (T0 + 17 * 60000)
       (soon_after (T0 + 17 * 60000))
       (checkExpiredPix.handler (T0 + 17 * 60000)
       (soon_after (T0 + 17 * 60000)) fifty_one_unpaid).2).1
    = checkExpiredPix.Status200
        {| checkExpiredPix.checked := 1; checkExpiredPix.expired := 1;
           checkExpiredPix.queued := 1; checkExpiredPix.errors := 0 |}.
Proof. vm_compute. split; reflexivity. Qed.

Lemma prefix_app n b : String.prefix n (n ++ b)%string = true.
Proof.
  induction n as [|a n IH]; simpl; [by destruct b|].
  by destruct (ascii_dec a a).
Qed.

Lemma includes_unfold n hay :
  JS.includes n hay =
    String.prefix n hay
    || match hay with
       | EmptyString => false
       | String _ hay' => JS.includes n hay'
       end.
Proof. by destruct hay. Qed.

Lemma includes_here n b : JS.includes n (n ++ b)%string = true.
Proof. by rewrite includes_unfold, prefix_app. Qed.

Lemma includes_app n a s :
  JS.includes n s = true → JS.includes n (a ++ s)%string = true.
Proof.
  intros Hs. induction a as [|c a IH]; [done|].
  simpl. rewrite IH. apply orb_true_r.
Qed.

(** C7, as the code has it.  The confirmation template validates
    nothing and raises nothing: for every input it returns a text, and
    when the meeting date or the meeting time converts to an invalid
    Date (an invalid [Date] object, or [undefined]) that text contains
    "Invalid Date". *)
Theorem C7_invalid_date_is_rendered h nome meetingDate meetingTime :
  JS.new_Date meetingDate = None ∨ JS.new_Date meetingTime = None →
  JS.includes "Invalid Date"
    (MessageTemplates.paymentConfirmed h nome meetingDate meetingTime)
  = true.
Proof.
  unfold MessageTemplates.paymentConfirmed. intros [-> | ->].
  - change (JS.toLocaleDateString _ None) with "Invalid Date"%string.
    do 7 apply includes_app. apply includes_here.
  - change (JS.toLocaleTimeString _ None) with "Invalid Date"%string.
    do 5 apply includes_app. apply includes_here.
Qed.

Lemma C7_witness :
  JS.includes "Invalid Date"
    (MessageTemplates.paymentConfirmed
       {| clock := T0; tz_minutes := 0 |} "Ana Silva"
       (JS.DateObject None) (JS.DateObject (Some 68400000%Z)))
  = true.
Proof.
  apply C7_invalid_date_is_rendered. left. reflexivity.
Defined.

(** C7 as the specification states it fails: with an [undefined]
    meeting date the template returns, silently, a text that reads
    "... te espero no dia Invalid Date as 19:00 ...". *)
Lemma C7_counterexample :
  MessageTemplates.paymentConfirmed
    {| clock := T0; tz_minutes := 0 |} "Ana Silva"
    JS.Undefined (JS.DateObject (Some 68400000%Z))
  = "Ola Ana, boa tarde, tudo bom? Vi que voce efetivou a compra da otimizacao, seu horario e as 19:00 e demoramos 4 horas pra fazer a otimizacao, caso queira remarcar, so me avisar, te espero no dia Invalid Date as 19:00 pelo discord, forte abraco"%string.
Proof. vm_compute. reflexivity. Qed.

(** C1 (the code does not do this).  The failing inputs: Ana has
    registered and generated a PIX charge, and OpenPix reports
    CHARGE_COMPLETED for it; or she has started a card payment, and
    Stripe reports payment_intent.succeeded for it.  Each webhook marks
    the transaction succeeded and leaves the message table exactly as it
    was: the PENDING rows stay PENDING and no PAYMENT_CONFIRMED row is
    enqueued. *)
Theorem C1_webhook_success_leaves_queue_untouched :
  let openpix w :=
    (openpixWebhook.handler (T0 + 40000) true CHARGE_COMPLETED 0 w).2 in
  let checkout w :=
    (checkoutWebhook.handleOpenPixWebhook (T0 + 40000) CHARGE_COMPLETED 0 w).2 in
  let stripe w :=
    (checkoutWebhook.handleStripeWebhook (T0 + 40000)
       checkoutWebhook.payment_intent_succeeded
       {| checkoutWebhook.pi_id := "pi_1";
          checkoutWebhook.payment_method_types := ["card"%string] |} w).2 in
  let queue w :=
    (λ m, (message_type m, status m)) <$> whatsAppMessages w in
  queue charge_created = [(LEAD_WELCOME, PENDING)]
  ∧ tx_status <$> transactions (openpix charge_created) = [succeeded]
  ∧ queue (openpix charge_created) = [(LEAD_WELCOME, PENDING)]
  ∧ tx_status <$> transactions (checkout charge_created) = [succeeded]
  ∧ queue (checkout charge_created) = [(LEAD_WELCOME, PENDING)]
  ∧ queue checkout_started
    = [(LEAD_WELCOME, CANCELLED); (PAYMENT_ABANDONED, PENDING)]
  ∧ tx_status <$> transactions (openpix checkout_started) = [succeeded]
  ∧ queue (openpix checkout_started)
    = [(LEAD_WELCOME, CANCELLED); (PAYMENT_ABANDONED, PENDING)]
  ∧ queue (checkout checkout_started)
    = [(LEAD_WELCOME, CANCELLED); (PAYMENT_ABANDONED, PENDING)]
  ∧ queue card_payment_started = [(LEAD_WELCOME, PENDING)]
  ∧ tx_status <$> transactions (stripe card_payment_started) = [succeeded]
  ∧ queue (stripe card_payment_started) = [(LEAD_WELCOME, PENDING)].
Proof. vm_compute. repeat split. Qed.
End Claims.

(** * Further properties of the code *)

(** ** The queue processor, message by message *)

Section ProcessorCases.
Import whatsapp processWhatsappQueue.
Implicit Types (w : World) (env : Env) (msg : PendingMessage)
  (results : Results).

Lemma processMessage_cases env msg results w m :
  whatsAppMessages w !! msg_id msg = Some m →
  ∃ results' w',
    processMessage env msg results w = (Ok results', w')
    ∧ processed_as env msg results w results' w'.
Proof.
  intros Hi. unfold processMessage, try_catch, bind.
  destruct (shouldCancelMessage_reads msg w) as [x ->].
  destruct x as [[reason|]|e].
  - rewrite (update_message_ok _ _ _ _ Hi). unfold ret.
    eexists _, _. split; [done|]. constructor.
  - destruct (generateMessageText_reads (host env) msg w) as [y ->].
    destruct y as [[text|]|e].
    + destruct text as [|c text].
      * rewrite (update_message_ok _ _ _ _ Hi). unfold ret.
        eexists _, _. split; [done|]. constructor.
      * unfold sendWhatsAppMessage.
        destruct (String.eqb (WAHA_API_KEY (waha env)) "") eqn:Ekey.
        -- unfold ret. simpl. rewrite (update_message_ok _ _ _ _ Hi).
           eexists _, _. split; [done|]. constructor.
        -- apply String.eqb_neq in Ekey.
           destruct (fetch_sendText _ _ _ _); simpl;
             (erewrite update_message_ok by (simpl; exact Hi));
             eexists _, _; (split; [done|]); by constructor.
    + rewrite (update_message_ok _ _ _ _ Hi). unfold ret.
      eexists _, _. split; [done|]. constructor.
    + rewrite (update_message_ok _ _ _ _ Hi). unfold ret.
      eexists _, _. split; [done|]. constructor.
  - rewrite (update_message_ok _ _ _ _ Hi). unfold ret.
    eexists _, _. split; [done|]. constructor.
Qed.

Lemma processed_as_length env msg r w r' w' :
  processed_as env msg r w r' w' →
  length (whatsAppMessages w') = length (whatsAppMessages w).
Proof. destruct 1; simpl; apply length_alter. Qed.

(** The counters and the WAHA log along the loop. *)
Lemma for_of_counters env batch : ∀ results w,
  (∀ msg, msg ∈ batch → msg_id msg < length (whatsAppMessages w)) →
  ∃ results' w',
    for_of env batch results w = (Ok results', w')
    ∧ length (whatsAppMessages w') = length (whatsAppMessages w)
    ∧ processed results' = processed results + length batch
    ∧ sent results ≤ sent results'
    ∧ failed results ≤ failed results'
    ∧ cancelled results ≤ cancelled results'
    ∧ sent results' + failed results' + cancelled results'
      = sent results + failed results + cancelled results + length batch
    ∧ (∃ reqs, waha_requests w' = waha_requests w ++ reqs
               ∧ sent results' - sent results ≤ length reqs
               ∧ length reqs
                 ≤ (sent results' - sent results)
                   + (failed results' - failed results))
    ∧ (WAHA_API_KEY (waha env) = ""%string →
       waha_requests w' = waha_requests w ∧ sent results' = sent results).
Proof.
  induction batch as [|msg rest IH]; intros results w Hrows.
  - exists results, w. simpl. unfold ret.
    repeat split; try done; try lia.
    exists []. rewrite app_nil_r. simpl. split; [done|lia].
  - assert (is_Some (whatsAppMessages w !! msg_id msg)) as [m Hm].
    { apply lookup_lt_is_Some, Hrows. left. }
    destruct (processMessage_cases env msg (incr_processed results) w m Hm)
      as (r1 & w1 & Hrun & Has).
    pose proof (processed_as_length _ _ _ _ _ _ Has) as Hlen1.
    destruct (IH r1 w1) as (r' & w' & Hloop & Hlen & Hp & Hs & Hf & Hc & Hsum
                             & (reqs & Hreqs & Hlo & Hhi) & Hkey).
    { intros msg' Hin. rewrite Hlen1. apply Hrows. by right. }
    exists r', w'. split; [simpl; unfold bind; by rewrite Hrun|].
    split; [congruence|].
    destruct Has as [|e|e text Hk|text Hk]; simpl in *.
    + repeat split; try lia.
      * exists reqs. split; [done|lia].
      * by apply Hkey. 
      * by apply Hkey.
    + repeat split; try lia.
      * exists reqs. split; [done|lia].
      * by apply Hkey.
      * by apply Hkey.
    + repeat split; try lia; try done.
      exists ([(formatChatId (phone (msg_row msg)), text)] ++ reqs).
      rewrite Hreqs, <- app_assoc, length_app. simpl. split; [done|lia].
    + repeat split; try lia; try done.
      exists ([(formatChatId (phone (msg_row msg)), text)] ++ reqs).
      rewrite Hreqs, <- app_assoc, length_app. simpl. split; [done|lia].
Qed.
End ProcessorCases.

(** ** The queue processor, run by run *)

Section ProcessorRuns.
Import whatsapp processWhatsappQueue.
Implicit Types (w : World) (env : Env) (msg : PendingMessage)
  (results : Results).

Lemma length_filter_imap {A B} (P : B → Prop) (Q : A → Prop)
    `{!∀ y, Decision (P y)} `{!∀ x, Decision (Q x)} (l : list A) :
  ∀ f : nat → A → B,
  (∀ i x, P (f i x) ↔ Q x) →
  length (filter P (imap f l)) = length (filter Q l).
Proof.
  induction l as [|x l IH]; intros f Hf; [done|].
  rewrite imap_cons, !filter_cons.
  destruct (decide (P (f 0 x))) as [HP|HP]; destruct (decide (Q x)) as [HQ|HQ];
    simpl; try (by rewrite (IH (f ∘ S)) by (intros; apply Hf)).
  - destruct HQ. by apply Hf in HP.
  - destruct HP. by apply Hf.
Qed.

Lemma length_pendingMessages now w :
  length (pendingMessages now w)
  = 20 `min` length (filter (due now) (whatsAppMessages w)).
Proof.
  unfold pendingMessages, orderBy_asc, Table.findMany, rows.
  rewrite length_fmap, length_take, merge_sort_Permutation.
  f_equal. by apply length_filter_imap.
Qed.


Lemma handler_run env w :
  ∃ results' w',
    handler env w = (Status200 results', w')
    ∧ for_of env (pendingMessages (now env) w)
        {| processed := 0; sent := 0; failed := 0; cancelled := 0 |} w
      = (Ok results', w').
Proof.
  destruct (processWhatsappQueue_handler_spec env w) as (r' & w' & Hh & _).
  exists r', w'. split; [done|].
  unfold handler, bind, findPendingMessages in Hh.
  destruct (for_of _ _ _ _) as [[r|e] w2]; by simplify_eq.
Qed.

(** X1. A run of the processor always answers 200.  It treats the due
    PENDING messages, 20 at most; every treated message is counted once
    as sent, failed or cancelled; and the requests it adds to the WAHA
    log are at least the sent ones and at most the sent and failed
    ones. *)
Theorem X1_processor_counters env w :
  ∃ results' w' reqs,
    handler env w = (Status200 results', w')
    ∧ processed results'
      = 20 `min` length (filter (due (now env)) (whatsAppMessages w))
    ∧ processed results'
      = sent results' + failed results' + cancelled results'
    ∧ waha_requests w' = waha_requests w ++ reqs
    ∧ sent results' ≤ length reqs
    ∧ length reqs ≤ sent results' + failed results'
    ∧ length (whatsAppMessages w') = length (whatsAppMessages w).
Proof.
  destruct (handler_run env w) as (r' & w' & Hh & Hloop).
  destruct (for_of_counters env (pendingMessages (now env) w)
              {| processed := 0; sent := 0; failed := 0; cancelled := 0 |} w)
    as (r'' & w'' & Hloop' & Hlen & Hp & _ & _ & _ & Hsum
        & (reqs & Hreqs & Hlo & Hhi) & _).
  { intros msg (Hrow & _)%pendingMessages_spec. by eapply lookup_lt_Some. }
  rewrite Hloop in Hloop'. injection Hloop' as <- <-.
  exists r', w', reqs. simpl in *.
  rewrite length_pendingMessages in Hp, Hsum.
  repeat split; try done; lia.
Qed.

(** X2. Without a WAHA API key a run of the processor sends nothing: no
    request is made, no message is counted as sent, and every treated
    message is counted as failed or cancelled. *)
Theorem X2_no_api_key_no_request env w :
  WAHA_API_KEY (waha env) = ""%string →
  ∃ results' w',
    handler env w = (Status200 results', w')
    ∧ waha_requests w' = waha_requests w
    ∧ sent results' = 0
    ∧ processed results' = failed results' + cancelled results'
    ∧ ∀ i m', whatsAppMessages w' !! i = Some m' → status m' = SENT →
              whatsAppMessages w !! i = Some m'.
Proof.
  intros Hkey.
  destruct (handler_run env w) as (r' & w' & Hh & Hloop).
  destruct (for_of_counters env (pendingMessages (now env) w)
              {| processed := 0; sent := 0; failed := 0; cancelled := 0 |} w)
    as (r'' & w'' & Hloop' & Hlen & Hp & _ & _ & _ & Hsum & _ & Hnokey).
  { intros msg (Hrow & _)%pendingMessages_spec. by eapply lookup_lt_Some. }
  rewrite Hloop in Hloop'. injection Hloop' as <- <-.
  destruct (Hnokey Hkey) as [Hlog Hsent]. simpl in *.
  exists r', w'. split; [done|]. split; [done|]. split; [done|].
  split; [lia|].
  intros i m' Hi Hst.
  destruct (processWhatsappQueue_handler_spec env w)
    as (r2 & w2 & Hh2 & _ & Hframe & Hdone & _).
  rewrite Hh in Hh2. injection Hh2 as <- <-.
  destruct (decide (i ∈ msg_id <$> pendingMessages (now env) w)) as [Hin|Hout];
    [|by rewrite <- Hframe].
  exfalso. apply list_elem_of_fmap in Hin as (msg & -> & Hin).
  (* a row of the batch that ends SENT would have been counted *)
  clear Hframe Hdone. revert Hi Hst.
  assert (∀ batch results w0 r1 w1,
            for_of env batch results w0 = (Ok r1, w1) →
            (∀ msg0, msg0 ∈ batch →
               msg_id msg0 < length (whatsAppMessages w0)) →
            ∀ j mj, whatsAppMessages w1 !! j = Some mj → status mj = SENT →
                    whatsAppMessages w0 !! j = Some mj) as Hnone.
  { clear -Hkey. induction batch as [|msg0 rest IH];
      intros results w0 r1 w1 Hrun Hrows j mj Hj Hsent.
    - simpl in Hrun. unfold ret in Hrun. by simplify_eq.
    - assert (is_Some (whatsAppMessages w0 !! msg_id msg0)) as [m0 Hm0].
      { apply lookup_lt_is_Some, Hrows. left. }
      destruct (processMessage_cases env msg0 (incr_processed results) w0 m0 Hm0)
        as (r2 & w2 & Hstep & Has).
      simpl in Hrun. unfold bind in Hrun. rewrite Hstep in Hrun.
      pose proof (processed_as_length _ _ _ _ _ _ Has) as Hlen.
      specialize (IH r2 w2 r1 w1 Hrun).
      assert (whatsAppMessages w2 !! j = Some mj) as Hj2.
      { apply IH; [|done|done]. intros msg1 Hin1. rewrite Hlen.
        apply Hrows. by right. }
      destruct (decide (msg_id msg0 = j)) as [Heq|Hne].
      + exfalso. rewrite <- Heq in Hj2.
        destruct Has as [|e|e text Hk|text Hk]; try done; simpl in Hj2;
          rewrite list_lookup_alter_eq, Hm0 in Hj2; simpl in Hj2;
          by simplify_eq.
      + destruct Has as [|e|e text Hk|text Hk]; try done; simpl in Hj2;
          by rewrite list_lookup_alter_ne in Hj2. }
  intros Hi Hst. 
  pose proof (Hnone _ _ _ _ _ Hloop) as Hn.
  specialize (Hn ltac:(intros msg0 (Hrow & _)%pendingMessages_spec;
                       by eapply lookup_lt_Some) _ _ Hi Hst).
  apply pendingMessages_spec in Hin as (Hrow & Hpending & _).
  rewrite Hrow in Hn. injection Hn as <-. rewrite Hpending in Hst. done.
Qed.
End ProcessorRuns.

(** ** One message of a run, at its turn *)

Section ProcessorTurns.
Import whatsapp processWhatsappQueue.
Implicit Types (w : World) (env : Env) (msg : PendingMessage)
  (results : Results).










End ProcessorTurns.

(** ** What a run of the processor does to one message *)

Section ProcessorOutcomes.
Import whatsapp processWhatsappQueue Examples Scenarios.
Implicit Types (w : World) (env : Env) (msg : PendingMessage)
  (results : Results).

Lemma generateMessageText_const h msg w w1 x :
  generateMessageText h msg w = (x, w) →
  generateMessageText h msg w1 = (x, w1).
Proof.
  unfold generateMessageText. destruct (msg_lead msg) as [il|].
  - destruct (message_type (msg_row msg)); [| |destruct (head _)];
      unfold ret; intros Heq; by simplify_eq.
  - unfold throw. intros Heq. by simplify_eq.
Qed.









End ProcessorOutcomes.

(** ** What a run of the processor leaves alone *)

Section ProcessorFrame.
Import whatsapp processWhatsappQueue Examples Scenarios.
Implicit Types (w : World) (env : Env) (msg : PendingMessage).

(** X6. A message is never touched before its time: a row whose
    [send_after] is later than the clock of the run is the same row
    after the run. *)
Theorem X6_not_due_is_left_alone env w i m :
  whatsAppMessages w !! i = Some m →
  (now env < send_after m)%Z →
  whatsAppMessages (handler env w).2 !! i = Some m.
Proof.
  intros Hi Hlater.
  destruct (processWhatsappQueue_handler_spec env w)
    as (r' & w' & Hh & _ & Hframe & _).
  rewrite Hh. simpl. rewrite Hframe; [done|].
  intros (msg & -> & Hin)%list_elem_of_fmap.
  apply pendingMessages_spec in Hin as (Hrow & _ & Hdue & _).
  rewrite Hrow in Hi. injection Hi as <-. lia.
Qed.

Lemma X6_witness :
  whatsAppMessages (handler (cron (T0 + 119999)) registered).2 !! 0
  = Some (new_message ana LEAD_WELCOME (T0 + 120000)).
Proof.
  apply (X6_not_due_is_left_alone (cron (T0 + 119999)) registered 0).
  - reflexivity.
  - vm_compute. reflexivity.
Defined.

Lemma all_due_selected now w i m :
  length (filter (due now) (whatsAppMessages w)) ≤ 20 →
  whatsAppMessages w !! i = Some m → due now m →
  i ∈ msg_id <$> pendingMessages now w.
Proof.
  intros Hfew Hi [Hpending Hdue].
  unfold pendingMessages. rewrite <- list_fmap_compose.
  change (msg_id ∘ _) with (@fst nat WhatsAppMessage).
  rewrite take_ge.
  - apply (list_elem_of_fmap_2' _ _ (i, m)); [|done].
    unfold orderBy_asc. rewrite merge_sort_Permutation.
    by apply elem_of_findMany.
  - unfold orderBy_asc. rewrite merge_sort_Permutation.
    unfold Table.findMany, rows.
    erewrite (length_filter_imap _ (due now)); [done|done].
Qed.

(** X7. When at most 20 messages are due, one run treats them all: a
    second run, with a clock not later than the first, finds no message,
    reports zeroes and changes nothing. *)
Theorem X7_second_run_is_idle env env' w :
  length (filter (due (now env)) (whatsAppMessages w)) ≤ 20 →
  (now env' ≤ now env)%Z →
  handler env' (handler env w).2
  = (Status200 {| processed := 0; sent := 0; failed := 0; cancelled := 0 |},
     (handler env w).2).
Proof.
  intros Hfew Hclock.
  destruct (processWhatsappQueue_handler_spec env w)
    as (r' & w' & Hh & _ & Hframe & Hdone & _).
  rewrite Hh. simpl.
  assert (pendingMessages (now env') w' = []) as Hnone.
  { destruct (pendingMessages (now env') w') as [|msg rest] eqn:E; [done|].
    exfalso.
    assert (msg ∈ pendingMessages (now env') w') as Hin by (rewrite E; left).
    apply pendingMessages_spec in Hin as (Hrow & Hpending & Hdue & _).
    destruct (decide (msg_id msg ∈ msg_id <$> pendingMessages (now env) w))
      as [Hsel|Hout].
    - apply list_elem_of_fmap in Hsel as (msg0 & Hid & Hsel).
      destruct (Hdone msg0 Hsel) as (data & Hdata & Hrow' & _).
      rewrite <- Hid, Hrow in Hrow'. injection Hrow' as Heq.
      destruct (is_outcome_fields _ _ (msg_row msg0) Hdata)
        as (_ & _ & _ & _ & Hst).
      rewrite <- Heq, Hpending in Hst. elem_of_cases Hst.
    - apply Hout. rewrite (Hframe _ Hout) in Hrow.
      apply (all_due_selected _ _ _ (msg_row msg) Hfew Hrow).
      split; [done|lia]. }
  unfold handler, bind, findPendingMessages. by rewrite Hnone.
Qed.

Lemma X7_witness :
  handler (cron (T0 + 120000)) (handler (cron (T0 + 120000)) registered).2
  = (Status200 {| processed := 0; sent := 0; failed := 0; cancelled := 0 |},
     (handler (cron (T0 + 120000)) registered).2).
Proof.
  apply (X7_second_run_is_idle (cron (T0 + 120000)) (cron (T0 + 120000))
           registered).
  - vm_compute. lia.
  - vm_compute. discriminate.
Defined.

Lemma X2_witness :
  ∃ results' w',
    handler (cron_without_key (T0 + 120000)) registered
      = (Status200 results', w')
    ∧ waha_requests w' = waha_requests registered
    ∧ sent results' = 0
    ∧ processed results' = failed results' + cancelled results'
    ∧ ∀ i m', whatsAppMessages w' !! i = Some m' → status m' = SENT →
              whatsAppMessages registered !! i = Some m'.
Proof.
  apply (X2_no_api_key_no_request (cron_without_key (T0 + 120000)) registered).
  reflexivity.
Defined.
End ProcessorFrame.

(** ** The queue writer, called again *)

Section WriterAgain.
Import messageQueue Examples.
Implicit Types (w : World) (lead : Lead) (now : Z).

Lemma has_active_appended row w :
  active row →
  has_active (lead_id row) (message_type row)
    (set_whatsAppMessages (λ tbl, tbl ++ [row]) w).
Proof.
  intros Hactive. exists (length (whatsAppMessages w)), row.
  split; [simpl; apply list_lookup_middle; done | done].
Qed.

Lemma active_PENDING m : status m = PENDING → active m.
Proof. intros Hst. unfold active. rewrite Hst. left. Qed.

(** X8. Each queue function is idempotent: called again for the same
    lead right after itself (at any later clock), it returns null and
    changes nothing. *)
Theorem X8_queueing_twice_is_queueing_once now now' lead w :
  (let w1 := (queueLeadWelcomeMessage now lead w).2 in
   queueLeadWelcomeMessage now' lead w1 = (Ok None, w1))
  ∧ (let w1 := (queuePaymentAbandonedMessage now lead w).2 in
     queuePaymentAbandonedMessage now' lead w1 = (Ok None, w1))
  ∧ (let w1 := (queuePaymentConfirmedMessage now lead w).2 in
     queuePaymentConfirmedMessage now' lead w1 = (Ok None, w1)).
Proof.
  split; [|split]; intros w1; subst w1.
  - destruct (has_active_dec (id lead) LEAD_WELCOME w) as [Hyes|Hno].
    + rewrite (queueLeadWelcomeMessage_skip now lead w Hyes).
      by apply queueLeadWelcomeMessage_skip.
    + rewrite (queueLeadWelcomeMessage_insert now lead w Hno).
      apply queueLeadWelcomeMessage_skip.
      by apply (has_active_appended (new_message lead LEAD_WELCOME _)),
        active_PENDING.
  - destruct (has_succeeded_transaction_dec (id lead) w) as [Hpaid|Hunpaid].
    { rewrite (queuePaymentAbandonedMessage_paid now lead w Hpaid).
      by apply queuePaymentAbandonedMessage_paid. }
    destruct (has_active_dec (id lead) PAYMENT_ABANDONED w) as [Hyes|Hno].
    + rewrite (queuePaymentAbandonedMessage_skip now lead w Hyes).
      by apply queuePaymentAbandonedMessage_skip.
    + rewrite (queuePaymentAbandonedMessage_insert now lead w Hunpaid Hno).
      apply queuePaymentAbandonedMessage_skip.
      eexists _, (new_message lead PAYMENT_ABANDONED now).
      split; [simpl; apply list_lookup_middle; done|].
      split; [done|]. split; [done|]. by apply active_PENDING.
  - destruct (has_active_dec (id lead) PAYMENT_CONFIRMED w) as [Hyes|Hno].
    + rewrite (queuePaymentConfirmedMessage_skip now lead w Hyes).
      by apply queuePaymentConfirmedMessage_skip.
    + rewrite (queuePaymentConfirmedMessage_insert now lead w Hno).
      apply queuePaymentConfirmedMessage_skip.
      eexists _, (new_message lead PAYMENT_CONFIRMED now).
      split; [simpl; apply list_lookup_middle; done|].
      split; [done|]. split; [done|]. by apply active_PENDING.
Qed.

Lemma cancel_pending_idem leadId type tbl :
  cancel_pending leadId type (cancel_pending leadId type tbl)
  = cancel_pending leadId type tbl.
Proof.
  unfold cancel_pending. rewrite <- list_fmap_compose.
  apply list_fmap_ext. intros i m _. simpl.
  destruct (decide (lead_id m = leadId ∧ message_type m = type
                    ∧ status m = PENDING)) as [Hm|Hm].
  - rewrite decide_False; [done|]. simpl. intros (_ & _ & Hst). done.
  - by rewrite decide_False.
Qed.

Lemma filter_cancel_pending leadId type tbl :
  filter (λ m, lead_id m = leadId ∧ message_type m = type
               ∧ status m = PENDING) (cancel_pending leadId type tbl) = [].
Proof.
  induction tbl as [|m tbl IH]; [done|].
  unfold cancel_pending in *. rewrite fmap_cons, filter_cons, IH.
  destruct (decide (lead_id m = leadId ∧ message_type m = type
                    ∧ status m = PENDING)) as [Hm|Hm].
  - rewrite decide_False; [done|]. simpl. intros (_ & _ & Hst). done.
  - by rewrite decide_False.
Qed.

Lemma set_whatsAppMessages_twice f g w :
  set_whatsAppMessages g (set_whatsAppMessages f w)
  = set_whatsAppMessages (λ tbl, g (f tbl)) w.
Proof. done. Qed.

(** X9. [cancelPendingWelcomeMessage] and [cancelPendingAbandonedMessage]
    return the number of PENDING rows of their type that the lead had,
    turn exactly these rows to CANCELLED (every other row, and every
    other field, is kept), and called again return 0 and change
    nothing. *)
Theorem X9_cancelling_pending_messages :
  cancels_pending LEAD_WELCOME cancelPendingWelcomeMessage
  ∧ cancels_pending PAYMENT_ABANDONED cancelPendingAbandonedMessage.
Proof.
  split; intros leadId w.
  - rewrite cancelPendingWelcomeMessage_eq. eexists _, _. split; [done|].
    split; [done|]. split; [apply cancel_pending_length|].
    split; [|split; [done|]].
    + intros i m Hi. simpl. by rewrite cancel_pending_lookup, Hi.
    + rewrite cancelPendingWelcomeMessage_eq. simpl.
      rewrite filter_cancel_pending, set_whatsAppMessages_twice.
      unfold set_whatsAppMessages. simpl.
      by rewrite cancel_pending_idem.
  - rewrite cancelPendingAbandonedMessage_eq. eexists _, _. split; [done|].
    split; [done|]. split; [apply cancel_pending_length|].
    split; [|split; [done|]].
    + intros i m Hi. simpl. by rewrite cancel_pending_lookup, Hi.
    + rewrite cancelPendingAbandonedMessage_eq. simpl.
      rewrite filter_cancel_pending, set_whatsAppMessages_twice.
      unfold set_whatsAppMessages. simpl.
      by rewrite cancel_pending_idem.
Qed.
End WriterAgain.

(** ** The sweeper, charge by charge *)

Section SweeperLoop.
Import messageQueue checkExpiredPix.
Implicit Types (w : World) (now : Z) (results : Results)
  (p : PixTransaction).

Lemma queuePaymentAbandonedMessage_Ok now lead w :
  ∃ x, queuePaymentAbandonedMessage now lead w
       = (Ok x, (queuePaymentAbandonedMessage now lead w).2).
Proof.
  destruct (queuePaymentAbandonedMessage_frame now lead w)
    as (x & w' & Hq & _).
  exists x. by rewrite Hq.
Qed.

(** What the loop body does with a selected charge. *)
Lemma checkTransaction_cases now clock p results w t :
  (16 ≤ (now - tx_created_at (pix_row p)) / 1000 / 60)%Z →
  transactions w !! pix_id p = Some t →
  checkTransaction now clock p results w =
    match pix_lead p with
    | Some lead =>
        (Ok (incr_queued (incr_expired results)),
         (queuePaymentAbandonedMessage (clock (pix_id p)) lead
            (cancel_transaction (pix_id p) w)).2)
    | None =>
        (Ok (incr_errors (incr_expired results)),
         cancel_transaction (pix_id p) w)
    end.
Proof.
  intros Hmin%Z.leb_le Ht.
  unfold checkTransaction, try_catch, bind. rewrite Hmin.
  unfold prisma.transaction.update, Table.update. rewrite Ht.
  fold (cancel_transaction (pix_id p) w).
  destruct (pix_lead p) as [lead|]; [|done].
  destruct (queuePaymentAbandonedMessage_Ok (clock (pix_id p)) lead
              (cancel_transaction (pix_id p) w)) as [x Hq].
  by rewrite Hq.
Qed.

Lemma cancel_transaction_length i w :
  length (transactions (cancel_transaction i w)) = length (transactions w).
Proof. simpl. apply length_alter. Qed.

Lemma queuePaymentAbandonedMessage_tables now lead w :
  same_tables w (queuePaymentAbandonedMessage now lead w).2.
Proof.
  destruct (queuePaymentAbandonedMessage_frame now lead w)
    as (x & w' & Hq & Hsame & _).
  by rewrite Hq.
Qed.

Lemma sweep_for_of_app now clock batch1 batch2 : ∀ results w,
  for_of now clock (batch1 ++ batch2) results w =
    bind (for_of now clock batch1 results) (λ r, for_of now clock batch2 r) w.
Proof.
  induction batch1 as [|p rest IH]; intros results w; [done|].
  simpl. unfold bind in *.
  destruct (checkTransaction now clock p (incr_checked results) w) as [[r1|e] w1];
    [apply IH|done].
Qed.

(** Any preorder on worlds that the two writes of the loop body respect
    holds between the world before and the world after the loop. *)
Lemma sweep_loop (R : World → World → Prop) now clock :
  (∀ w, R w w) → (∀ w1 w2 w3, R w1 w2 → R w2 w3 → R w1 w3) →
  (∀ i w, R w (cancel_transaction i w)) →
  (∀ i lead w,
     R w (queuePaymentAbandonedMessage (clock i) lead w).2) →
  ∀ batch results w,
    (∀ p, p ∈ batch →
       (16 ≤ (now - tx_created_at (pix_row p)) / 1000 / 60)%Z) →
    R w (for_of now clock batch results w).2.
Proof.
  intros Hrefl Htrans Hcancel Hqueue.
  induction batch as [|p batch IH]; intros results w Hmin; [apply Hrefl|].
  simpl. unfold bind.
  assert (R w (checkTransaction now clock p (incr_checked results) w).2
          ∧ ∃ r1, (checkTransaction now clock p (incr_checked results) w).1 = Ok r1)
    as [Hstep [r1 Hok]].
  { destruct (transactions w !! pix_id p) as [t|] eqn:Et.
    - rewrite (checkTransaction_cases now clock p _ w t); [|apply Hmin; left|done].
      destruct (pix_lead p) as [lead|]; simpl.
      + split; [|by eexists]. eapply Htrans; [apply Hcancel|apply Hqueue].
      + split; [apply Hcancel|by eexists].
    - unfold checkTransaction, try_catch, bind.
      assert ((16 <=? (now - tx_created_at (pix_row p)) / 1000 / 60)%Z = true)
        as -> by (apply Z.leb_le, Hmin; left).
      unfold prisma.transaction.update, Table.update. rewrite Et. simpl.
      split; [apply Hrefl|by eexists]. }
  destruct (checkTransaction now clock p (incr_checked results) w) as [r w1].
  simpl in Hok. subst r. simpl in Hstep.
  eapply Htrans; [exact Hstep|]. apply IH. intros; apply Hmin; by right.
Qed.

Lemma handler_loop (R : World → World → Prop) now clock w :
  (∀ w, R w w) → (∀ w1 w2 w3, R w1 w2 → R w2 w3 → R w1 w3) →
  (∀ i w, R w (cancel_transaction i w)) →
  (∀ i lead w,
     R w (queuePaymentAbandonedMessage (clock i) lead w).2) →
  R w (handler now clock w).2.
Proof.
  intros Hrefl Htrans Hcancel Hqueue.
  pose proof (sweep_loop R now clock Hrefl Htrans Hcancel Hqueue
                (pendingPixTransactions now w)
                {| checked := 0; expired := 0; queued := 0; errors := 0 |} w)
    as Hloop.
  unfold handler, bind, findPendingPixTransactions.
  destruct (for_of now clock _ _ w) as [[r|e] w']; simpl in *; apply Hloop;
    intros p [_ Hp]%pendingPixTransactions_spec;
    by apply minutes_of_pending in Hp.
Qed.
End SweeperLoop.

(** ** Rows of the queue are never deleted or re-addressed *)

Section KeepsRows.
Import messageQueue.
Implicit Types (w : World) (lead : Lead) (now : Z).

Lemma keeps_rows_refl w : keeps_rows w w.
Proof. intros i m Hi. by exists m. Qed.

Lemma keeps_rows_trans w1 w2 w3 :
  keeps_rows w1 w2 → keeps_rows w2 w3 → keeps_rows w1 w3.
Proof.
  intros H12 H23 i m Hi.
  destruct (H12 i m Hi) as (m2 & Hi2 & Hl2 & Ht2 & Hp2 & Hs2).
  destruct (H23 i m2 Hi2) as (m3 & Hi3 & Hl3 & Ht3 & Hp3 & Hs3).
  exists m3. repeat split; congruence.
Qed.

Lemma keeps_rows_same w w' :
  whatsAppMessages w' = whatsAppMessages w → keeps_rows w w'.
Proof. intros Heq i m Hi. exists m. by rewrite Heq. Qed.

Lemma keeps_rows_cancel_pending leadId type w :
  keeps_rows w (set_whatsAppMessages (cancel_pending leadId type) w).
Proof.
  intros i m Hi. simpl. rewrite cancel_pending_lookup, Hi. simpl.
  eexists. split; [done|]. by destruct (decide _).
Qed.

Lemma keeps_rows_append row w :
  keeps_rows w (set_whatsAppMessages (λ tbl, tbl ++ [row]) w).
Proof.
  intros i m Hi. exists m. simpl.
  by rewrite lookup_app_l by (by eapply lookup_lt_Some).
Qed.

Lemma keeps_rows_queueLeadWelcomeMessage now lead w :
  keeps_rows w (queueLeadWelcomeMessage now lead w).2.
Proof.
  destruct (has_active_dec (id lead) LEAD_WELCOME w) as [Hyes|Hno].
  - rewrite (queueLeadWelcomeMessage_skip now lead w Hyes).
    apply keeps_rows_refl.
  - rewrite (queueLeadWelcomeMessage_insert now lead w Hno).
    apply keeps_rows_append.
Qed.

Lemma keeps_rows_queuePaymentAbandonedMessage now lead w :
  keeps_rows w (queuePaymentAbandonedMessage now lead w).2.
Proof.
  destruct (has_succeeded_transaction_dec (id lead) w) as [Hpaid|Hunpaid].
  { rewrite (queuePaymentAbandonedMessage_paid now lead w Hpaid).
    apply keeps_rows_refl. }
  destruct (has_active_dec (id lead) PAYMENT_ABANDONED w) as [Hyes|Hno].
  - rewrite (queuePaymentAbandonedMessage_skip now lead w Hyes).
    apply keeps_rows_refl.
  - rewrite (queuePaymentAbandonedMessage_insert now lead w Hunpaid Hno).
    eapply keeps_rows_trans;
      [apply (keeps_rows_cancel_pending (id lead) LEAD_WELCOME)|].
    apply (keeps_rows_append (new_message lead PAYMENT_ABANDONED now)).
Qed.

Lemma keeps_rows_queuePaymentConfirmedMessage now lead w :
  keeps_rows w (queuePaymentConfirmedMessage now lead w).2.
Proof.
  destruct (has_active_dec (id lead) PAYMENT_CONFIRMED w) as [Hyes|Hno].
  - rewrite (queuePaymentConfirmedMessage_skip now lead w Hyes).
    apply keeps_rows_refl.
  - rewrite (queuePaymentConfirmedMessage_insert now lead w Hno).
    eapply keeps_rows_trans;
      [apply (keeps_rows_cancel_pending (id lead) LEAD_WELCOME)|].
    eapply keeps_rows_trans;
      [apply (keeps_rows_cancel_pending (id lead) PAYMENT_ABANDONED)|].
    apply (keeps_rows_append (new_message lead PAYMENT_CONFIRMED now)).
Qed.

Lemma keeps_rows_processor env w :
  keeps_rows w (processWhatsappQueue.handler env w).2.
Proof.
  destruct (processWhatsappQueue_handler_spec env w)
    as (r' & w' & Hh & _ & Hframe & Hdone & _).
  rewrite Hh. simpl. intros i m Hi.
  destruct (decide (i ∈ processWhatsappQueue.msg_id
                      <$> processWhatsappQueue.pendingMessages
                            (processWhatsappQueue.now env) w)) as [Hin|Hout].
  - apply list_elem_of_fmap in Hin as (msg & -> & Hin).
    destruct (Hdone msg Hin) as (data & Hdata & Hrow & _).
    apply pendingMessages_spec in Hin as (Hrow0 & _).
    rewrite Hrow0 in Hi. injection Hi as <-.
    exists (data (processWhatsappQueue.msg_row msg)). split; [done|].
    destruct (is_outcome_fields _ _ (processWhatsappQueue.msg_row msg) Hdata)
      as (? & ? & ? & ? & _).
    done.
  - exists m. by rewrite Hframe.
Qed.

(** X10. No operation deletes a row of the queue or moves it to another
    lead: after any operation, run on any world, every message row is
    still at its id with the same lead, type, phone and send_after (only
    the status and the result fields of a row ever change, and rows are
    only added at the end). *)
Theorem X10_rows_are_kept op w i m :
  whatsAppMessages w !! i = Some m →
  ∃ m', whatsAppMessages (run op w) !! i = Some m'
        ∧ lead_id m' = lead_id m ∧ message_type m' = message_type m
        ∧ phone m' = phone m ∧ send_after m' = send_after m.
Proof.
  revert i m. change (keeps_rows w (run op w)).
  destruct op; cbv [run].
  - rewrite cancelPendingWelcomeMessage_eq. apply keeps_rows_cancel_pending.
  - rewrite cancelPendingAbandonedMessage_eq. apply keeps_rows_cancel_pending.
  - apply keeps_rows_queueLeadWelcomeMessage.
  - apply keeps_rows_queuePaymentAbandonedMessage.
  - apply keeps_rows_queuePaymentConfirmedMessage.
  - apply keeps_rows_processor.
  - apply (handler_loop keeps_rows).
    + apply keeps_rows_refl.
    + apply keeps_rows_trans.
    + intros j w0. by apply keeps_rows_same.
    + intros lead w0. apply keeps_rows_queuePaymentAbandonedMessage.
  - apply keeps_rows_same, openpixWebhook_handler_messages.
  - apply keeps_rows_same, checkoutWebhook_handler_messages.
  - apply keeps_rows_same, handleStripeWebhook_messages.
  - by apply keeps_rows_same.
Qed.

Lemma X10_witness :
  ∃ m', whatsAppMessages
          (run (QueuePaymentAbandonedMessage (Examples.T0 + 30000)
                  Examples.ana) Examples.charge_created) !! 0 = Some m'
        ∧ lead_id m' = 0 ∧ message_type m' = LEAD_WELCOME
        ∧ phone m' = "11961060909"%string
        ∧ send_after m' = (Examples.T0 + 120000)%Z.
Proof.
  apply (X10_rows_are_kept
           (QueuePaymentAbandonedMessage (Examples.T0 + 30000) Examples.ana)
           Examples.charge_created 0
           (new_message Examples.ana LEAD_WELCOME (Examples.T0 + 120000))).
  reflexivity.
Defined.
End KeepsRows.

(** ** What a run of the sweeper reports and touches *)

Section SweeperRuns.
Import messageQueue checkExpiredPix Examples.
Implicit Types (w : World) (now : Z) (results : Results)
  (p : PixTransaction).

Lemma queuePaymentAbandonedMessage_length now lead w :
  let n := length (whatsAppMessages (queuePaymentAbandonedMessage now lead w).2) in
  length (whatsAppMessages w) ≤ n ∧ n ≤ S (length (whatsAppMessages w)).
Proof.
  destruct (has_succeeded_transaction_dec (id lead) w) as [Hpaid|Hunpaid].
  { rewrite (queuePaymentAbandonedMessage_paid now lead w Hpaid). simpl. lia. }
  destruct (has_active_dec (id lead) PAYMENT_ABANDONED w) as [Hyes|Hno].
  - rewrite (queuePaymentAbandonedMessage_skip now lead w Hyes). simpl. lia.
  - rewrite (queuePaymentAbandonedMessage_insert now lead w Hunpaid Hno).
    simpl. rewrite length_app, cancel_pending_length. simpl. lia.
Qed.

Lemma sweep_counters now clock batch : ∀ results w,
  (∀ p, p ∈ batch →
     (16 ≤ (now - tx_created_at (pix_row p)) / 1000 / 60)%Z) →
  (∀ p, p ∈ batch → pix_id p < length (transactions w)) →
  ∃ results' w',
    for_of now clock batch results w = (Ok results', w')
    ∧ length (transactions w') = length (transactions w)
    ∧ checked results' = checked results + length batch
    ∧ expired results' = expired results + length batch
    ∧ queued results' = queued results + length (with_lead batch)
    ∧ errors results' + length (with_lead batch)
      = errors results + length batch
    ∧ length (whatsAppMessages w) ≤ length (whatsAppMessages w')
    ∧ length (whatsAppMessages w')
      ≤ length (whatsAppMessages w) + length (with_lead batch).
Proof.
  induction batch as [|p batch IH]; intros results w Hmin Hrows.
  - exists results, w. simpl. repeat split; lia.
  - assert (is_Some (transactions w !! pix_id p)) as [t Ht].
    { apply lookup_lt_is_Some, Hrows. left. }
    pose proof (checkTransaction_cases now clock p (incr_checked results) w t
                  ltac:(apply Hmin; left) Ht) as Hstep.
    simpl. unfold bind. unfold with_lead. rewrite filter_cons.
    destruct (pix_lead p) as [lead|] eqn:Hlead.
    + rewrite Hstep.
      pose proof (queuePaymentAbandonedMessage_length (clock (pix_id p)) lead
                    (cancel_transaction (pix_id p) w)) as [Hlo Hhi].
      destruct (queuePaymentAbandonedMessage_tables (clock (pix_id p)) lead
                  (cancel_transaction (pix_id p) w)) as (_ & Htx & _).
      set (w1 := (queuePaymentAbandonedMessage (clock (pix_id p)) lead
                    (cancel_transaction (pix_id p) w)).2) in *.
      destruct (IH (incr_queued (incr_expired (incr_checked results))) w1)
        as (r' & w' & Hloop & Hlen & Hc & He & Hq & Herr & Hmlo & Hmhi).
      { intros; apply Hmin; by right. }
      { intros p' Hp'. rewrite Htx, cancel_transaction_length.
        apply Hrows. by right. }
      exists r', w'. split; [done|].
      rewrite Htx, cancel_transaction_length in Hlen.
      rewrite decide_True by done. fold (with_lead batch).
      simpl in *. repeat split; lia.
    + rewrite Hstep.
      destruct (IH (incr_errors (incr_expired (incr_checked results)))
                  (cancel_transaction (pix_id p) w))
        as (r' & w' & Hloop & Hlen & Hc & He & Hq & Herr & Hmlo & Hmhi).
      { intros; apply Hmin; by right. }
      { intros p' Hp'. rewrite cancel_transaction_length.
        apply Hrows. by right. }
      exists r', w'. split; [done|].
      rewrite cancel_transaction_length in Hlen.
      rewrite decide_False by (by intros [? ?]). fold (with_lead batch).
      simpl in *. repeat split; lia.
Qed.

Lemma length_pendingPixTransactions now w :
  length (pendingPixTransactions now w)
  = 50 `min` length (Table.findMany (is_pending_pix now) (transactions w)).
Proof. unfold pendingPixTransactions. by rewrite length_fmap, length_take. Qed.

(** X11. A run of the sweeper always answers 200.  It checks
    min(50, number of unpaid PIX charges at least 16 minutes old)
    charges and expires every one it checks: the age test inside the
    loop never fails for a selected charge.  [queued] counts the
    selected charges whose lead exists, whether or not a message was
    created for them; [errors] counts the others; and at most [queued]
    message rows are added. *)
Theorem X11_sweeper_counters now clock w :
  ∃ results' w',
    handler now clock w = (Status200 results', w')
    ∧ checked results'
      = 50 `min` length (Table.findMany (is_pending_pix now) (transactions w))
    ∧ expired results' = checked results'
    ∧ queued results' = length (with_lead (pendingPixTransactions now w))
    ∧ queued results' + errors results' = expired results'
    ∧ length (whatsAppMessages w) ≤ length (whatsAppMessages w')
    ∧ length (whatsAppMessages w')
      ≤ length (whatsAppMessages w) + queued results'.
Proof.
  destruct (sweep_counters now clock (pendingPixTransactions now w)
              {| checked := 0; expired := 0; queued := 0; errors := 0 |} w)
    as (r' & w' & Hloop & _ & Hc & He & Hq & Herr & Hlo & Hhi).
  { intros p [_ Hp]%pendingPixTransactions_spec.
    by apply minutes_of_pending in Hp. }
  { intros p [Hp _]%pendingPixTransactions_spec. by eapply lookup_lt_Some. }
  exists r', w'. split.
  { unfold handler, bind, findPendingPixTransactions. by rewrite Hloop. }
  rewrite length_pendingPixTransactions in Hc, He, Herr. simpl in *.
  repeat split; lia.
Qed.

Lemma all_expired_selected now w j t :
  length (Table.findMany (is_pending_pix now) (transactions w)) ≤ 50 →
  transactions w !! j = Some t → is_pending_pix now (j, t) →
  j ∈ pix_id <$> pendingPixTransactions now w.
Proof.
  intros Hfew Hj Hp. unfold pendingPixTransactions.
  rewrite <- list_fmap_compose.
  change (pix_id ∘ _) with (@fst nat Transaction).
  rewrite take_ge by done.
  apply (list_elem_of_fmap_2' _ _ (j, t)); [|done].
  by apply elem_of_findMany.
Qed.

(** X12. The sweeper writes to a transaction only to cancel an unpaid
    PIX charge at least 16 minutes old: every other transaction (paid,
    by card, younger) is the same row afterwards, a selected one
    differs in its status only, and when at most 50 charges match,
    every matching charge is cancelled.  Leads and meetings are not
    written. *)
Theorem X12_sweeper_only_cancels_expired_pix now clock w j t :
  transactions w !! j = Some t →
  let w' := (handler now clock w).2 in
  (transactions w' !! j = Some t
   ∨ is_pending_pix now (j, t)
     ∧ transactions w' !! j = Some (with_tx_status canceled t))
  ∧ (length (Table.findMany (is_pending_pix now) (transactions w)) ≤ 50 →
     is_pending_pix now (j, t) →
     transactions w' !! j = Some (with_tx_status canceled t))
  ∧ length (transactions w') = length (transactions w)
  ∧ leads w' = leads w ∧ meetings w' = meetings w.
Proof.
  intros Hj w'. subst w'.
  destruct (handler_spec now clock w) as (r' & w' & Hh & Ht & Hl & Hm & _).
  rewrite Hh. simpl.
  assert (∀ i, transactions w' !! i =
            if decide (i ∈ pix_id <$> pendingPixTransactions now w)
            then with_tx_status canceled <$> transactions w !! i
            else transactions w !! i) as Hlookup.
  { intros i. rewrite Ht. apply cancel_all_lookup. }
  split; [|split; [|split; [|done]]].
  - rewrite Hlookup. destruct (decide _) as [Hin|Hout]; [|by left].
    right. rewrite Hj. split; [|done].
    apply list_elem_of_fmap in Hin as (p & -> & Hin).
    apply pendingPixTransactions_spec in Hin as [Hrow Hp].
    rewrite Hrow in Hj. by injection Hj as <-.
  - intros Hfew Hp. rewrite Hlookup, decide_True, Hj; [done|].
    by apply (all_expired_selected now w j t).
  - apply Nat.le_antisymm.
    + destruct (decide (length (transactions w') ≤ length (transactions w)))
        as [|Hgt]; [done|].
      assert (is_Some (transactions w' !! length (transactions w)))
        as [x Hx] by (apply lookup_lt_is_Some; lia).
      rewrite Hlookup in Hx.
      rewrite (lookup_ge_None_2 (transactions w)) in Hx by lia.
      by destruct (decide _).
    + destruct (decide (length (transactions w) ≤ length (transactions w')))
        as [|Hgt]; [done|].
      assert (is_Some (transactions w !! length (transactions w')))
        as [x Hx] by (apply lookup_lt_is_Some; lia).
      pose proof (Hlookup (length (transactions w'))) as Hlast.
      rewrite (lookup_ge_None_2 (transactions w')), Hx in Hlast by lia.
      by destruct (decide _).
Qed.

Lemma X12_witness :
  let w' := (handler (T0 + 960000) (soon_after (T0 + 960000))
               checkout_started).2 in
  (transactions w' !! 0 = Some (pix_charge 0 processing (T0 + 30000))
   ∨ is_pending_pix (T0 + 960000) (0, pix_charge 0 processing (T0 + 30000))
     ∧ transactions w' !! 0
       = Some (with_tx_status canceled
                 (pix_charge 0 processing (T0 + 30000))))
  ∧ (length (Table.findMany (is_pending_pix (T0 + 960000))
               (transactions checkout_started)) ≤ 50 →
     is_pending_pix (T0 + 960000) (0, pix_charge 0 processing (T0 + 30000)) →
     transactions w' !! 0
     = Some (with_tx_status canceled (pix_charge 0 processing (T0 + 30000))))
  ∧ length (transactions w') = length (transactions checkout_started)
  ∧ leads w' = leads checkout_started
  ∧ meetings w' = meetings checkout_started.
Proof.
  apply (X12_sweeper_only_cancels_expired_pix (T0 + 960000)
           (soon_after (T0 + 960000)) checkout_started
           0 (pix_charge 0 processing (T0 + 30000))).
  reflexivity.
Defined.
End SweeperRuns.

(** ** Every expired charge is followed up *)

Section SweeperFollowUp.
Import messageQueue checkExpiredPix Examples.
Implicit Types (w : World) (now : Z) (results : Results)
  (p : PixTransaction).

Lemma pendingPixTransactions_lead now w p :
  p ∈ pendingPixTransactions now w →
  pix_lead p = include_lead w (tx_lead_id (pix_row p)).
Proof.
  unfold pendingPixTransactions.
  by intros ([i t] & -> & _)%list_elem_of_fmap.
Qed.

Lemma unpaid_cancel_transaction leadId i w :
  ¬ has_succeeded_transaction leadId w →
  ¬ has_succeeded_transaction leadId (cancel_transaction i w).
Proof.
  intros Hunpaid (j & t & Hj & Hl & Hst). apply Hunpaid. simpl in Hj.
  destruct (decide (i = j)) as [->|Hne].
  - rewrite list_lookup_alter_eq in Hj.
    destruct (transactions w !! j) as [t0|]; [|done].
    simpl in Hj. injection Hj as <-. done.
  - rewrite list_lookup_alter_ne in Hj by done. by exists j, t.
Qed.

Lemma unpaid_same_transactions leadId w w' :
  transactions w' = transactions w →
  ¬ has_succeeded_transaction leadId w →
  ¬ has_succeeded_transaction leadId w'.
Proof.
  intros Heq Hunpaid (j & t & Hj & Hrest). apply Hunpaid.
  rewrite Heq in Hj. by exists j, t.
Qed.

Lemma queuePaymentAbandonedMessage_active now lead w :
  ¬ has_succeeded_transaction (id lead) w →
  has_active (id lead) PAYMENT_ABANDONED
    (queuePaymentAbandonedMessage now lead w).2.
Proof.
  intros Hunpaid.
  destruct (has_active_dec (id lead) PAYMENT_ABANDONED w) as [Hyes|Hno].
  - by rewrite (queuePaymentAbandonedMessage_skip now lead w Hyes).
  - rewrite (queuePaymentAbandonedMessage_insert now lead w Hunpaid Hno).
    eexists _, (new_message lead PAYMENT_ABANDONED now).
    split; [simpl; apply list_lookup_middle; done|].
    split; [done|]. split; [done|]. by apply active_PENDING.
Qed.

Lemma queuePaymentAbandonedMessage_keeps_active now lead leadId w :
  has_active leadId PAYMENT_ABANDONED w →
  has_active leadId PAYMENT_ABANDONED
    (queuePaymentAbandonedMessage now lead w).2.
Proof.
  intros Hactive.
  destruct (has_succeeded_transaction_dec (id lead) w) as [Hpaid|Hunpaid].
  { by rewrite (queuePaymentAbandonedMessage_paid now lead w Hpaid). }
  destruct (has_active_dec (id lead) PAYMENT_ABANDONED w) as [Hyes|Hno].
  - by rewrite (queuePaymentAbandonedMessage_skip now lead w Hyes).
  - rewrite (queuePaymentAbandonedMessage_insert now lead w Hunpaid Hno).
    destruct Hactive as (i & m & Hi & Hl & Ht & Ha).
    exists i, m. split; [|done]. simpl.
    rewrite lookup_app_l
      by (rewrite cancel_pending_length; by eapply lookup_lt_Some).
    rewrite cancel_pending_lookup, Hi. simpl.
    rewrite decide_False; [done|]. intros (_ & Htype & _). congruence.
Qed.

Lemma for_of_handler now clock w :
  ∃ results',
    for_of now clock (pendingPixTransactions now w)
      {| checked := 0; expired := 0; queued := 0; errors := 0 |} w
    = (Ok results', (handler now clock w).2).
Proof.
  destruct (handler_spec now clock w) as (r' & w' & Hh & _).
  rewrite Hh. exists r'. simpl.
  unfold handler, bind, findPendingPixTransactions in Hh.
  destruct (for_of _ _ _ _) as [[r|e] w2]; by simplify_eq.
Qed.

Lemma sweep_keeps_unpaid now clock leadId batch results w :
  (∀ p, p ∈ batch →
     (16 ≤ (now - tx_created_at (pix_row p)) / 1000 / 60)%Z) →
  ¬ has_succeeded_transaction leadId w →
  ¬ has_succeeded_transaction leadId (for_of now clock batch results w).2.
Proof.
  intros Hmin.
  apply (sweep_loop
           (λ w w', ¬ has_succeeded_transaction leadId w →
                    ¬ has_succeeded_transaction leadId w') now clock);
    simpl; [tauto|tauto| | |exact Hmin].
  - intros i w0. apply unpaid_cancel_transaction.
  - intros i lead w0. apply unpaid_same_transactions,
      queuePaymentAbandonedMessage_tables.
Qed.

Lemma sweep_keeps_active now clock leadId batch results w :
  (∀ p, p ∈ batch →
     (16 ≤ (now - tx_created_at (pix_row p)) / 1000 / 60)%Z) →
  has_active leadId PAYMENT_ABANDONED w →
  has_active leadId PAYMENT_ABANDONED (for_of now clock batch results w).2.
Proof.
  intros Hmin.
  apply (sweep_loop
           (λ w w', has_active leadId PAYMENT_ABANDONED w →
                    has_active leadId PAYMENT_ABANDONED w') now clock);
    simpl; [tauto|tauto| | |exact Hmin].
  - intros i w0 Hactive. exact Hactive.
  - intros i lead w0. apply queuePaymentAbandonedMessage_keeps_active.
Qed.

(** X13. The sweeper follows up every charge it expires: when the lead
    of a selected charge exists and has no succeeded transaction, then
    after the run the lead has a PENDING or SENT abandoned-payment
    message. *)
Theorem X13_expired_charge_is_followed_up now clock w p l :
  p ∈ pendingPixTransactions now w →
  leads w !! tx_lead_id (pix_row p) = Some l →
  ¬ has_succeeded_transaction (tx_lead_id (pix_row p)) w →
  has_active (tx_lead_id (pix_row p)) PAYMENT_ABANDONED (handler now clock w).2.
Proof.
  intros Hin Hl Hunpaid.
  set (L := tx_lead_id (pix_row p)) in *.
  assert (∀ q, q ∈ pendingPixTransactions now w →
            (16 ≤ (now - tx_created_at (pix_row q)) / 1000 / 60)%Z) as Hmin.
  { intros q [_ Hq]%pendingPixTransactions_spec.
    by apply minutes_of_pending in Hq. }
  pose proof (pendingPixTransactions_lead now w p Hin) as Hlead.
  fold L in Hlead. unfold include_lead in Hlead. rewrite Hl in Hlead.
  destruct (pendingPixTransactions_spec now w p Hin) as [Hrow _].
  destruct (for_of_handler now clock w) as [r' Hloop].
  apply list_elem_of_split in Hin as (l1 & l2 & Hsplit).
  rewrite Hsplit in Hloop, Hmin.
  rewrite sweep_for_of_app in Hloop. unfold bind in Hloop.
  destruct (sweep_for_of_spec now clock l1
              {| checked := 0; expired := 0; queued := 0; errors := 0 |} w)
    as (r1 & w1 & Hrun1 & Ht1 & _).
  { intros q Hq. apply Hmin, elem_of_app. by left. }
  rewrite Hrun1 in Hloop. simpl in Hloop. unfold bind in Hloop.
  (* the world at the turn of [p] *)
  assert (¬ has_succeeded_transaction L w1) as Hunpaid1.
  { pose proof (sweep_keeps_unpaid now clock L l1
                  {| checked := 0; expired := 0; queued := 0; errors := 0 |} w)
      as Hinv.
    rewrite Hrun1 in Hinv. apply Hinv; [|done].
    intros q Hq. apply Hmin, elem_of_app. by left. }
  assert (is_Some (transactions w1 !! pix_id p)) as [t1 Hrow1].
  { rewrite Ht1, cancel_all_lookup, Hrow. by destruct (decide _). }
  rewrite (checkTransaction_cases now clock p _ w1 t1) in Hloop;
    [|apply Hmin, elem_of_app; right; left|done].
  rewrite Hlead in Hloop.
  set (lead := {| id := L; nome := lr_nome l; whatsapp := lr_whatsapp l |})
    in *.
  set (w2 := (queuePaymentAbandonedMessage (clock (pix_id p)) lead
                (cancel_transaction (pix_id p) w1)).2) in *.
  assert (has_active L PAYMENT_ABANDONED w2) as Hactive2.
  { apply (queuePaymentAbandonedMessage_active (clock (pix_id p)) lead).
    by apply unpaid_cancel_transaction. }
  (* the rest of the loop *)
  pose proof (sweep_keeps_active now clock L l2
                (incr_queued (incr_expired (incr_checked r1))) w2) as Hinv.
  rewrite Hloop in Hinv. apply Hinv; [|done].
  intros q Hq. apply Hmin, elem_of_app. right. by right.
Qed.

Lemma X13_witness :
  has_active 0 PAYMENT_ABANDONED
    (handler (T0 + 960000) (soon_after (T0 + 960000)) one_unpaid).2.
Proof.
  apply (X13_expired_charge_is_followed_up (T0 + 960000)
           (soon_after (T0 + 960000)) one_unpaid
           {| pix_id := 0; pix_row := pix_charge 0 processing T0;
              pix_lead := Some ana |} ana_row).
  - vm_compute. left.
  - reflexivity.
  - intros (j & t & Hj & _ & Hst). destruct j as [|j]; [|done].
    vm_compute in Hj. injection Hj as <-. discriminate.
Defined.
End SweeperFollowUp.

(** ** The payment webhooks, delivered again *)

Section WebhookRetries.
Implicit Types (w : World) (now : Z) (data : Transaction → Transaction).

Lemma alter_fixed {A} (f : A → A) (tbl : list A) i x :
  tbl !! i = Some x → f x = x → alter f i tbl = tbl.
Proof.
  intros Hi Hx. apply list_eq. intros j.
  destruct (decide (i = j)) as [<-|Hne].
  - rewrite list_lookup_alter_eq, Hi. simpl. by rewrite Hx.
  - by rewrite list_lookup_alter_ne.
Qed.

Lemma set_transactions_same w tbl :
  tbl = transactions w → set_transactions (λ _, tbl) w = w.
Proof. intros ->. by destruct w. Qed.

Lemma set_leads_same w tbl : tbl = leads w → set_leads (λ _, tbl) w = w.
Proof. intros ->. by destruct w. Qed.

Lemma head_filter_imap {A B} (P : B → Prop) `{!∀ y, Decision (P y)}
    (tbl : list A) : ∀ (f : nat → A → B) y,
  head (filter P (imap f tbl)) = Some y ↔
    ∃ j x, tbl !! j = Some x ∧ y = f j x ∧ P y
           ∧ ∀ k x', k < j → tbl !! k = Some x' → ¬ P (f k x').
Proof.
  induction tbl as [|a tbl IH]; intros f y.
  - simpl. split; [done|]. by intros (j & x & Hj & _).
  - rewrite imap_cons, filter_cons.
    destruct (decide (P (f 0 a))) as [Ha|Ha]; simpl.
    + split.
      * intros [= <-]. exists 0, a. repeat split; try done. lia.
      * intros (j & x & Hj & -> & Hy & Hmin). destruct j as [|j].
        { simpl in Hj. by injection Hj as <-. }
        by destruct (Hmin 0 a ltac:(lia) eq_refl).
    + rewrite (IH (f ∘ S) y). split.
      * intros (j & x & Hj & -> & Hy & Hmin). exists (S j), x.
        repeat split; try done. intros [|k'] x' Hlt Hk.
        { simpl in Hk. by injection Hk as <-. }
        apply (Hmin k' x'); [lia|done].
      * intros (j & x & Hj & -> & Hy & Hmin). destruct j as [|j].
        { simpl in Hj. injection Hj as <-. done. }
        exists j, x. repeat split; try done.
        intros k' x' Hlt Hk. apply (Hmin (S k') x'); [lia|done].
Qed.

Lemma findFirst_alter {A} (P : nat * A → Prop) `{!∀ r, Decision (P r)}
    (f : A → A) (tbl : list A) j x :
  (∀ k y, P (k, f y) ↔ P (k, y)) →
  Table.findFirst P tbl = Some (j, x) →
  Table.findFirst P (alter f j tbl) = Some (j, f x).
Proof.
  intros Hsame. unfold Table.findFirst, rows. rewrite !head_filter_imap.
  intros (j' & x' & Hj & [= -> ->] & HP & Hmin).
  exists j', (f x'). split; [by rewrite list_lookup_alter_eq, Hj|].
  split; [done|]. split; [by apply Hsame|].
  intros k y Hlt Hk. rewrite list_lookup_alter_ne in Hk by lia.
  by apply (Hmin k y).
Qed.

Lemma findFirst_lookup {A} (P : nat * A → Prop) `{!∀ r, Decision (P r)}
    (tbl : list A) j x :
  Table.findFirst P tbl = Some (j, x) → tbl !! j = Some x.
Proof. intros Hfound%findFirst_Some. by destruct Hfound. Qed.

Lemma createMeetingIfMissing_spec now transaction w :
  ∃ w',
    createMeetingIfMissing now transaction w = (Ok tt, w')
    ∧ has_meeting transaction.1 w'
    ∧ leads w' = leads w ∧ transactions w' = transactions w
    ∧ (has_meeting transaction.1 w → w' = w).
Proof.
  unfold createMeetingIfMissing, bind, prisma.meeting.findUnique.
  destruct (Table.findFirst _ _) as [r|] eqn:E.
  - apply findFirst_Some in E as [HP Hr].
    exists w. split; [done|]. split; [by exists r.1, r.2|done].
  - rewrite findFirst_None in E. eexists. split; [done|]. simpl.
    split; [|split; [done|split; [done|]]].
    + eexists (length (meetings w)), _.
      split; [apply list_lookup_middle; done|done].
    + intros (i & m & Hi & Hm). by destruct (E i m Hi).
Qed.

Lemma confirm_eq data now j t (k : Prisma unit) w :
  transactions w !! j = Some t →
  ∃ w1,
    createMeetingIfMissing now (j, t)
      (set_transactions (λ _, alter data j (transactions w)) w) = (Ok tt, w1)
    ∧ confirm data now (j, t) k w
      = match leads w1 !! tx_lead_id t with
        | Some _ =>
            k (set_leads
                 (λ _, alter (with_stage "COMPRADO") (tx_lead_id t) (leads w1))
                 w1)
        | None => (Thrown record_not_found, w1)
        end.
Proof.
  intros Hj.
  destruct (createMeetingIfMissing_spec now (j, t)
              (set_transactions (λ _, alter data j (transactions w)) w))
    as (w1 & Hb & _).
  exists w1. split; [done|].
  unfold confirm, bind, prisma.transaction.update, Table.update. simpl.
  rewrite Hj, Hb. unfold prisma.lead.update, Table.update.
  by destruct (leads w1 !! tx_lead_id t).
Qed.

(** The world [confirm] leaves is one in which running it again, on
    the transaction as it is now, changes nothing. *)
Lemma confirm_twice data now now' j t (k k' : Prisma unit) w :
  transactions w !! j = Some t →
  (∀ x, data (data x) = data x) →
  (∀ x, tx_lead_id (data x) = tx_lead_id x) →
  (∀ w0, same_tables w0 (k w0).2) →
  (∀ w0, k' w0 = (Ok tt, w0)) →
  let w1 := (confirm data now (j, t) k w).2 in
  transactions w1 = alter data j (transactions w)
  ∧ (confirm data now' (j, data t) k' w1).2 = w1.
Proof.
  intros Hj Hidem Hlead Hk Hk' w1. subst w1.
  destruct (confirm_eq data now j t k w Hj) as (wb & Hb & ->).
  destruct (createMeetingIfMissing_spec now (j, t)
              (set_transactions (λ _, alter data j (transactions w)) w))
    as (wb' & Hb' & Hmeeting & Hleads & Htx & _).
  rewrite Hb in Hb'. injection Hb' as <-. simpl in *.
  assert (transactions wb !! j = Some (data t)) as Hj1.
  { by rewrite Htx, list_lookup_alter_eq, Hj. }
  destruct (leads wb !! tx_lead_id t) as [l|] eqn:El.
  - set (wc := set_leads _ wb).
    destruct (Hk wc) as (Hl2 & Ht2 & Hm2).
    set (w1 := (k wc).2) in *.
    assert (transactions w1 !! j = Some (data t)) as Hj2 by by rewrite Ht2.
    split; [by rewrite Ht2|].
    destruct (confirm_eq data now' j (data t) k' w1 Hj2) as (wd & Hd & ->).
    rewrite (set_transactions_same w1) in Hd
      by (by apply (alter_fixed _ _ _ (data t))).
    destruct (createMeetingIfMissing_spec now' (j, data t) w1)
      as (wd' & Hd' & _ & _ & _ & Hsame).
    rewrite Hd in Hd'. injection Hd' as <-.
    rewrite Hsame.
    2:{ destruct Hmeeting as (i & m & Hi & Hm). exists i, m.
        split; [|done]. by rewrite Hm2. }
    rewrite Hlead.
    assert (leads w1 !! tx_lead_id t = Some (with_stage "COMPRADO" l))
      as Hl1.
    { rewrite Hl2. simpl. by rewrite list_lookup_alter_eq, El. }
    rewrite Hl1, Hk'. simpl. apply set_leads_same.
    by apply (alter_fixed _ _ _ (with_stage "COMPRADO" l)).
  - simpl. split; [done|].
    destruct (confirm_eq data now' j (data t) k' wb Hj1) as (wd & Hd & ->).
    rewrite (set_transactions_same wb) in Hd
      by (by apply (alter_fixed _ _ _ (data t))).
    destruct (createMeetingIfMissing_spec now' (j, data t) wb)
      as (wd' & Hd' & _ & _ & _ & Hsame).
    rewrite Hd in Hd'. injection Hd' as <-.
    rewrite (Hsame Hmeeting), Hlead, El. done.
Qed.

Lemma status_of_run {A} (r : Result A * World) :
  (match r with
   | (Ok _, w') => (200, w')
   | (Thrown _, w') => (500, w')
   end).2 = r.2.
Proof. by destruct r as [[?|?] ?]. Qed.

Lemma openpix_completed now transactionId w t :
  transactions w !! transactionId = Some t →
  openpixWebhook.handler now true CHARGE_COMPLETED transactionId w
  = (200, (confirm paid_by_pix now (transactionId, t)
             (notify_once (transactionId, t)) w).2).
Proof. intros Et. unfold openpixWebhook.handler. by rewrite Et. Qed.

Lemma checkout_completed now transactionId w t :
  transactions w !! transactionId = Some t →
  (checkoutWebhook.handleOpenPixWebhook now CHARGE_COMPLETED transactionId w).2
  = (confirm (with_tx_status succeeded) now (transactionId, t) (ret tt) w).2.
Proof.
  intros Et. unfold checkoutWebhook.handleOpenPixWebhook. rewrite Et.
  apply status_of_run.
Qed.

Lemma stripe_succeeded now paymentIntent w :
  (checkoutWebhook.handleStripeWebhook now
     checkoutWebhook.payment_intent_succeeded paymentIntent w).2
  = match Table.findFirst
            (λ r, stripe_payment_intent r.2
                  = Some (checkoutWebhook.pi_id paymentIntent))
            (transactions w) with
    | Some transaction =>
        (confirm (paid_through_stripe paymentIntent) now transaction
           (ret tt) w).2
    | None => w
    end.
Proof.
  unfold checkoutWebhook.handleStripeWebhook. rewrite status_of_run.
  unfold checkoutWebhook.handlePaymentIntentSucceeded, bind,
    prisma.transaction.findFirst.
  by destruct (Table.findFirst _ _) as [[j t]|].
Qed.

(** X15. A payment confirmation delivered twice has the effect of one
    delivery.  For each of the three success paths (the OpenPix webhook
    that verifies the charge, the OpenPix branch and the Stripe branch
    of the checkout webhook), running the handler again on the world
    the first delivery left changes nothing: no second meeting, no
    second Discord notification, the same transaction and lead. *)
Theorem X15_payment_confirmed_twice now now' verified transactionId
    paymentIntent w :
  (let w1 := (openpixWebhook.handler now true CHARGE_COMPLETED
                transactionId w).2 in
   openpixWebhook.handler now' verified CHARGE_COMPLETED transactionId w1
   = (200, w1))
  ∧ (let w1 := (checkoutWebhook.handleOpenPixWebhook now CHARGE_COMPLETED
                  transactionId w).2 in
     (checkoutWebhook.handleOpenPixWebhook now' CHARGE_COMPLETED
        transactionId w1).2 = w1)
  ∧ (let w1 := (checkoutWebhook.handleStripeWebhook now
                  checkoutWebhook.payment_intent_succeeded paymentIntent w).2 in
     (checkoutWebhook.handleStripeWebhook now'
        checkoutWebhook.payment_intent_succeeded paymentIntent w1).2 = w1).
Proof.
  split; [|split]; intros w1; subst w1.
  - destruct (transactions w !! transactionId) as [t|] eqn:Et.
    + rewrite (openpix_completed now transactionId w t Et). cbn [snd].
      destruct (confirm_twice paid_by_pix now now' transactionId t
                  (notify_once (transactionId, t)) (ret tt) w Et)
        as [Htx Hagain]; try done.
      { intros w0. unfold notify_once. by destruct (bool_decide _). }
      set (w1 := (confirm paid_by_pix now (transactionId, t) _ w).2) in *.
      assert (transactions w1 !! transactionId = Some (paid_by_pix t))
        as Et1 by (by rewrite Htx, list_lookup_alter_eq, Et).
      destruct verified.
      * rewrite (openpix_completed now' transactionId w1 _ Et1).
        f_equal. exact Hagain.
      * unfold openpixWebhook.handler. by rewrite Et1.
    + unfold openpixWebhook.handler. rewrite Et. simpl. by rewrite Et.
  - destruct (transactions w !! transactionId) as [t|] eqn:Et.
    + rewrite (checkout_completed now transactionId w t Et).
      destruct (confirm_twice (with_tx_status succeeded) now now'
                  transactionId t (ret tt) (ret tt) w Et)
        as [Htx Hagain]; try done.
      set (w1 := (confirm _ now (transactionId, t) (ret tt) w).2) in *.
      assert (transactions w1 !! transactionId
              = Some (with_tx_status succeeded t)) as Et1
        by (by rewrite Htx, list_lookup_alter_eq, Et).
      by rewrite (checkout_completed now' transactionId w1 _ Et1).
    + unfold checkoutWebhook.handleOpenPixWebhook. rewrite Et. simpl.
      by rewrite Et.
  - rewrite (stripe_succeeded now paymentIntent w).
    destruct (Table.findFirst _ (transactions w)) as [[j t]|] eqn:E.
    + pose proof (findFirst_lookup _ _ _ _ E) as Ej.
      destruct (confirm_twice (paid_through_stripe paymentIntent) now now'
                  j t (ret tt) (ret tt) w Ej)
        as [Htx Hagain]; try done.
      set (w1 := (confirm _ now (j, t) (ret tt) w).2) in *.
      rewrite (stripe_succeeded now' paymentIntent w1), Htx.
      erewrite findFirst_alter; [exact Hagain|done|exact E].
    + rewrite (stripe_succeeded now' paymentIntent w). by rewrite E.
Qed.
End WebhookRetries.

(** ** Charges expired by the webhook, and events about nothing *)

Section WebhookEdges.
Import checkExpiredPix Examples.
Implicit Types (w : World) (now : Z).

(** X14. CHARGE_EXPIRED is applied without looking at the transaction:
    both OpenPix handlers answer 200 and set the status of the
    transaction to canceled whatever it was (a succeeded one included),
    touching no other row and no other table; and the sweeper never
    selects that transaction afterwards, so it queues no
    abandoned-payment message on its account. *)
Theorem X14_charge_expired_by_webhook now now' verified transactionId w t :
  transactions w !! transactionId = Some t →
  let w1 := set_transactions
              (λ _, alter (with_tx_status canceled) transactionId
                      (transactions w)) w in
  openpixWebhook.handler now verified CHARGE_EXPIRED transactionId w
    = (200, w1)
  ∧ checkoutWebhook.handleOpenPixWebhook now CHARGE_EXPIRED transactionId w
    = (200, w1)
  ∧ transactions w1 !! transactionId = Some (with_tx_status canceled t)
  ∧ transactionId ∉ pix_id <$> pendingPixTransactions now' w1.
Proof.
  intros Et w1. subst w1.
  split; [|split; [|split]].
  - unfold openpixWebhook.handler. rewrite Et. simpl.
    unfold openpixWebhook.handleChargeExpired, bind,
      prisma.transaction.update, Table.update. simpl. by rewrite Et.
  - unfold checkoutWebhook.handleOpenPixWebhook. rewrite Et. simpl.
    unfold checkoutWebhook.handleChargeExpired, bind,
      prisma.transaction.update, Table.update. simpl. by rewrite Et.
  - simpl. by rewrite list_lookup_alter_eq, Et.
  - intros (p & -> & Hin)%list_elem_of_fmap.
    apply pendingPixTransactions_spec in Hin as [Hrow Hp].
    simpl in Hrow. rewrite list_lookup_alter_eq, Et in Hrow.
    simpl in Hrow. injection Hrow as Hrow.
    destruct Hp as (_ & Hst & _). simpl in Hst. rewrite <- Hrow in Hst.
    simpl in Hst. elem_of_cases Hst.
Qed.

Lemma X14_witness :
  let w1 := set_transactions
              (λ _, alter (with_tx_status canceled) 0 (transactions paid))
              paid in
  openpixWebhook.handler (T0 + 50000) true CHARGE_EXPIRED 0 paid = (200, w1)
  ∧ checkoutWebhook.handleOpenPixWebhook (T0 + 50000) CHARGE_EXPIRED 0 paid
    = (200, w1)
  ∧ transactions w1 !! 0
    = Some (with_tx_status canceled
              (with_tx_status succeeded (pix_charge 0 processing (T0 + 30000))))
  ∧ 0 ∉ pix_id <$> pendingPixTransactions (T0 + 3600000) w1.
Proof.
  apply (X14_charge_expired_by_webhook (T0 + 50000) (T0 + 3600000) true 0
           paid
           (with_tx_status succeeded (pix_charge 0 processing (T0 + 30000)))).
  reflexivity.
Defined.

Lemma updateMany_none {A} (P : A → Prop) `{!∀ x, Decision (P x)}
    (data : A → A) (tbl : list A) :
  (∀ j x, tbl !! j = Some x → ¬ P x) →
  (Table.updateMany P data tbl).1 = tbl.
Proof.
  intros Hnone. unfold Table.updateMany. simpl.
  apply list_eq. intros j. rewrite list_lookup_fmap.
  destruct (tbl !! j) as [x|] eqn:Ej; [|done]. simpl.
  rewrite decide_False; [done|]. by apply (Hnone j).
Qed.

(** X16. A Stripe event about a payment intent that no transaction
    carries is acknowledged and ignored: whatever the event type, the
    handler answers 200 and the world is unchanged. *)
Theorem X16_unknown_payment_intent now event paymentIntent w :
  (∀ j t, transactions w !! j = Some t →
          stripe_payment_intent t
          ≠ Some (checkoutWebhook.pi_id paymentIntent)) →
  checkoutWebhook.handleStripeWebhook now event paymentIntent w = (200, w).
Proof.
  intros Hnone.
  assert (∀ st, checkoutWebhook.updateTransactionStatus
                  (checkoutWebhook.pi_id paymentIntent) st w = (Ok tt, w))
    as Hupdate.
  { intros st.
    destruct (updateTransactionStatus_messages
                (checkoutWebhook.pi_id paymentIntent) st w) as [x ->].
    destruct x. f_equal. apply set_transactions_same.
    by apply updateMany_none. }
  unfold checkoutWebhook.handleStripeWebhook.
  destruct event; rewrite ?Hupdate; try done.
  unfold checkoutWebhook.handlePaymentIntentSucceeded, bind,
    prisma.transaction.findFirst.
  destruct (Table.findFirst _ _) as [r|] eqn:E; [|done].
  apply findFirst_Some in E as [HP Hr]. by destruct (Hnone _ _ Hr).
Qed.

Lemma X16_witness :
  checkoutWebhook.handleStripeWebhook (T0 + 60000)
    checkoutWebhook.payment_intent_succeeded
    {| checkoutWebhook.pi_id := "pi_2";
       checkoutWebhook.payment_method_types := ["card"%string] |}
    card_payment_started
  = (200, card_payment_started).
Proof.
  apply X16_unknown_payment_intent.
  intros j t Hj. destruct j as [|j]; [|done].
  vm_compute in Hj. injection Hj as <-. discriminate.
Defined.
End WebhookEdges.

(** ** backend/utils/whatsapp.js: the pure helpers *)

Section WhatsappHelpers.
Import whatsapp.
Local Open Scope string_scope.

Lemma append_String c s t : String c s ++ t = String c (s ++ t).
Proof. done. Qed.

Lemma append_nil_r s : s ++ "" = s.
Proof. induction s as [|c s IH]; [done|]. by rewrite append_String, IH. Qed.

Lemma append_assoc s1 s2 s3 : (s1 ++ s2) ++ s3 = s1 ++ (s2 ++ s3).
Proof.
  induction s1 as [|c s1 IH]; [done|]. by rewrite !append_String, IH.
Qed.

Lemma replace_nondigits_app s t :
  JS.replace_nondigits (s ++ t)
  = JS.replace_nondigits s ++ JS.replace_nondigits t.
Proof.
  induction s as [|c s IH]; [done|].
  rewrite append_String. simpl.
  destruct (JS.isDigit c); [|done]. by rewrite append_String, IH.
Qed.

Lemma replace_nondigits_idem s :
  JS.replace_nondigits (JS.replace_nondigits s) = JS.replace_nondigits s.
Proof.
  induction s as [|c s IH]; simpl; [done|].
  destruct (JS.isDigit c) eqn:Ec; simpl; rewrite ?Ec; congruence.
Qed.

Lemma prefix_app_l p s t :
  String.prefix p s = true → String.prefix p (s ++ t) = true.
Proof.
  revert s. induction p as [|a p IH]; intros s; [by destruct (s ++ t)|].
  destruct s as [|b s]; [done|]. rewrite append_String. simpl.
  destruct (ascii_dec a b); [apply IH|done].
Qed.

(** X17. [formatChatId] reads only the digits of the phone: the chat id
    is these digits, with the country code 55 put in front or not,
    followed by "@c.us"; a number of at most 11 digits always gets a
    chat id that starts with 55; formatting the digits alone, or
    formatting a chat id again, gives the same chat id. *)
Theorem X17_formatChatId phone :
  let digits := JS.replace_nondigits phone in
  (formatChatId phone = digits ++ "@c.us"
   ∨ formatChatId phone = "55" ++ digits ++ "@c.us")
  ∧ ((String.length digits ≤ 11)%nat →
     JS.startsWith "55" (formatChatId phone) = true)
  ∧ formatChatId digits = formatChatId phone
  ∧ formatChatId (formatChatId phone) = formatChatId phone.
Proof.
  intros digits.
  assert (JS.replace_nondigits digits = digits) as Hd
    by apply replace_nondigits_idem.
  unfold formatChatId. rewrite Hd.
  change (JS.replace_nondigits phone) with digits.
  set (c := negb (JS.startsWith "55" digits)
            && (String.length digits <=? 11)%nat).
  assert (JS.replace_nondigits (if c then "55" ++ digits else digits)
          = (if c then "55" ++ digits else digits)) as Hdigits.
  { destruct c; [|done].
    change (JS.replace_nondigits ("55" ++ digits))
      with ("55" ++ JS.replace_nondigits digits).
    by rewrite Hd. }
  split; [|split; [|split]].
  - destruct c; [right|left]; done.
  - intros Hlen. destruct c eqn:Ec.
    + unfold JS.startsWith. rewrite append_assoc. apply prefix_app.
    + unfold c in Ec. apply andb_false_iff in Ec as [Ec|Ec].
      * apply negb_false_iff in Ec. unfold JS.startsWith in *.
        by apply prefix_app_l.
      * apply Nat.leb_gt in Ec. lia.
  - done.
  - rewrite replace_nondigits_app, Hdigits.
    change (JS.replace_nondigits "@c.us") with "".
    rewrite append_nil_r.
    destruct c eqn:Ec.
    + assert (JS.startsWith "55" ("55" ++ digits) = true) as ->
        by apply prefix_app.
      done.
    + fold c. by rewrite Ec.
Qed.

Lemma prefix_cons a p b s :
  String.prefix (String a p) (String b s)
  = if ascii_dec a b then String.prefix p s else false.
Proof. done. Qed.

Lemma split_space_0_idem s :
  JS.split_space_0 (JS.split_space_0 s) = JS.split_space_0 s.
Proof.
  induction s as [|c s IH]; simpl; [done|].
  destruct (Ascii.eqb c " ") eqn:Ec; simpl; rewrite ?Ec; congruence.
Qed.

(** X18. [getFirstName] returns the part of the name before its first
    space: the name is the first name followed by nothing or by a space
    and the rest; the first name contains no space (taking the first
    name again changes nothing).  A name that begins with a space has
    the empty first name. *)
Theorem X18_getFirstName fullName :
  (∃ rest, fullName = getFirstName fullName ++ rest
           ∧ (rest = "" ∨ ∃ rest', rest = String " " rest'))
  ∧ getFirstName (getFirstName fullName) = getFirstName fullName
  ∧ JS.includes " " (getFirstName fullName) = false
  ∧ (getFirstName fullName = "" ↔
     fullName = "" ∨ ∃ rest, fullName = String " " rest).
Proof.
  unfold getFirstName. split; [|split; [apply split_space_0_idem|split]].
  - induction fullName as [|c s (rest & IH & Hrest)]; simpl.
    + exists "". by split; [|left].
    + destruct (Ascii.eqb c " ") eqn:Ec.
      * apply Ascii.eqb_eq in Ec as ->. exists (String " " s).
        split; [done|]. right. by exists s.
      * exists rest. rewrite append_String. split; [congruence|done].
  - induction fullName as [|c s IH]; simpl; [done|].
    destruct (Ascii.eqb c " ") eqn:Ec; [done|].
    rewrite includes_unfold, prefix_cons.
    destruct (ascii_dec " " c) as [<-|Hne].
    + by rewrite Ascii.eqb_refl in Ec.
    + cbn [orb]. exact IH.
  - destruct fullName as [|c s]; simpl.
    + split; [by left|done].
    + destruct (Ascii.eqb c " ") eqn:Ec.
      * apply Ascii.eqb_eq in Ec as ->. split; [|done].
        intros _. right. by exists s.
      * split; [done|]. intros [|[rest [= -> _]]]; [done|].
        by rewrite Ascii.eqb_refl in Ec.
Qed.
End WhatsappHelpers.

Section Greeting.
Import whatsapp.
Local Open Scope Z_scope.

Lemma hour_in_Sao_Paulo t :
  JS.getHours (-180) t = (JS.getHours 0 t + 21) mod 24.
Proof.
  unfold JS.getHours, JS.ms_of_day, JS.local_ms.
  Z.to_euclidean_division_equations. lia.
Qed.

(** X19. The greeting depends on the UTC hour of the host clock alone
    (the host's own time zone plays no part): "Bom dia" from 08:00 to
    14:59 UTC, "Boa tarde" from 15:00 to 20:59 UTC, "Boa noite"
    otherwise; in particular it repeats every 24 hours. *)
Theorem X19_greeting_by_UTC_hour h :
  let utc := JS.getHours 0 (clock h) in
  getGreeting h
  = (if (8 <=? utc) && (utc <? 15) then "Bom dia"%string
     else if (15 <=? utc) && (utc <? 21) then "Boa tarde"%string
     else "Boa noite"%string)
  ∧ getGreeting {| clock := clock h + 86400000; tz_minutes := tz_minutes h |}
    = getGreeting h.
Proof.
  intros utc.
  assert (0 ≤ utc < 24) as Hrange.
  { unfold utc, JS.getHours, JS.ms_of_day, JS.local_ms.
    Z.to_euclidean_division_equations. lia. }
  assert (JS.getHours (-180) (clock h) = (utc + 21) mod 24) as Hsp
    by apply hour_in_Sao_Paulo.
  split.
  - unfold getGreeting. rewrite Hsp.
    destruct (Z.leb_spec 8 utc), (Z.ltb_spec utc 15),
      (Z.leb_spec 15 utc), (Z.ltb_spec utc 21); simpl; try lia;
      destruct (Z.leb_spec 5 ((utc + 21) mod 24)),
        (Z.ltb_spec ((utc + 21) mod 24) 12),
        (Z.leb_spec 12 ((utc + 21) mod 24)),
        (Z.ltb_spec ((utc + 21) mod 24) 18); simpl; try done;
      exfalso; Z.to_euclidean_division_equations; lia.
  - unfold getGreeting. simpl.
    replace (JS.getHours (-180) (clock h + 86400000))
      with (JS.getHours (-180) (clock h)); [done|].
    unfold JS.getHours, JS.ms_of_day, JS.local_ms.
    Z.to_euclidean_division_equations. lia.
Qed.
End Greeting.

(** ** The Discord notifications: display of a WhatsApp number *)

Section DiscordHelpers.
Import whatsapp.
Local Open Scope string_scope.

Lemma replace_nondigits_digit c s :
  JS.isDigit c = true →
  JS.replace_nondigits (String c s) = String c (JS.replace_nondigits s).
Proof. intros Hc. simpl. by rewrite Hc. Qed.

Lemma replace_nondigits_other c s :
  JS.isDigit c = false →
  JS.replace_nondigits (String c s) = JS.replace_nondigits s.
Proof. intros Hc. simpl. by rewrite Hc. Qed.

Lemma replace_nondigits_String s : ∀ c r,
  JS.replace_nondigits s = String c r →
  JS.isDigit c = true ∧ JS.replace_nondigits r = r.
Proof.
  induction s as [|a s IH]; intros c r; [done|]. simpl.
  destruct (JS.isDigit a) eqn:Ea; [|apply IH].
  intros [= -> <-]. split; [done|apply replace_nondigits_idem].
Qed.

Lemma digits_String c r :
  JS.replace_nondigits (String c r) = String c r →
  JS.isDigit c = true ∧ JS.replace_nondigits r = r.
Proof. apply replace_nondigits_String. Qed.

(** The layout keeps the eleven digits. *)
Lemma formatWhatsApp_digits cleaned :
  JS.replace_nondigits cleaned = cleaned →
  String.length cleaned = 11%nat →
  JS.replace_nondigits
    ("(" ++ discord.slice cleaned 0 2 ++ ") " ++ discord.slice cleaned 2 7
       ++ "-" ++ discord.slice cleaned 7 (String.length cleaned)) = cleaned
  ∧ String.length
      ("(" ++ discord.slice cleaned 0 2 ++ ") " ++ discord.slice cleaned 2 7
         ++ "-" ++ discord.slice cleaned 7 (String.length cleaned)) = 15%nat.
Proof.
  intros Hd Hlen.
  destruct cleaned as [|c0 [|c1 [|c2 [|c3 [|c4 [|c5 [|c6 [|c7 [|c8 [|c9
    [|c10 [|c11 r]]]]]]]]]]]]; try discriminate Hlen.
  apply digits_String in Hd as [H0 Hd]. apply digits_String in Hd as [H1 Hd].
  apply digits_String in Hd as [H2 Hd]. apply digits_String in Hd as [H3 Hd].
  apply digits_String in Hd as [H4 Hd]. apply digits_String in Hd as [H5 Hd].
  apply digits_String in Hd as [H6 Hd]. apply digits_String in Hd as [H7 Hd].
  apply digits_String in Hd as [H8 Hd]. apply digits_String in Hd as [H9 Hd].
  apply digits_String in Hd as [H10 _].
  cbv [discord.slice String.length Nat.sub substring String.append].
  split; [|done].
  repeat first
    [ rewrite replace_nondigits_digit by assumption
    | rewrite replace_nondigits_other by reflexivity ].
  done.
Qed.

Lemma formatChatId_digits phone :
  formatChatId (JS.replace_nondigits phone) = formatChatId phone.
Proof. unfold formatChatId. by rewrite replace_nondigits_idem. Qed.

(** X20. [formatWhatsApp] changes the look of a number, never the
    number: the digits of its result are the digits of its argument,
    so the WhatsApp chat id of the displayed number is the chat id of
    the stored one; an 11-digit number is shown in 15 characters,
    "(dd) ddddd-dddd"; and formatting a displayed number again changes
    nothing. *)
Theorem X20_formatWhatsApp num :
  JS.replace_nondigits (discord.formatWhatsApp num) = JS.replace_nondigits num
  ∧ formatChatId (discord.formatWhatsApp num) = formatChatId num
  ∧ discord.formatWhatsApp (discord.formatWhatsApp num)
    = discord.formatWhatsApp num
  ∧ (String.length (JS.replace_nondigits num) = 11%nat →
     String.length (discord.formatWhatsApp num) = 15%nat)
  ∧ (String.length (JS.replace_nondigits num) ≠ 11%nat →
     discord.formatWhatsApp num = num).
Proof.
  assert (JS.replace_nondigits (discord.formatWhatsApp num)
          = JS.replace_nondigits num) as Hdigits.
  { unfold discord.formatWhatsApp.
    destruct (String.length (JS.replace_nondigits num) =? 11)%nat eqn:E;
      [|done].
    apply Nat.eqb_eq in E.
    by apply formatWhatsApp_digits; [apply replace_nondigits_idem|]. }
  split; [done|]. split; [|split; [|split]].
  - by rewrite <- formatChatId_digits, Hdigits, formatChatId_digits.
  - unfold discord.formatWhatsApp at 1. rewrite Hdigits.
    unfold discord.formatWhatsApp.
    by destruct (String.length (JS.replace_nondigits num) =? 11)%nat.
  - intros Hlen. unfold discord.formatWhatsApp.
    rewrite Hlen. simpl Nat.eqb. cbv iota.
    rewrite <- Hlen at 1.
    by apply formatWhatsApp_digits; [apply replace_nondigits_idem|].
  - intros Hlen. unfold discord.formatWhatsApp.
    by apply Nat.eqb_neq in Hlen as ->.
Qed.
End DiscordHelpers.

(** ** The order in which due messages are served *)

Section ProcessorOrder.
Import whatsapp processWhatsappQueue Examples Scenarios.
Implicit Types (w : World) (env : Env) (msg : PendingMessage).




End ProcessorOrder.

(** ** What the sweeper does to the queue *)

Section SweeperQueue.
Import messageQueue checkExpiredPix Examples.
Implicit Types (w : World) (now : Z) (clock : nat → Z).

Lemma swept_refl clock w : swept clock w w.
Proof.
  split; [by left|]. intros i m Hlen Hi.
  apply lookup_lt_Some in Hi. lia.
Qed.

Lemma swept_trans clock w1 w2 w3 :
  swept clock w1 w2 → swept clock w2 w3 → swept clock w1 w3.
Proof.
  intros [Hold12 Hnew12] [Hold23 Hnew23]. split.
  - intros i m Hi.
    destruct (Hold12 i m Hi) as [Hi2|(Ht & Hs & Hi2)].
    + destruct (Hold23 i m Hi2) as [Hi3|(Ht & Hs & Hi3)]; [by left|].
      right. done.
    + destruct (Hold23 i _ Hi2) as [Hi3|(_ & Hs3 & _)]; [|done].
      right. done.
  - intros i m Hlen Hi3.
    destruct (decide (length (whatsAppMessages w2) ≤ i)) as [Hge|Hlt].
    + by apply (Hnew23 i m).
    + assert (is_Some (whatsAppMessages w2 !! i)) as [m2 Hi2]
        by (apply lookup_lt_is_Some; lia).
      destruct (Hnew12 i m2 Hlen Hi2) as (lead & j & ->).
      destruct (Hold23 i _ Hi2) as [Hi3'|(Ht & _)]; [|done].
      rewrite Hi3 in Hi3'. injection Hi3' as ->. by exists lead, j.
Qed.

Lemma swept_queuePaymentAbandonedMessage clock j lead w :
  swept clock w (queuePaymentAbandonedMessage (clock j) lead w).2.
Proof.
  destruct (has_succeeded_transaction_dec (id lead) w) as [Hpaid|Hunpaid].
  { rewrite (queuePaymentAbandonedMessage_paid _ lead w Hpaid).
    apply swept_refl. }
  destruct (has_active_dec (id lead) PAYMENT_ABANDONED w) as [Hyes|Hno].
  { rewrite (queuePaymentAbandonedMessage_skip _ lead w Hyes).
    apply swept_refl. }
  rewrite (queuePaymentAbandonedMessage_insert _ lead w Hunpaid Hno).
  split; simpl.
  - intros i m Hi.
    rewrite lookup_app_l
      by (rewrite cancel_pending_length; by eapply lookup_lt_Some).
    rewrite cancel_pending_lookup, Hi. simpl.
    destruct (decide _) as [(_ & Ht & Hs)|_]; [right|left]; done.
  - intros i m Hlen Hi.
    rewrite lookup_app_r in Hi by (by rewrite cancel_pending_length).
    rewrite cancel_pending_length in Hi.
    destruct (i - length (whatsAppMessages w)) as [|n]; [|done].
    simpl in Hi. injection Hi as <-. by exists lead, j.
Qed.

Lemma sweeper_queue now clock w : swept clock w (handler now clock w).2.
Proof.
  apply (handler_loop (swept clock)).
  - apply swept_refl.
  - apply swept_trans.
  - intros i w0. apply (swept_refl clock w0).
  - intros i lead w0. apply swept_queuePaymentAbandonedMessage.
Qed.

(** X22. What a run of the sweeper does to the queue.  A message row
    that existed is kept as it is, unless it is a PENDING welcome
    message, which may now be CANCELLED with every other field as it
    was.  Every row the run adds is a PENDING abandoned-payment message
    with no text, no sending time and no error, and its [send_after] is
    the clock as the queue function read it when it created the row
    (for some transaction [j] of the run), not the clock reading the
    run started with. *)
Theorem X22_sweeper_and_the_queue now clock w :
  let w' := (handler now clock w).2 in
  (∀ i m, whatsAppMessages w !! i = Some m →
     whatsAppMessages w' !! i = Some m
     ∨ (message_type m = LEAD_WELCOME ∧ status m = PENDING
        ∧ ∃ m', whatsAppMessages w' !! i = Some m'
                ∧ status m' = CANCELLED
                ∧ lead_id m' = lead_id m ∧ phone m' = phone m
                ∧ message_type m' = LEAD_WELCOME
                ∧ send_after m' = send_after m
                ∧ message_text m' = message_text m
                ∧ sent_at m' = sent_at m ∧ error m' = error m))
  ∧ (∀ i m, length (whatsAppMessages w) ≤ i →
       whatsAppMessages w' !! i = Some m →
       status m = PENDING ∧ message_type m = PAYMENT_ABANDONED
       ∧ message_text m = None ∧ sent_at m = None ∧ error m = None
       ∧ ∃ j, send_after m = clock j).
Proof.
  intros w'. subst w'.
  assert (swept clock w (handler now clock w).2) as [Hold Hnew].
  { apply (handler_loop (swept clock));
      [ apply swept_refl | apply swept_trans
      | intros i w0; apply (swept_refl clock w0)
      | intros i lead w0; apply swept_queuePaymentAbandonedMessage ]. }
  split.
  - intros i m Hi. destruct (Hold i m Hi) as [Hkept|(Ht & Hs & Hi')];
      [by left|].
    right. split; [done|]. split; [done|].
    exists (with_status CANCELLED m). by rewrite Hi', <- Ht.
  - intros i m Hlen Hi. destruct (Hnew i m Hlen Hi) as (lead & j & ->).
    repeat split; try done. by exists j.
Qed.

(** The later clock is the one that is recorded: the charge of
    [one_unpaid] is swept at T0 + 16 min, the queue function reads the
    clock a second later, and the new row is due at that later time. *)
Lemma sweeper_records_the_later_clock :
  (λ m, (message_type m, status m, send_after m))
    <$> whatsAppMessages
          (handler (T0 + 960000) (soon_after (T0 + 960000)) one_unpaid).2
  = [(PAYMENT_ABANDONED, PENDING, (T0 + 961000)%Z)].
Proof. vm_compute. reflexivity. Qed.
End SweeperQueue.

(** ** What the rows of the queue record *)

Section Records.
Import messageQueue.
Implicit Types (w : World) (m : WhatsAppMessage).

Lemma well_recorded_new lead type sendAfter :
  well_recorded (new_message lead type sendAfter).
Proof. split; [done|]. by intros _. Qed.

Lemma well_recorded_cancelled m : well_recorded (with_status CANCELLED m).
Proof. by split. Qed.

Lemma well_recorded_outcome now data m :
  is_outcome now data → well_recorded (data m).
Proof.
  intros [->|[[e ->]|[text ->]]]; split; done.
Qed.

Lemma well_recorded_cancel_pending leadId type w :
  (∀ i m, whatsAppMessages w !! i = Some m → well_recorded m) →
  ∀ i m, cancel_pending leadId type (whatsAppMessages w) !! i = Some m →
         well_recorded m.
Proof.
  intros Hall i m. rewrite cancel_pending_lookup.
  destruct (whatsAppMessages w !! i) as [m0|] eqn:Ei; [|done].
  simpl. intros [= <-].
  destruct (decide _); [apply well_recorded_cancelled|by apply (Hall i)].
Qed.

Lemma well_recorded_append (tbl : list WhatsAppMessage) row :
  (∀ i m, tbl !! i = Some m → well_recorded m) → well_recorded row →
  ∀ i m, (tbl ++ [row]) !! i = Some m → well_recorded m.
Proof.
  intros Hall Hrow i m Hi.
  apply lookup_app_Some in Hi as [Hi|[_ Hi]]; [by apply (Hall i)|].
  destruct (i - length tbl) as [|n]; [|done].
  simpl in Hi. by injection Hi as <-.
Qed.

Lemma well_recorded_run op w :
  (∀ i m, whatsAppMessages w !! i = Some m → well_recorded m) →
  ∀ i m, whatsAppMessages (run op w) !! i = Some m → well_recorded m.
Proof.
  intros Hall.
  assert (∀ w', whatsAppMessages w' = whatsAppMessages w →
            ∀ i m, whatsAppMessages w' !! i = Some m → well_recorded m)
    as Hsame.
  { intros w' Heq i m. rewrite Heq. apply Hall. }
  destruct op; cbv [run].
  - rewrite cancelPendingWelcomeMessage_eq.
    by apply well_recorded_cancel_pending.
  - rewrite cancelPendingAbandonedMessage_eq.
    by apply well_recorded_cancel_pending.
  - destruct (has_active_dec (id lead) LEAD_WELCOME w) as [Hyes|Hno].
    + by rewrite (queueLeadWelcomeMessage_skip now lead w Hyes).
    + rewrite (queueLeadWelcomeMessage_insert now lead w Hno).
      apply well_recorded_append; [done|apply well_recorded_new].
  - destruct (has_succeeded_transaction_dec (id lead) w) as [Hpaid|Hunpaid].
    { by rewrite (queuePaymentAbandonedMessage_paid now lead w Hpaid). }
    destruct (has_active_dec (id lead) PAYMENT_ABANDONED w) as [Hyes|Hno].
    + by rewrite (queuePaymentAbandonedMessage_skip now lead w Hyes).
    + rewrite (queuePaymentAbandonedMessage_insert now lead w Hunpaid Hno).
      apply well_recorded_append; [|apply well_recorded_new].
      by apply well_recorded_cancel_pending.
  - destruct (has_active_dec (id lead) PAYMENT_CONFIRMED w) as [Hyes|Hno].
    + by rewrite (queuePaymentConfirmedMessage_skip now lead w Hyes).
    + rewrite (queuePaymentConfirmedMessage_insert now lead w Hno).
      apply well_recorded_append; [|apply well_recorded_new].
      apply (well_recorded_cancel_pending _ _
               (set_whatsAppMessages (cancel_pending (id lead) LEAD_WELCOME)
                  w)).
      by apply well_recorded_cancel_pending.
  - destruct (processWhatsappQueue_handler_spec env w)
      as (r' & w' & Hh & _ & Hframe & Hdone & _).
    rewrite Hh. simpl. intros i m Hi.
    destruct (decide (i ∈ processWhatsappQueue.msg_id
                        <$> processWhatsappQueue.pendingMessages
                              (processWhatsappQueue.now env) w))
      as [Hin|Hout].
    + apply list_elem_of_fmap in Hin as (msg & -> & Hin).
      destruct (Hdone msg Hin) as (data & Hdata & Hrow & _).
      rewrite Hrow in Hi. injection Hi as <-.
      by eapply well_recorded_outcome.
    + rewrite Hframe in Hi by done. by apply (Hall i).
  - intros i m Hi.
    destruct (sweeper_queue now clock w) as [Hold Hnew].
    destruct (decide (length (whatsAppMessages w) ≤ i)) as [Hge|Hlt].
    + destruct (Hnew i m Hge Hi) as (lead & j & ->). apply well_recorded_new.
    + assert (is_Some (whatsAppMessages w !! i)) as [m0 Hi0]
        by (apply lookup_lt_is_Some; lia).
      destruct (Hold i m0 Hi0) as [Hi'|(_ & _ & Hi')];
        rewrite Hi in Hi'; injection Hi' as ->.
      * by apply (Hall i).
      * apply well_recorded_cancelled.
  - apply Hsame, openpixWebhook_handler_messages.
  - apply Hsame, checkoutWebhook_handler_messages.
  - apply Hsame, handleStripeWebhook_messages.
  - by apply Hsame.
Qed.

(** X23. In every world the system can reach, a SENT row records the
    text that was sent and the time it was sent at, and a PENDING row
    has never been written to: it has no text, no sending time and no
    error. *)
Theorem X23_rows_record_their_delivery w i m :
  reachable w →
  whatsAppMessages w !! i = Some m →
  (status m = SENT → is_Some (message_text m) ∧ is_Some (sent_at m))
  ∧ (status m = PENDING →
     message_text m = None ∧ sent_at m = None ∧ error m = None).
Proof.
  intros Hreach. revert i m.
  induction Hreach as [|op w Hreach IH]; [done|].
  by apply well_recorded_run.
Qed.

Lemma X23_witness :
  let m := processWhatsappQueue.data_sent
             "Ola Ana, boa tarde, tudo bom? Vi que voce se cadastrou pra otimizacao, se tiver algum problema ou duvida pode me avisar"
             (Examples.T0 + 120000)
             (new_message Examples.ana LEAD_WELCOME (Examples.T0 + 120000)) in
  (status m = SENT → is_Some (message_text m) ∧ is_Some (sent_at m))
  ∧ (status m = PENDING →
     message_text m = None ∧ sent_at m = None ∧ error m = None).
Proof.
  apply (X23_rows_record_their_delivery
           (run (ProcessWhatsappQueue (Examples.cron (Examples.T0 + 120000)))
              Examples.registered) 0).
  - unfold Examples.registered. cbv [Examples.run_all foldl].
    repeat apply reachable_run. apply reachable_empty.
  - reflexivity.
Defined.
End Records.

(** * Requests that overlap *)

Section Overlap.
Import whatsapp processWhatsappQueue messageQueue overlap Examples.
Implicit Types (w : World) (env : Env) (msg : PendingMessage)
  (results : Results).

(** The cuts are cuts of the functions themselves. *)
Lemma queueLeadWelcomeMessage_cut now lead :
  queueLeadWelcomeMessage now lead
  = bind (welcome_check lead) (welcome_after_check now lead).
Proof. reflexivity. Qed.

Lemma processor_uninterrupted env w :
  handler env w
  = match processor_interrupted env (λ w0, w0) w with
    | (Ok results, w') => (Status200 results, w')
    | (Thrown e, w') => (Status500 e, w')
    end.
Proof. reflexivity. Qed.

(** C2 as the specification states it ("at any time") fails: the check
    and the insert of [queueLeadWelcomeMessage] are two store calls.
    Ana registers twice at once (a double submit): both calls find no
    welcome row, both insert one, and the lead has two PENDING welcome
    rows. *)
Lemma C2_counterexample :
  let w := collaborator [ana_row] [] [] empty_world in
  let w' := (two_welcomes T0 ana (T0 + 1) ana w).2 in
  I1 w
  ∧ (λ m, (lead_id m, message_type m, status m)) <$> whatsAppMessages w'
    = [(0, LEAD_WELCOME, PENDING); (0, LEAD_WELCOME, PENDING)]
  ∧ ¬ I1 w'.
Proof.
  split; [intros leadId type; simpl; lia|].
  split; [vm_compute; reflexivity|].
  intros HI. specialize (HI 0 LEAD_WELCOME). vm_compute in HI. lia.
Qed.

(** C4 as the specification states it fails: the processor selects the
    welcome message of Ana while it is PENDING; before its loop starts
    the queue writer cancels the message; the loop then writes the
    delivery outcome to the row by id, and the CANCELLED row becomes
    SENT. *)
Lemma C4_counterexample :
  let cancelled := run (CancelPendingWelcomeMessage 0) in
  let w' := (processor_interrupted (cron (T0 + 120000)) cancelled
               registered).2 in
  (λ msg, (msg_id msg, status (msg_row msg)))
    <$> pendingMessages (T0 + 120000) registered = [(0, PENDING)]
  ∧ status <$> whatsAppMessages (cancelled registered) !! 0 = Some CANCELLED
  ∧ status <$> whatsAppMessages w' !! 0 = Some SENT
  ∧ length (waha_requests w') = 1.
Proof. vm_compute. repeat split. Qed.

Lemma findFirst_alter_other {A} (P : nat * A → Prop)
    `{!∀ r, Decision (P r)} (f : A → A) (tbl : list A) i :
  (∀ x, ¬ P (i, x)) →
  Table.findFirst P (alter f i tbl) = Table.findFirst P tbl.
Proof.
  intros Hnot. apply option_eq. intros y.
  unfold Table.findFirst, rows. rewrite !head_filter_imap.
  split; intros (j & x & Hj & -> & HP & Hmin).
  - assert (i ≠ j) as Hne by (intros ->; by apply (Hnot x)).
    rewrite list_lookup_alter_ne in Hj by done.
    exists j, x. repeat split; try done. intros k x' Hlt Hk.
    destruct (decide (i = k)) as [->|Hik]; [apply Hnot|].
    apply (Hmin k x' Hlt). by rewrite list_lookup_alter_ne.
  - assert (i ≠ j) as Hne by (intros ->; by apply (Hnot x)).
    exists j, x. rewrite list_lookup_alter_ne by done.
    repeat split; try done. intros k x' Hlt Hk.
    destruct (decide (i = k)) as [->|Hik]; [apply Hnot|].
    rewrite list_lookup_alter_ne in Hk by done. by apply (Hmin k x').
Qed.

(** The cancellation check does not look at the status of the message
    it is asked about. *)
Lemma shouldCancelMessage_any_status msg st w x :
  shouldCancelMessage msg w = (x, w) →
  shouldCancelMessage msg (with_row_status (msg_id msg) st w)
  = (x, with_row_status (msg_id msg) st w).
Proof.
  unfold shouldCancelMessage.
  destruct (msg_lead msg) as [il|]; [|unfold throw; by intros [= <-]].
  match goal with
  | |- context [match ?switch with Some _ => _ | None => _ end] =>
      destruct switch as [reason|]
  end; [unfold ret; by intros [= <-]|].
  unfold bind, prisma.whatsAppMessage.findFirst.
  change (whatsAppMessages (with_row_status (msg_id msg) st w))
    with (alter (with_status st) (msg_id msg) (whatsAppMessages w)).
  rewrite findFirst_alter_other by (by intros r (_ & _ & _ & Hne)).
  destruct (Table.findFirst _ _); unfold ret; by intros [= <-].
Qed.

Lemma sendWhatsAppMessage_any_status waha phone message i st w :
  ∃ result reqs,
    sendWhatsAppMessage waha phone message w
      = (Ok result, set_waha_requests (λ l, l ++ reqs) w)
    ∧ sendWhatsAppMessage waha phone message (with_row_status i st w)
      = (Ok result,
         set_waha_requests (λ l, l ++ reqs) (with_row_status i st w)).
Proof.
  unfold sendWhatsAppMessage, ret.
  destruct (String.eqb _ _).
  - eexists _, []. by rewrite !set_waha_requests_nil.
  - simpl. destruct (fetch_sendText _ _ _ _); by eexists _, _.
Qed.

(** Whatever status the row of the message has, [processMessage] takes
    the same decision and writes the same [data] to it. *)
Lemma processMessage_any_status env msg results w m st :
  whatsAppMessages w !! msg_id msg = Some m →
  ∃ results' data reqs,
    is_outcome (now env) data
    ∧ processMessage env msg results w
      = (Ok results',
         set_whatsAppMessages (alter data (msg_id msg))
           (set_waha_requests (λ l, l ++ reqs) w))
    ∧ processMessage env msg results (with_row_status (msg_id msg) st w)
      = (Ok results',
         set_whatsAppMessages (alter data (msg_id msg))
           (set_waha_requests (λ l, l ++ reqs)
              (with_row_status (msg_id msg) st w))).
Proof.
  intros Hi.
  set (w_st := with_row_status (msg_id msg) st w).
  assert (whatsAppMessages w_st !! msg_id msg = Some (with_status st m))
    as Hi_st.
  { unfold w_st, with_row_status. simpl.
    by rewrite list_lookup_alter_eq, Hi. }
  assert (∀ results' data,
            is_outcome (now env) data →
            ∃ results0 data0 reqs,
              is_outcome (now env) data0
              ∧ (Ok results', set_whatsAppMessages (alter data (msg_id msg)) w)
                = (Ok results0,
                   set_whatsAppMessages (alter data0 (msg_id msg))
                     (set_waha_requests (λ l, l ++ reqs) w))
              ∧ (Ok results',
                 set_whatsAppMessages (alter data (msg_id msg)) w_st)
                = (Ok results0,
                   set_whatsAppMessages (alter data0 (msg_id msg))
                     (set_waha_requests (λ l, l ++ reqs) w_st))) as Hquiet.
  { intros r data Hd. exists r, data, [].
    by rewrite !set_waha_requests_nil. }
  unfold processMessage, try_catch, bind.
  destruct (shouldCancelMessage_reads msg w) as [x Hx].
  pose proof (shouldCancelMessage_any_status msg st w x Hx) as Hx_st.
  fold w_st in Hx_st. rewrite Hx, Hx_st.
  destruct x as [[reason|]|e].
  - rewrite (update_message_ok _ _ _ _ Hi), (update_message_ok _ _ _ _ Hi_st).
    unfold ret. apply Hquiet. by left.
  - destruct (generateMessageText_reads (host env) msg w) as [y Hy].
    rewrite Hy, (generateMessageText_const _ _ w w_st y Hy).
    destruct y as [[text|]|e].
    + destruct text as [|c text].
      * rewrite (update_message_ok _ _ _ _ Hi),
          (update_message_ok _ _ _ _ Hi_st).
        unfold ret. apply Hquiet. right; left; by eexists.
      * destruct (sendWhatsAppMessage_any_status (waha env)
                    (phone (msg_row msg)) (String c text) (msg_id msg) st w)
          as (result & reqs & -> & Hsend).
        fold w_st in Hsend. rewrite Hsend.
        destruct (success result);
          (erewrite update_message_ok by (simpl; exact Hi));
          (erewrite update_message_ok by (simpl; exact Hi_st)); unfold ret;
          eexists _, _, reqs; (split; [|done]).
        -- right; right; by eexists.
        -- right; left; by eexists.
    + rewrite (update_message_ok _ _ _ _ Hi),
        (update_message_ok _ _ _ _ Hi_st).
      unfold ret. apply Hquiet. right; left; by eexists.
    + rewrite (update_message_ok _ _ _ _ Hi),
        (update_message_ok _ _ _ _ Hi_st).
      unfold ret. apply Hquiet. right; left; by eexists.
  - rewrite (update_message_ok _ _ _ _ Hi), (update_message_ok _ _ _ _ Hi_st).
    unfold ret. apply Hquiet. right; left; by eexists.
Qed.

Lemma is_outcome_writes now data m st :
  is_outcome now data →
  data (with_status st m) = data m
  ∧ updated_at (data m) = Some now
  ∧ status (data m) ∈ [SENT; CANCELLED; FAILED].
Proof.
  intros [->|[[e ->]|[text ->]]]; (split; [done|]); (split; [done|]);
    simpl.
  - right. left.
  - right. right. left.
  - left.
Qed.

(** C8, as the code has it.  Every status update of the processor
    selects its row by id alone and is applied whatever status the row
    has.  For a message whose row exists, with any status: after
    [processMessage] the row is SENT, CANCELLED or FAILED and carries
    the clock of the run as its update time; and had the row any other
    status [st] when the message was treated (CANCELLED, say, by a
    queue writer that ran since the batch was selected), the processor
    would have written the very same row.  The status PENDING is
    required only by the query that selects the batch when the run
    starts. *)
Theorem C8_processor_updates_by_id_alone env msg results w m :
  whatsAppMessages w !! msg_id msg = Some m →
  (∃ m', whatsAppMessages (processMessage env msg results w).2
           !! msg_id msg = Some m'
         ∧ status m' ∈ [SENT; CANCELLED; FAILED]
         ∧ updated_at m' = Some (now env)
         ∧ ∀ st, whatsAppMessages
                   (processMessage env msg results
                      (with_row_status (msg_id msg) st w)).2
                   !! msg_id msg = Some m')
  ∧ (∀ now0 w0 msg0,
       msg0 ∈ pendingMessages now0 w0 →
       status (msg_row msg0) = PENDING).
Proof.
  intros Hi. split.
  - destruct (processMessage_any_status env msg results w m PENDING Hi)
      as (r' & data & reqs & Hdata & Hrun & _).
    exists (data m).
    destruct (is_outcome_writes (now env) data m PENDING Hdata)
      as (_ & Hupdated & Hstatus).
    split; [|split; [done|split; [done|]]].
    + rewrite Hrun. simpl. by rewrite list_lookup_alter_eq, Hi.
    + intros st.
      destruct (processMessage_any_status env msg results w m st Hi)
        as (r2 & data2 & reqs2 & Hdata2 & Hrun2 & Hrun_st).
      rewrite Hrun in Hrun2. injection Hrun2 as _ Hworld.
      assert (data2 m = data m) as Hsame.
      { apply (f_equal (λ tbl, tbl !! msg_id msg)) in Hworld.
        simpl in Hworld. rewrite !list_lookup_alter_eq, Hi in Hworld.
        simpl in Hworld. by injection Hworld as <-. }
      rewrite Hrun_st. simpl.
      rewrite !list_lookup_alter_eq, Hi. simpl.
      destruct (is_outcome_writes (now env) data2 m st Hdata2) as [-> _].
      by rewrite Hsame.
  - by intros now0 w0 msg0 (_ & ? & _)%pendingMessages_spec.
Qed.

Lemma C8_witness :
  let msg := {| msg_id := 0;
                msg_row := new_message ana LEAD_WELCOME (T0 + 120000);
                msg_lead := include_lead registered 0 |} in
  ∃ m', whatsAppMessages
          (processMessage (cron (T0 + 120000)) msg zero registered).2 !! 0
        = Some m'
        ∧ status m' ∈ [SENT; CANCELLED; FAILED]
        ∧ updated_at m' = Some (T0 + 120000)%Z
        ∧ whatsAppMessages
            (processMessage (cron (T0 + 120000)) msg zero
               (with_row_status 0 CANCELLED registered)).2 !! 0
          = Some m'.
Proof.
  intros msg.
  destruct (C8_processor_updates_by_id_alone (cron (T0 + 120000))
              msg zero registered
              (new_message ana LEAD_WELCOME (T0 + 120000)))
    as [(m' & Hrow & Hst & Hup & Hany) _].
  - vm_compute. reflexivity.
  - exists m'. split; [exact Hrow|]. split; [exact Hst|].
    split; [exact Hup|]. exact (Hany CANCELLED).
Defined.
End Overlap.
